(** * run_from_cats: the grid simulation of [src/run_from_cats/__init__.py]

    A shallow embedding of the classes [Position] and [GameField] and of the
    turn branch of [Bot.proceed_message], followed by the properties of the
    board that the specification states about them.

    The Python objects are mutable; the methods of [GameField] are embedded
    as computations of a state-and-exception monad over a [World] made of
    the board ([field_data]) and of the values that the module [random] is
    still going to return ([tape]). *)

From Stdlib Require Import ZArith Lia.
From stdpp Require Import base option list strings gmap.

Local Open Scope Z_scope.

(** ** Module-level constants *)

Definition FIELD_SIZE : Z := 5.
Definition MIDDLE_POS : Z := (FIELD_SIZE - 1) `div` 2.

(** The four one-character strings stored in [Position.data]. *)
Inductive Symbol : Set :=
  | PLAYER_SYMBOL
  | CAT_SYMBOL
  | OBSTACLE_SYMBOL
  | EMPTY_SYMBOL.

#[global] Instance Symbol_eq_dec : EqDecision Symbol.
Proof. solve_decision. Defined.

(** [DIRECTIONS]: the dict sending a direction to its opposite. *)
Definition DIRECTIONS : gmap string string :=
  <["left" := "right"]> (<["right" := "left"]>
  (<["up" := "down"]> (<["down" := "up"]> ∅))).

Definition POSITIONS_TO_CHECK_CATS : list (Z * Z) :=
  [ (MIDDLE_POS, MIDDLE_POS - 1);
    (MIDDLE_POS, MIDDLE_POS + 1);
    (MIDDLE_POS - 1, MIDDLE_POS);
    (MIDDLE_POS + 1, MIDDLE_POS) ].

(** ** class Position *)

Module Position.
Record t : Set := mk { x : Z; y : Z; data : Symbol }.

(** [manhattan] with a tuple argument, the only form the module calls. *)
Definition manhattan (self : t) (other_position : Z * Z) : Z :=
  Z.abs (x self - other_position.1) + Z.abs (y self - other_position.2).

Definition set_data (s : Symbol) (p : t) : t := mk (x p) (y p) s.
Definition add_x (d : Z) (p : t) : t := mk (x p + d) (y p) (data p).
Definition add_y (d : Z) (p : t) : t := mk (x p) (y p + d) (data p).
End Position.

(** ** Python lists

    [l[i]] accepts [-len l <= i < len l], a negative index counting from the
    end, and raises [IndexError] elsewhere; [None] stands for the error. *)

Definition py_index (len : nat) (i : Z) : option nat :=
  let j := if bool_decide (i < 0) then i + Z.of_nat len else i in
  if bool_decide (0 <= j < Z.of_nat len) then Some (Z.to_nat j) else None.

Definition getitem {A} (l : list A) (i : Z) : option A :=
  k ← py_index (length l) i; l !! k.

Definition setitem {A} (l : list A) (i : Z) (v : A) : option (list A) :=
  k ← py_index (length l) i; Some (<[k := v]> l).

(** [range(n)] and [range(start, stop, -1)]. *)
Definition range (n : Z) : list Z :=
  (λ k : nat, Z.of_nat k) <$> seq 0 (Z.to_nat n).

Definition range_down (start stop : Z) : list Z :=
  (λ k : nat, start - Z.of_nat k) <$> seq 0 (Z.to_nat (start - stop)).

(** The board: [field_data], a list of rows of [Position] objects.  When a
    method is called every slot of the board holds an object of its own, so
    the board is kept as a value and an assignment to an attribute of
    [self[r][c]] replaces the cell at that place; the one place where two
    slots hold the same objects for a while is in [move_objects] below. *)
Definition Grid : Type := list (list Position.t).

(** [g[r][c]] *)
Definition get_cell (g : Grid) (r c : Z) : option Position.t :=
  row ← getitem g r; getitem row c.

(** [g[r][c].attr = ...]: the object found at [g[r][c]] is replaced by [f] of
    it. *)
Definition upd_cell (f : Position.t → Position.t) (g : Grid) (r c : Z)
  : option Grid :=
  row ← getitem g r;
  p ← getitem row c;
  row' ← setitem row c (f p);
  setitem g r row'.

(** ** Worlds and computations *)

Record World : Type := mkWorld { field_data : Grid; tape : list Z }.

Inductive exn : Set := IndexError | ValueError | KeyError.

(** [NoDraw]: the tape ended before the computation did. *)
Inductive res (A : Type) : Type :=
  | Ret (a : A)
  | Raise (e : exn)
  | NoDraw.
Arguments Ret {A} a.
Arguments Raise {A} e.
Arguments NoDraw {A}.

Definition M (A : Type) : Type := World → World * res A.

Definition ret {A} (a : A) : M A := λ w, (w, Ret a).

#[global] Instance M_ret : MRet M := @ret.

#[global] Instance M_bind : MBind M := λ A B f m w,
  match m w with
  | (w1, Ret a) => f a w1
  | (w1, Raise e) => (w1, Raise e)
  | (w1, NoDraw) => (w1, NoDraw)
  end.

Definition raise {A} (e : exn) : M A := λ w, (w, Raise e).

(** An indexing that failed raises [IndexError]. *)
Definition indexed {A} (o : option A) : M A :=
  match o with Some a => ret a | None => raise IndexError end.

Definition get_field : M Grid := λ w, (w, Ret (field_data w)).
Definition put_field (g : Grid) : M unit :=
  λ w, (mkWorld g (tape w), Ret tt).

(** [self[r][c]], [self[r][c].data] and [self[r][c].attr = ...] *)
Definition read_cell (r c : Z) : M Position.t :=
  g ← get_field; indexed (get_cell g r c).

Definition read_data (r c : Z) : M Symbol :=
  p ← read_cell r c; ret (Position.data p).

Definition modify_cell (f : Position.t → Position.t) (r c : Z) : M unit :=
  g ← get_field; g' ← indexed (upd_cell f g r c); put_field g'.

Definition write_data (r c : Z) (s : Symbol) : M unit :=
  modify_cell (Position.set_data s) r c.

(** [self.field_data[r]] and [self.field_data[r] = row] *)
Definition read_row (r : Z) : M (list Position.t) :=
  g ← get_field; indexed (getitem g r).

Definition write_row (r : Z) (row : list Position.t) : M unit :=
  g ← get_field; g' ← indexed (setitem g r row); put_field g'.

(** *** module random

    Each call takes the next value of the tape and reduces it to the range
    of its arguments, so that every value of the range can come out and no
    other. *)
Definition draw : M Z := λ w,
  match tape w with
  | [] => (w, NoDraw)
  | n :: t => (mkWorld (field_data w) t, Ret n)
  end.

(** [random.randint(a, b)], both ends included. *)
Definition randint (a b : Z) : M Z :=
  n ← draw; ret (a + n `mod` (b - a + 1)).

(** The index of the element that [random.choice(l)] returns. *)
Definition choice_index {A} (l : list A) : M Z :=
  n ← draw;
  if bool_decide (l = []) then raise IndexError
  else ret (n `mod` Z.of_nat (length l)).

Definition choice {A} (l : list A) : M A :=
  i ← choice_index l; indexed (getitem l i).

(** [for a in l: body(a)] *)
Fixpoint for_each {A} (l : list A) (body : A → M unit) : M unit :=
  match l with
  | [] => ret tt
  | a :: l' => body a;; for_each l' body
  end.

(** ** class GameField *)

(** [generate_row]: a row of empty cells, then [FIELD_SIZE // 3] times an
    obstacle on a cell chosen at random in it ([n] counts the rounds left). *)
Fixpoint generate_row_obstacles (n : nat) (result : list Position.t)
  : M (list Position.t) :=
  match n with
  | O => ret result
  | S n' =>
      i ← choice_index result;
      p ← indexed (getitem result i);
      result' ← indexed (setitem result i
                           (Position.set_data OBSTACLE_SYMBOL p));
      generate_row_obstacles n' result'
  end.

Definition generate_row (row_index : Z) : M (list Position.t) :=
  let result :=
    (λ col, Position.mk row_index col EMPTY_SYMBOL) <$> range FIELD_SIZE in
  generate_row_obstacles (Z.to_nat (FIELD_SIZE `div` 3)) result.

Definition generate_clear : option Grid :=
  let result :=
    (λ row, (λ col, Position.mk row col EMPTY_SYMBOL) <$> range FIELD_SIZE)
      <$> range FIELD_SIZE in
  upd_cell (Position.set_data PLAYER_SYMBOL) result MIDDLE_POS MIDDLE_POS.

(** The body of the [while] loop of [generate_cats]; [fuel] bounds the number
    of rounds, each of which draws from the tape. *)
Fixpoint generate_cats_loop (fuel : nat) (number cats_generated : Z)
  : M unit :=
  if bool_decide (cats_generated < number) then
    match fuel with
    | O => λ w, (w, NoDraw)
    | S fuel' =>
        random_coordinate ← randint 0 (FIELD_SIZE - 1);
        let possible_cats_positions :=
          [ (0, random_coordinate);
            (FIELD_SIZE - 1, random_coordinate);
            (random_coordinate, 0);
            (random_coordinate, FIELD_SIZE - 1) ] in
        new_cat_position ← choice possible_cats_positions;
        let '(x, y) := new_cat_position in
        s ← read_data x y;
        if bool_decide (s ≠ EMPTY_SYMBOL) then
          generate_cats_loop fuel' number cats_generated
        else
          centre ← read_cell MIDDLE_POS MIDDLE_POS;
          if bool_decide (Position.manhattan centre (x, y) < 2) then
            generate_cats_loop fuel' number cats_generated
          else
            write_data x y CAT_SYMBOL;;
            generate_cats_loop fuel' number (cats_generated + 1)
    end
  else ret tt.

Definition generate_cats (number : Z) : M unit :=
  λ w, generate_cats_loop (length (tape w)) number 0 w.

Fixpoint generate_obstacles_loop (fuel : nat)
  (obstacles_number obstacles_generated : Z) : M unit :=
  if bool_decide (obstacles_generated < obstacles_number) then
    match fuel with
    | O => λ w, (w, NoDraw)
    | S fuel' =>
        x ← randint 0 (FIELD_SIZE - 1);
        y ← randint 0 (FIELD_SIZE - 1);
        s ← read_data x y;
        if bool_decide (s ≠ EMPTY_SYMBOL) then
          generate_obstacles_loop fuel' obstacles_number obstacles_generated
        else
          write_data x y OBSTACLE_SYMBOL;;
          generate_obstacles_loop fuel' obstacles_number
            (obstacles_generated + 1)
    end
  else ret tt.

Definition generate_obstacles (obstacles_number : Z) : M unit :=
  λ w, generate_obstacles_loop (length (tape w)) obstacles_number 0 w.

(** [GameField.__init__] *)
Definition GameField_init : M unit :=
  g ← indexed generate_clear;
  put_field g;;
  generate_cats 1;;
  generate_obstacles 3.

(** [move_objects].  In the cases ['up'] and ['down'] the assignment
    [field_data[row] = field_data[row ± 1]] makes two slots of [field_data]
    hold the same list until the next assignment overwrites the second of
    them, so that the coordinate update made through the first is also seen
    through the second: [modify_alias] writes it to both.  The [print(row)]
    of the case ['down'] writes to the standard output only and is left
    out. *)
Definition modify_alias (f : Position.t → Position.t) (r r' c : Z)
  : M unit :=
  modify_cell f r c;; modify_cell f r' c.

(** The [match] statement of [move_objects]. *)
Definition move_objects_match (direction : string) : M unit :=
  if String.eqb direction "left" then
    for_each (range FIELD_SIZE) (λ row,
      old ← read_row row;
      let new_row :=
        drop 1 old ++ [Position.mk row FIELD_SIZE EMPTY_SYMBOL] in
      write_row row new_row;;
      for_each (range FIELD_SIZE) (λ col,
        modify_cell (Position.add_y (-1)) row col));;
    for_each (range 2) (λ _,
      random_row ← randint 0 (FIELD_SIZE - 1);
      write_data random_row (FIELD_SIZE - 1) OBSTACLE_SYMBOL)
  else if String.eqb direction "right" then
    for_each (range FIELD_SIZE) (λ row,
      old ← read_row row;
      let new_row :=
        [Position.mk row (-1) EMPTY_SYMBOL] ++ take (length old - 1) old in
      write_row row new_row;;
      for_each (range FIELD_SIZE) (λ col,
        modify_cell (Position.add_y 1) row col));;
    for_each (range 2) (λ _,
      random_row ← randint 0 (FIELD_SIZE - 1);
      write_data random_row 0 OBSTACLE_SYMBOL)
  else if String.eqb direction "up" then
    for_each (range (FIELD_SIZE - 1)) (λ row,
      next ← read_row (row + 1);
      write_row row next;;
      for_each (range (FIELD_SIZE - 1)) (λ col,
        modify_alias (Position.add_x (-1)) row (row + 1) col));;
    new_row ← generate_row (FIELD_SIZE - 1);
    write_row (FIELD_SIZE - 1) new_row
  else if String.eqb direction "down" then
    for_each (range_down (FIELD_SIZE - 1) 0) (λ row,
      prev ← read_row (row - 1);
      write_row row prev;;
      for_each (range (FIELD_SIZE - 1)) (λ col,
        modify_alias (Position.add_x 1) row (row - 1) col));;
    new_row ← generate_row 0;
    write_row 0 new_row
  else ret tt.

Definition move_objects (direction : string) : M unit :=
  write_data MIDDLE_POS MIDDLE_POS EMPTY_SYMBOL;;
  move_objects_match direction;;
  write_data MIDDLE_POS MIDDLE_POS PLAYER_SYMBOL.

(** One round of the loop of [move_cat] over [positions_to_check[1:]], on the
    local variables [current_distance] and [current_position]. *)
Definition move_cat_check (cur : Z * (Z * Z)) (position : Z * Z)
  : M (Z * (Z * Z)) :=
  let '(current_distance, current_position) := cur in
  let '(x, y) := position in
  if bool_decide (x < 0 ∨ x >= FIELD_SIZE ∨ y < 0 ∨ y >= FIELD_SIZE) then
    ret cur
  else
    s ← read_data x y;
    if bool_decide (s ≠ EMPTY_SYMBOL) then ret cur
    else
      centre ← read_cell MIDDLE_POS MIDDLE_POS;
      let new_distance := Position.manhattan centre position in
      if bool_decide (new_distance < current_distance)
      then ret (new_distance, position)
      else ret cur.

Fixpoint move_cat_scan (positions : list (Z * Z)) (cur : Z * (Z * Z))
  : M (Z * (Z * Z)) :=
  match positions with
  | [] => ret cur
  | position :: rest =>
      cur' ← move_cat_check cur position; move_cat_scan rest cur'
  end.

Definition move_cat (cat_row cat_column : Z) : M unit :=
  let positions_to_check :=
    [ (cat_row, cat_column);
      (cat_row, cat_column - 1);
      (cat_row, cat_column + 1);
      (cat_row - 1, cat_column);
      (cat_row + 1, cat_column) ] in
  let current_position := (cat_row, cat_column) in
  centre ← read_cell MIDDLE_POS MIDDLE_POS;
  let current_distance := Position.manhattan centre current_position in
  cur ← move_cat_scan (drop 1 positions_to_check)
          (current_distance, current_position);
  write_data cat_row cat_column EMPTY_SYMBOL;;
  write_data cur.2.1 cur.2.2 CAT_SYMBOL.

(** [is_game_over]: [any] stops at the first position that holds a cat. *)
Fixpoint any_cat (positions : list (Z * Z)) : M bool :=
  match positions with
  | [] => ret false
  | (x, y) :: rest =>
      s ← read_data x y;
      if bool_decide (s = CAT_SYMBOL) then ret true else any_cat rest
  end.

Definition is_game_over : M bool := any_cat POSITIONS_TO_CHECK_CATS.

(** [proceed_cats_turn]: the two nested loops; the inner one answers [true]
    when it has executed [return]. *)
Fixpoint cats_in_row (row : Z) (cols : list Z) : M bool :=
  match cols with
  | [] => ret false
  | col :: cols' =>
      s ← read_data row col;
      if bool_decide (s = CAT_SYMBOL) then
        move_cat row col;;
        over ← is_game_over;
        if (over : bool) then ret true else cats_in_row row cols'
      else cats_in_row row cols'
  end.

Fixpoint cats_in_rows (rows : list Z) : M unit :=
  match rows with
  | [] => ret tt
  | row :: rows' =>
      returned ← cats_in_row row (range FIELD_SIZE);
      if (returned : bool) then ret tt else cats_in_rows rows'
  end.

Definition proceed_cats_turn : M unit := cats_in_rows (range FIELD_SIZE).

(** [DIRECTIONS[direction]] *)
Definition DIRECTIONS_getitem (direction : string) : M string :=
  match DIRECTIONS !! direction with
  | Some opposite => ret opposite
  | None => raise KeyError
  end.

Definition move_player (direction : string) : M unit :=
  if bool_decide (DIRECTIONS !! direction = None) then raise ValueError
  else
    let go (r c : Z) : M unit :=
      s ← read_data r c;
      if bool_decide (s = EMPTY_SYMBOL) then
        opposite ← DIRECTIONS_getitem direction; move_objects opposite
      else ret tt in
    if String.eqb direction "left" then go MIDDLE_POS (MIDDLE_POS - 1)
    else if String.eqb direction "right" then go MIDDLE_POS (MIDDLE_POS + 1)
    else if String.eqb direction "up" then go (MIDDLE_POS - 1) MIDDLE_POS
    else if String.eqb direction "down" then go (MIDDLE_POS + 1) MIDDLE_POS
    else ret tt.

(** ** class Bot: the game branches of [proceed_message]

    One session is modelled: [players_data[chat_id]] is the board of the
    world.  The text sent is kept as its header and the symbols of the board
    in row-major order, the arguments of [format]. *)

Definition render (g : Grid) : list Symbol :=
  Position.data <$> concat g.

Inductive message : Type :=
  | NEW_GAME_MESSAGE (cells : list Symbol)
  | GAME_OVER_MESSAGE (cells : list Symbol)
  | GOOD_JOB_MESSAGE (cells : list Symbol)
  | PROGRESS_LOADED_MESSAGE (cells : list Symbol).

(** [message[1:]] *)
Definition str_tail (s : string) : string :=
  match s with
  | EmptyString => EmptyString
  | String _ rest => rest
  end.

Definition is_turn_command (msg : string) : bool :=
  String.eqb msg "/left" || String.eqb msg "/right"
  || String.eqb msg "/up" || String.eqb msg "/down".

Definition proceed_message (msg : string) : M message :=
  if String.eqb msg "/newgame" then
    GameField_init;;
    g ← get_field; ret (NEW_GAME_MESSAGE (render g))
  else if is_turn_command msg then
    move_player (str_tail msg);;
    proceed_cats_turn;;
    generate_cats 1;;
    over ← is_game_over;
    g ← get_field;
    if (over : bool) then ret (GAME_OVER_MESSAGE (render g))
    else ret (GOOD_JOB_MESSAGE (render g))
  else
    g ← get_field; ret (PROGRESS_LOADED_MESSAGE (render g)).


(** ** Shape of the board and what it holds *)

Definition in_bounds (i : Z) : Prop := 0 <= i < FIELD_SIZE.

(** [FIELD_SIZE] rows of [FIELD_SIZE] cells, each cell satisfying [φ]. *)
Definition grid_ok (φ : Position.t → Prop) (g : Grid) : Prop :=
  length g = Z.to_nat FIELD_SIZE ∧
  Forall (λ row, length row = Z.to_nat FIELD_SIZE ∧ Forall φ row) g.

Definition well_formed (g : Grid) : Prop := grid_ok (λ _, True) g.

Definition data_at (g : Grid) (r c : Z) : option Symbol :=
  Position.data <$> get_cell g r c.

(** The invariant of the player: the board has its shape and the player
    symbol is on the centre cell and on no other. *)
Definition player_at_centre (g : Grid) : Prop :=
  well_formed g ∧
  ∀ r c, in_bounds r → in_bounds c →
    (data_at g r c = Some PLAYER_SYMBOL ↔ r = MIDDLE_POS ∧ c = MIDDLE_POS).


(** The cell next to the centre in a direction of travel. *)
Definition adjacent_to_centre (direction : string) : option (Z * Z) :=
  if String.eqb direction "left" then Some (MIDDLE_POS, MIDDLE_POS - 1)
  else if String.eqb direction "right" then Some (MIDDLE_POS, MIDDLE_POS + 1)
  else if String.eqb direction "up" then Some (MIDDLE_POS - 1, MIDDLE_POS)
  else if String.eqb direction "down" then Some (MIDDLE_POS + 1, MIDDLE_POS)
  else None.

(** ** A game

    The same board with other values to come from [random]. *)
Definition with_tape (t : list Z) (w : World) : World :=
  mkWorld (field_data w) t.

(** A new game: the cat on (0,0), the obstacles on (4,4), (4,3), (0,4). *)
Definition game_0 : World :=
  Eval vm_compute in (GameField_init (mkWorld [] [0; 0; 4; 4; 4; 3; 0; 4])).1.

(** Then the player goes down, right and right. *)
Definition game_1 : World :=
  Eval vm_compute in (proceed_message "/down" (with_tape [0; 0; 0] game_0)).1.

Definition game_2 : World :=
  Eval vm_compute in
    (proceed_message "/right" (with_tape [2; 2; 0; 0] game_1)).1.

Definition game_3 : World :=
  Eval vm_compute in
    (proceed_message "/right" (with_tape [0; 0; 2; 3] game_2)).1.

(** ** Computations that keep a property of the board *)

Definition preserves {A} (P : Grid → Prop) (m : M A) : Prop :=
  ∀ w w' r, P (field_data w) → m w = (w', r) → P (field_data w').

(** [returns P m Q]: on a board with [P], what [m] returns satisfies [Q]. *)
Definition returns {A} (P : Grid → Prop) (m : M A) (Q : A → Prop) : Prop :=
  ∀ w w' a, P (field_data w) → m w = (w', Ret a) → Q a.

(** ** The choice of [move_cat]

    What the loop of [move_cat] keeps true of [current_distance] and
    [current_position], for a cat on [(r, c)] and the centre cell [centre]:
    the position is on the board, the distance is the one [manhattan]
    computes for it, and the position is the cat's own or an empty cell
    that [manhattan] finds nearer. *)
Definition candidate (g : Grid) (centre : Position.t) (r c : Z)
  (cur : Z * (Z * Z)) : Prop :=
  in_bounds cur.2.1 ∧ in_bounds cur.2.2 ∧
  cur.1 = Position.manhattan centre cur.2 ∧
  (cur.2 = (r, c) ∨
   (data_at g cur.2.1 cur.2.2 = Some EMPTY_SYMBOL
    ∧ cur.1 < Position.manhattan centre (r, c))).

(** ** Placements

    [placed s allowed n g g']: the board [g'] comes from [g] by [n]
    successive assignments of the symbol [s], each to a cell of the board
    that is allowed and holds the empty symbol when it is assigned. *)
Inductive placed (s : Symbol) (allowed : Z → Z → Prop)
  : nat → Grid → Grid → Prop :=
  | placed_O g : placed s allowed 0 g g
  | placed_S n g g1 g' x y :
      in_bounds x → in_bounds y → allowed x y →
      data_at g x y = Some EMPTY_SYMBOL →
      upd_cell (Position.set_data s) g x y = Some g1 →
      placed s allowed n g1 g' →
      placed s allowed (S n) g g'.

(** The first and last rows and columns. *)
Definition on_edge (x y : Z) : Prop :=
  x = 0 ∨ x = FIELD_SIZE - 1 ∨ y = 0 ∨ y = FIELD_SIZE - 1.

(** Neither on the first nor on the last row or column. *)
Definition interior (x y : Z) : Prop :=
  0 < x < FIELD_SIZE - 1 ∧ 0 < y < FIELD_SIZE - 1.

Definition anywhere (x y : Z) : Prop := True.

(** ** The boards of a game

    A new game, and from there the three methods that a turn calls, each
    returning normally, with whatever [random] is going to return. *)
Inductive reachable : World → Prop :=
  | reachable_new w0 w :
      GameField_init w0 = (w, Ret tt) → reachable w
  | reachable_tape t w :
      reachable w → reachable (with_tape t w)
  | reachable_move_player direction w w' :
      reachable w → move_player direction w = (w', Ret tt) → reachable w'
  | reachable_cats_turn w w' :
      reachable w → proceed_cats_turn w = (w', Ret tt) → reachable w'
  | reachable_generate_cats number w w' :
      reachable w → generate_cats number w = (w', Ret tt) → reachable w'.

(** ** The cats' turn, with the list of the cells given to [move_cat]

    [proceed_cats_turn] again, returning in the order of the calls the
    coordinates that it passes to [move_cat]. *)
Fixpoint cats_in_row_log (row : Z) (cols : list Z)
  : M (bool * list (Z * Z)) :=
  match cols with
  | [] => ret (false, [])
  | col :: cols' =>
      s ← read_data row col;
      if bool_decide (s = CAT_SYMBOL) then
        move_cat row col;;
        over ← is_game_over;
        if (over : bool) then ret (true, [(row, col)])
        else
          rest ← cats_in_row_log row cols';
          ret (rest.1, (row, col) :: rest.2)
      else cats_in_row_log row cols'
  end.

Fixpoint cats_in_rows_log (rows : list Z) : M (list (Z * Z)) :=
  match rows with
  | [] => ret []
  | row :: rows' =>
      here ← cats_in_row_log row (range FIELD_SIZE);
      if (here.1 : bool) then ret here.2
      else
        below ← cats_in_rows_log rows';
        ret (here.2 ++ below)
  end.

Definition proceed_cats_turn_log : M (list (Z * Z)) :=
  cats_in_rows_log (range FIELD_SIZE).

(** The cats of a board, in row-major order. *)
Definition cats_of (g : Grid) : list (Z * Z) :=
  r ← range FIELD_SIZE;
  c ← range FIELD_SIZE;
  if bool_decide (data_at g r c = Some CAT_SYMBOL) then [(r, c)] else [].

(** The cats' turn of the specification: a fold of [move_cat] over the cats
    that the board holds when the turn starts, each move made on the board
    as the moves before it left it, stopping at the first game over. *)
Fixpoint move_cats_of_snapshot (cats : list (Z * Z)) : M unit :=
  match cats with
  | [] => ret tt
  | (row, col) :: cats' =>
      move_cat row col;;
      over ← is_game_over;
      if (over : bool) then ret tt else move_cats_of_snapshot cats'
  end.

Definition proceed_cats_turn_snapshot : M unit :=
  g ← get_field; move_cats_of_snapshot (cats_of g).

(** The result of a computation, seen through a function. *)
Definition res_map {A B} (f : A → B) (r : res A) : res B :=
  match r with
  | Ret a => Ret (f a)
  | Raise e => Raise e
  | NoDraw => NoDraw
  end.

(** One more obstacle on the new game, and the turn ["/up"] on it. *)
Definition game_0_obstacle : World * res unit :=
  Eval vm_compute in generate_obstacles 1 (with_tape [0; 1] game_0).

Definition game_0_up : World * res message :=
  Eval vm_compute in proceed_message "/up" (with_tape [4; 4; 1] game_0).

(** ** Coordinates

    The distance of the glossary, from a cell to the centre of the board,
    and the agreement of the coordinates stored in the cells with the places
    of the cells in the grid. *)
Definition distance_to_centre (r c : Z) : Z :=
  Z.abs (r - MIDDLE_POS) + Z.abs (c - MIDDLE_POS).

Definition coordinates_ok (g : Grid) : Prop :=
  ∀ r c p, in_bounds r → in_bounds c → get_cell g r c = Some p →
    Position.x p = r ∧ Position.y p = c.

(** The new game after each of the four shifts. *)
Definition game_0_shifted_up : World * res unit :=
  Eval vm_compute in move_objects "up" (with_tape [0] game_0).

Definition game_0_shifted_down : World * res unit :=
  Eval vm_compute in move_objects "down" (with_tape [0] game_0).

Definition game_0_shifted_left : World * res unit :=
  Eval vm_compute in move_objects "left" (with_tape [0; 1] game_0).

Definition game_0_shifted_right : World * res unit :=
  Eval vm_compute in move_objects "right" (with_tape [0; 1] game_0).

(** ** The rule of the pursuit

    A cell that a cat may enter, and what the loop of [move_cat] has found
    after the candidates [seen]: the cat's own cell, no cell of [seen] that
    it may enter being nearer for [manhattan]; or the first of the cells of
    [seen] that it may enter and that are nearest, if that is nearer than
    its own. *)
Definition free_cell (g : Grid) (q : Z * Z) : Prop :=
  in_bounds q.1 ∧ in_bounds q.2 ∧ data_at g q.1 q.2 = Some EMPTY_SYMBOL.

Definition first_nearest (g : Grid) (centre : Position.t) (r c : Z)
  (seen : list (Z * Z)) (cur : Z * (Z * Z)) : Prop :=
  cur.1 = Position.manhattan centre cur.2 ∧
  ((cur.2 = (r, c) ∧
    ∀ q, q ∈ seen → free_cell g q → cur.1 <= Position.manhattan centre q)
   ∨
   (∃ before after,
      seen = before ++ cur.2 :: after ∧
      free_cell g cur.2 ∧
      cur.1 < Position.manhattan centre (r, c) ∧
      (∀ q, q ∈ before → free_cell g q →
         cur.1 < Position.manhattan centre q) ∧
      (∀ q, q ∈ after → free_cell g q →
         cur.1 <= Position.manhattan centre q))).

(** ** Counting the pieces

    The cells of the board in row-major order, and the number of cells of
    the rendered board that show a symbol. *)
Definition all_cells : list (Z * Z) :=
  r ← range FIELD_SIZE; c ← range FIELD_SIZE; [(r, c)].

Definition count_of (s : Symbol) (g : Grid) : nat :=
  length (filter (λ t, t = s) (render g)).

(** [1] for a true proposition, [0] for a false one. *)
Definition one_if (P : Prop) `{Decision P} : nat :=
  if decide P then 1%nat else 0%nat.

(** Two more cats on the new game. *)
Definition game_0_two_cats : World * res unit :=
  Eval vm_compute in generate_cats 2 (with_tape [1; 2; 3; 0] game_0).

(** The coordinates stored in the cell at a place of the board. *)
Definition coords_at (g : Grid) (r c : Z) : option (Z * Z) :=
  (λ p, (Position.x p, Position.y p)) <$> get_cell g r c.

(** [same_pieces w w']: the world [w'] has the draws of [w] still to come,
    and its board shows as many cells of each symbol, has its obstacles and
    its player on the same cells, and stores the same coordinates in every
    cell. *)
Definition same_pieces (w w' : World) : Prop :=
  tape w' = tape w ∧
  (∀ t, count_of t (field_data w') = count_of t (field_data w)) ∧
  (∀ r c, in_bounds r → in_bounds c →
     (data_at (field_data w') r c = Some OBSTACLE_SYMBOL
      ↔ data_at (field_data w) r c = Some OBSTACLE_SYMBOL) ∧
     (data_at (field_data w') r c = Some PLAYER_SYMBOL
      ↔ data_at (field_data w) r c = Some PLAYER_SYMBOL) ∧
     coords_at (field_data w') r c = coords_at (field_data w) r c).

(** ** The board after a shift

    The symbol of the cell [(r, c)] after a shift that brought it the object
    of the cell [(r0, c0)], which showed [s]: the player on the centre, an
    empty cell where the player came from. *)
Definition shifted_data (r c r0 c0 : Z) (s : Symbol) : Symbol :=
  if bool_decide (r = MIDDLE_POS ∧ c = MIDDLE_POS) then PLAYER_SYMBOL
  else if bool_decide (r0 = MIDDLE_POS ∧ c0 = MIDDLE_POS) then EMPTY_SYMBOL
  else s.

(** The symbol of a cell that a shift brings into view. *)
Definition edge_data (obstacle : Prop) `{Decision obstacle} : Symbol :=
  if decide obstacle then OBSTACLE_SYMBOL else EMPTY_SYMBOL.

(** The cells that a shift brings into view, numbered along their edge of
    the board. *)
Definition incoming_cell (direction : string) (i : Z) : option (Z * Z) :=
  if String.eqb direction "left" then Some (i, FIELD_SIZE - 1)
  else if String.eqb direction "right" then Some (i, 0)
  else if String.eqb direction "up" then Some (FIELD_SIZE - 1, i)
  else if String.eqb direction "down" then Some (0, i)
  else None.

(** A board with an obstacle on every cell of its edges, and five draws to
    come. *)
Definition game_walled : World :=
  Eval vm_compute in
    mkWorld
      ((λ r, (λ c,
          Position.mk r c
            (if bool_decide (r = 0 ∨ r = FIELD_SIZE - 1
                             ∨ c = 0 ∨ c = FIELD_SIZE - 1)
             then OBSTACLE_SYMBOL
             else if bool_decide (r = MIDDLE_POS ∧ c = MIDDLE_POS)
                  then PLAYER_SYMBOL else EMPTY_SYMBOL))
         <$> range FIELD_SIZE) <$> range FIELD_SIZE)
      [3; 1; 4; 1; 5].

(** ** The rounds of the spawning loops

    The loops of [generate_cats] and [generate_obstacles] draw two values in
    each round, and start again when the cell that these designate is
    refused. *)

(** The values that the rounds of a spawning loop draw, two in each round. *)
Definition draws_of (rounds : list (Z * Z)) : list Z :=
  p ← rounds; [p.1; p.2].

(** The cell that a round of the loop of [generate_cats] draws with the two
    values [p]: [random_coordinate], then the index that [random.choice]
    takes in [possible_cats_positions]. *)
Definition drawn_cat_position (p : Z * Z) : Z * Z :=
  let random_coordinate := p.1 `mod` FIELD_SIZE in
  let i := p.2 `mod` 4 in
  if bool_decide (i = 0) then (0, random_coordinate)
  else if bool_decide (i = 1) then (FIELD_SIZE - 1, random_coordinate)
  else if bool_decide (i = 2) then (random_coordinate, 0)
  else (random_coordinate, FIELD_SIZE - 1).

(** A cell that the loop of [generate_cats] does not refuse: it is empty,
    and [manhattan] from the centre cell finds it at distance 2 at least. *)
Definition accepts_cat (g : Grid) (q : Z * Z) : Prop :=
  data_at g q.1 q.2 = Some EMPTY_SYMBOL ∧
  ∃ centre, get_cell g MIDDLE_POS MIDDLE_POS = Some centre ∧
            2 <= Position.manhattan centre q.

(** The cell that a round of the loop of [generate_obstacles] draws with the
    two values [p]: the row, then the column. *)
Definition drawn_obstacle_position (p : Z * Z) : Z * Z :=
  (p.1 `mod` FIELD_SIZE, p.2 `mod` FIELD_SIZE).

(** Draws that make [generate_obstacles] place one obstacle per round, on
    the board [g] with obstacles already put on the cells [taken]: each
    round is the draws that are refused, of cells that are not empty on [g]
    or are taken, then the draw of a cell that is empty on [g] and not
    taken, which the next rounds find taken. *)
Fixpoint obstacle_rounds (g : Grid) (taken : list (Z * Z))
  (rounds : list (list (Z * Z) * (Z * Z))) : Prop :=
  match rounds with
  | [] => True
  | (refused, p) :: rest =>
      Forall (λ p',
        data_at g (drawn_obstacle_position p').1 (drawn_obstacle_position p').2
          ≠ Some EMPTY_SYMBOL
        ∨ drawn_obstacle_position p' ∈ taken) refused ∧
      data_at g (drawn_obstacle_position p).1 (drawn_obstacle_position p).2
        = Some EMPTY_SYMBOL ∧
      (drawn_obstacle_position p ∉ taken) ∧
      obstacle_rounds g (drawn_obstacle_position p :: taken) rest
  end.

(** The values drawn in such rounds, and the cells that get the
    obstacles. *)
Definition rounds_draws (rounds : list (list (Z * Z) * (Z * Z))) : list Z :=
  round ← rounds; draws_of (round.1 ++ [round.2]).

Definition rounds_cells (rounds : list (list (Z * Z) * (Z * Z)))
  : list (Z * Z) :=
  (λ round, drawn_obstacle_position round.2) <$> rounds.

(** A new game with its cat on the last cell of the board: the cat on
    (4,4), the obstacles on (0,0), (0,1), (0,4). *)
Definition game_0_mirror : World :=
  Eval vm_compute in
    (GameField_init (mkWorld [] [4; 1; 0; 0; 0; 1; 0; 4])).1.
(** ** Python indexing inside the bounds *)

Lemma py_index_in_range (n : nat) (i : Z) :
  0 <= i < Z.of_nat n → py_index n i = Some (Z.to_nat i).
Proof.
  intros Hi. unfold py_index. cbv zeta.
  rewrite (bool_decide_eq_false_2 (i < 0)) by lia.
  by rewrite bool_decide_eq_true_2 by lia.
Qed.

Lemma py_index_lt (n : nat) (i : Z) (k : nat) :
  py_index n i = Some k → (k < n)%nat.
Proof.
  unfold py_index. cbv zeta. intros H.
  repeat case_bool_decide; simplify_eq; lia.
Qed.

Lemma getitem_in_range {A} (l : list A) (i : Z) :
  0 <= i < Z.of_nat (length l) → getitem l i = l !! Z.to_nat i.
Proof. intros Hi. unfold getitem. by rewrite py_index_in_range. Qed.

Lemma setitem_in_range {A} (l : list A) (i : Z) (v : A) :
  0 <= i < Z.of_nat (length l) →
  setitem l i v = Some (<[Z.to_nat i := v]> l).
Proof. intros Hi. unfold setitem. by rewrite py_index_in_range. Qed.

Lemma getitem_elem_of {A} (l : list A) (i : Z) (a : A) :
  getitem l i = Some a → a ∈ l.
Proof.
  unfold getitem. intros H.
  destruct (py_index (length l) i) as [k|]; simplify_eq/=.
  by eapply list_elem_of_lookup_2.
Qed.

Lemma setitem_length {A} (l l' : list A) (i : Z) (v : A) :
  setitem l i v = Some l' → length l' = length l.
Proof.
  unfold setitem. intros H.
  destruct (py_index (length l) i) as [k|]; simplify_eq/=.
  apply length_insert.
Qed.

Lemma setitem_Forall {A} (P : A → Prop) (l l' : list A) (i : Z) (v : A) :
  setitem l i v = Some l' → Forall P l → P v → Forall P l'.
Proof.
  unfold setitem. intros H Hl Hv.
  destruct (py_index (length l) i) as [k|]; simplify_eq/=.
  by apply Forall_insert.
Qed.

Lemma getitem_Forall {A} (P : A → Prop) (l : list A) (i : Z) (a : A) :
  getitem l i = Some a → Forall P l → P a.
Proof.
  intros H Hl. apply getitem_elem_of in H.
  rewrite Forall_forall in Hl. auto.
Qed.

(** ** The ranges of the loops *)

Lemma range_FIELD_SIZE : range FIELD_SIZE = [0; 1; 2; 3; 4].
Proof. reflexivity. Qed.

Lemma range_in_bounds : Forall in_bounds (range FIELD_SIZE).
Proof.
  rewrite range_FIELD_SIZE. unfold in_bounds, FIELD_SIZE.
  repeat constructor; lia.
Qed.

(** The loops are unfolded one round at a time. *)
#[local] Opaque range range_down.

(** ** The board as a grid *)

Lemma FIELD_SIZE_nat : Z.to_nat FIELD_SIZE = 5%nat.
Proof. reflexivity. Qed.

Lemma in_bounds_lt (i : Z) (n : nat) :
  in_bounds i → n = Z.to_nat FIELD_SIZE → 0 <= i < Z.of_nat n.
Proof. unfold in_bounds, FIELD_SIZE. intros ? ->. lia. Qed.

Lemma grid_ok_mono (φ ψ : Position.t → Prop) (g : Grid) :
  (∀ p, φ p → ψ p) → grid_ok φ g → grid_ok ψ g.
Proof.
  intros Himp [Hlen Hrows]. split; [done|].
  eapply Forall_impl; [exact Hrows|].
  intros row [? Hrow]. split; [done|].
  eapply Forall_impl; eauto.
Qed.

Lemma grid_ok_well_formed (φ : Position.t → Prop) (g : Grid) :
  grid_ok φ g → well_formed g.
Proof. apply grid_ok_mono. done. Qed.

Lemma grid_ok_row (φ : Position.t → Prop) (g : Grid) r row :
  grid_ok φ g → getitem g r = Some row →
  length row = Z.to_nat FIELD_SIZE ∧ Forall φ row.
Proof. intros [_ Hrows] Hr. by apply (getitem_Forall _ _ _ _ Hr) in Hrows. Qed.

Lemma grid_ok_cell (φ : Position.t → Prop) (g : Grid) r c p :
  grid_ok φ g → get_cell g r c = Some p → φ p.
Proof.
  intros Hg. unfold get_cell. intros H.
  destruct (getitem g r) as [row|] eqn:Hr; simplify_eq/=.
  destruct (grid_ok_row _ _ _ _ Hg Hr) as [_ Hrow].
  by eapply getitem_Forall.
Qed.

Lemma grid_row_Some (g : Grid) r :
  well_formed g → in_bounds r →
  ∃ row, getitem g r = Some row ∧ g !! Z.to_nat r = Some row
         ∧ length row = Z.to_nat FIELD_SIZE.
Proof.
  intros Hg Hr. pose proof Hg as [Hlen _].
  pose proof (in_bounds_lt _ _ Hr Hlen) as Hlt.
  destruct (lookup_lt_is_Some_2 g (Z.to_nat r)) as [row Hrow]; [lia|].
  exists row. rewrite getitem_in_range by lia. split_and!; [done..|].
  assert (Hget : getitem g r = Some row) by by rewrite getitem_in_range.
  by destruct (grid_ok_row _ _ _ _ Hg Hget).
Qed.

Lemma grid_cell_Some (g : Grid) r c :
  well_formed g → in_bounds r → in_bounds c →
  ∃ row p, getitem g r = Some row ∧ getitem row c = Some p
           ∧ get_cell g r c = Some p.
Proof.
  intros Hg Hr Hc.
  destruct (grid_row_Some _ _ Hg Hr) as (row & Hrow & _ & Hlen).
  pose proof (in_bounds_lt _ _ Hc Hlen) as Hlt.
  destruct (lookup_lt_is_Some_2 row (Z.to_nat c)) as [p Hp]; [lia|].
  exists row, p. unfold get_cell. rewrite Hrow. simpl.
  by rewrite getitem_in_range.
Qed.

Lemma grid_ok_setitem (φ : Position.t → Prop) (g g' : Grid) r row :
  grid_ok φ g → setitem g r row = Some g' →
  length row = Z.to_nat FIELD_SIZE → Forall φ row → grid_ok φ g'.
Proof.
  intros [Hlen Hrows] Hset ? ?. split.
  - by rewrite (setitem_length _ _ _ _ Hset).
  - eapply setitem_Forall; eauto.
Qed.

Lemma grid_ok_upd (φ : Position.t → Prop) f (g g' : Grid) r c :
  grid_ok φ g → upd_cell f g r c = Some g' →
  (∀ p, get_cell g r c = Some p → φ (f p)) → grid_ok φ g'.
Proof.
  intros Hg Hupd Hf. unfold upd_cell in Hupd.
  destruct (getitem g r) as [row|] eqn:Hr; simplify_eq/=.
  destruct (getitem row c) as [p|] eqn:Hp; simplify_eq/=.
  destruct (setitem row c (f p)) as [row'|] eqn:Hrow'; simplify_eq/=.
  destruct (grid_ok_row _ _ _ _ Hg Hr) as [Hlen Hrow].
  eapply grid_ok_setitem; eauto.
  - by rewrite (setitem_length _ _ _ _ Hrow').
  - eapply setitem_Forall; eauto. apply Hf.
    unfold get_cell. by rewrite Hr.
Qed.

Lemma upd_cell_Some f (g : Grid) r c :
  well_formed g → in_bounds r → in_bounds c → is_Some (upd_cell f g r c).
Proof.
  intros Hg Hr Hc.
  destruct (grid_cell_Some _ _ _ Hg Hr Hc) as (row & p & Hrow & Hp & _).
  destruct (grid_row_Some _ _ Hg Hr) as (row' & Hrow' & _ & Hlen).
  assert (row' = row) as -> by congruence.
  unfold upd_cell. rewrite Hrow. simpl. rewrite Hp. simpl.
  rewrite setitem_in_range by (eapply in_bounds_lt; eauto). simpl.
  destruct Hg as [Hg _].
  rewrite setitem_in_range by (eapply in_bounds_lt; eauto). done.
Qed.

Lemma get_cell_upd (f : Position.t → Position.t) (g g' : Grid) r c r' c' :
  well_formed g → in_bounds r → in_bounds c →
  in_bounds r' → in_bounds c' →
  upd_cell f g r c = Some g' →
  get_cell g' r' c' =
    if bool_decide (r' = r ∧ c' = c) then f <$> get_cell g r c
    else get_cell g r' c'.
Proof.
  intros Hg Hr Hc Hr' Hc' Hupd.
  destruct (grid_cell_Some _ _ _ Hg Hr Hc) as (row & p & Hrow & Hp & Hcell).
  destruct (grid_row_Some _ _ Hg Hr) as (row0 & Hrow0 & _ & Hlen).
  assert (row0 = row) as -> by congruence.
  pose proof Hg as [Hglen _].
  pose proof (in_bounds_lt _ _ Hr Hglen).
  pose proof (in_bounds_lt _ _ Hr' Hglen).
  pose proof (in_bounds_lt _ _ Hc Hlen).
  pose proof (in_bounds_lt _ _ Hc' Hlen).
  unfold upd_cell in Hupd. rewrite Hrow in Hupd. simpl in Hupd.
  rewrite Hp in Hupd. simpl in Hupd.
  rewrite setitem_in_range in Hupd by done. simpl in Hupd.
  rewrite setitem_in_range in Hupd by done. simplify_eq.
  rewrite Hcell. unfold get_cell.
  rewrite !getitem_in_range by (rewrite ?length_insert; lia).
  destruct (decide (r' = r)) as [->|Hne].
  - rewrite list_lookup_insert_eq by lia. simpl.
    rewrite getitem_in_range by (rewrite length_insert; lia).
    destruct (decide (c' = c)) as [->|Hnc].
    + rewrite bool_decide_eq_true_2 by done.
      by rewrite list_lookup_insert_eq by lia.
    + rewrite bool_decide_eq_false_2 by (intros [_ ?]; done).
      rewrite list_lookup_insert_ne by lia.
      rewrite getitem_in_range in Hrow by lia. rewrite Hrow. simpl.
      by rewrite getitem_in_range by lia.
  - rewrite bool_decide_eq_false_2 by (intros [? _]; done).
    by rewrite list_lookup_insert_ne by lia.
Qed.

Lemma grid_ok_pointwise (φ : Position.t → Prop) (g : Grid) :
  well_formed g →
  (∀ r c p, in_bounds r → in_bounds c → get_cell g r c = Some p → φ p) →
  grid_ok φ g.
Proof.
  intros Hg Hall. pose proof Hg as [Hlen Hrows]. split; [done|].
  apply Forall_lookup. intros i row Hi.
  pose proof (lookup_lt_Some _ _ _ Hi) as Hlt.
  rewrite Forall_lookup in Hrows. destruct (Hrows _ _ Hi) as [Hrl _].
  split; [done|]. apply Forall_lookup. intros j p Hj.
  pose proof (lookup_lt_Some _ _ _ Hj) as Hjlt.
  apply (Hall (Z.of_nat i) (Z.of_nat j)).
  - unfold in_bounds, FIELD_SIZE. rewrite Hlen, FIELD_SIZE_nat in Hlt. lia.
  - unfold in_bounds, FIELD_SIZE. rewrite Hrl, FIELD_SIZE_nat in Hjlt. lia.
  - unfold get_cell. rewrite getitem_in_range by lia.
    rewrite Nat2Z.id, Hi. simpl.
    rewrite getitem_in_range by lia. by rewrite Nat2Z.id.
Qed.

(** ** Running computations *)

(** The constants of the module, evaluated. *)
Ltac constants :=
  change MIDDLE_POS with 2 in *; change FIELD_SIZE with 5 in *;
  change (2 - 1) with 1 in *; change (2 + 1) with 3 in *;
  change (5 - 1) with 4 in *.

Lemma bind_run {A B} (m : M A) (f : A → M B) (w : World) :
  (m ≫= f) w =
    match m w with
    | (w1, Ret a) => f a w1
    | (w1, Raise e) => (w1, Raise e)
    | (w1, NoDraw) => (w1, NoDraw)
    end.
Proof. reflexivity. Qed.

Lemma read_cell_run r c (w : World) :
  read_cell r c w =
    (w, match get_cell (field_data w) r c with
        | Some p => Ret p
        | None => Raise IndexError
        end).
Proof.
  unfold read_cell. rewrite bind_run. unfold get_field, indexed.
  by destruct (get_cell (field_data w) r c).
Qed.

Lemma read_data_run r c (w : World) :
  read_data r c w =
    (w, match data_at (field_data w) r c with
        | Some s => Ret s
        | None => Raise IndexError
        end).
Proof.
  unfold read_data, data_at. rewrite bind_run, read_cell_run.
  by destruct (get_cell (field_data w) r c).
Qed.

Lemma modify_cell_run f r c (w : World) :
  modify_cell f r c w =
    match upd_cell f (field_data w) r c with
    | Some g' => (mkWorld g' (tape w), Ret tt)
    | None => (w, Raise IndexError)
    end.
Proof.
  unfold modify_cell. rewrite bind_run. unfold get_field.
  rewrite bind_run. unfold indexed.
  by destruct (upd_cell f (field_data w) r c).
Qed.

Lemma read_row_run r (w : World) :
  read_row r w =
    (w, match getitem (field_data w) r with
        | Some row => Ret row
        | None => Raise IndexError
        end).
Proof.
  unfold read_row. rewrite bind_run. unfold get_field, indexed.
  by destruct (getitem (field_data w) r).
Qed.

Lemma write_row_run r row (w : World) :
  write_row r row w =
    match setitem (field_data w) r row with
    | Some g' => (mkWorld g' (tape w), Ret tt)
    | None => (w, Raise IndexError)
    end.
Proof.
  unfold write_row. rewrite bind_run. unfold get_field.
  rewrite bind_run. unfold indexed.
  by destruct (setitem (field_data w) r row).
Qed.

Lemma randint_run a b (w : World) :
  randint a b w =
    match tape w with
    | [] => (w, NoDraw)
    | n :: t => (mkWorld (field_data w) t, Ret (a + n `mod` (b - a + 1)))
    end.
Proof.
  unfold randint. rewrite bind_run. unfold draw. by destruct (tape w).
Qed.

Lemma randint_range a b n : a <= b → a <= a + n `mod` (b - a + 1) <= b.
Proof. intros. pose proof (Z.mod_pos_bound n (b - a + 1)). lia. Qed.

(** ** [is_game_over] *)

Lemma any_cat_pure positions (w w' : World) (r : res bool) :
  any_cat positions w = (w', r) → w' = w.
Proof.
  induction positions as [|[x y] rest IH]; simpl; intros H.
  - by inversion H.
  - rewrite bind_run, read_data_run in H.
    destruct (data_at (field_data w) x y) as [s|]; [|by inversion H].
    case_bool_decide; [by inversion H|auto].
Qed.

Lemma any_cat_spec positions (w : World) :
  well_formed (field_data w) →
  Forall (λ p, in_bounds p.1 ∧ in_bounds p.2) positions →
  ∃ b, any_cat positions w = (w, Ret b) ∧
       (b = true ↔
        ∃ x y, (x, y) ∈ positions
               ∧ data_at (field_data w) x y = Some CAT_SYMBOL).
Proof.
  intros Hw. induction 1 as [|[x y] rest [Hx Hy] _ IH]; simpl.
  - exists false. split; [done|]. split; [done|].
    intros (? & ? & Hin & _). by apply elem_of_nil in Hin.
  - simpl in Hx, Hy. rewrite bind_run, read_data_run. unfold data_at at 1.
    destruct (grid_cell_Some _ _ _ Hw Hx Hy) as (row & p & _ & _ & Hp).
    rewrite Hp. simpl. case_bool_decide as Hs.
    + exists true. split; [done|]. split; [|done]. intros _.
      exists x, y. split; [left|]. unfold data_at. by rewrite Hp, <- Hs.
    + destruct IH as (b & Hrun & Hb). exists b. split; [done|].
      rewrite Hb. split.
      * intros (x' & y' & Hin & Hd). exists x', y'. split; [by right|done].
      * intros (x' & y' & Hin & Hd). exists x', y'. split; [|done].
        apply elem_of_cons in Hin as [Heq|Hin]; [|done].
        simplify_eq. unfold data_at in Hd. rewrite Hp in Hd.
        simpl in Hd. congruence.
Qed.

Lemma adjacent_positions x y :
  (x, y) ∈ POSITIONS_TO_CHECK_CATS ↔
  Z.abs (x - MIDDLE_POS) + Z.abs (y - MIDDLE_POS) = 1.
Proof.
  unfold POSITIONS_TO_CHECK_CATS.
  change MIDDLE_POS with 2. rewrite !elem_of_cons, elem_of_nil.
  split.
  - intros [H|[H|[H|[H|[]]]]]; simplify_eq; lia.
  - intros H.
    assert (x = 2 ∧ y = 1 ∨ x = 2 ∧ y = 3 ∨ x = 1 ∧ y = 2 ∨ x = 3 ∧ y = 2)
      as [[-> ->]|[[-> ->]|[[-> ->]|[-> ->]]]] by lia; auto.
Qed.

Lemma is_game_over_total (w : World) :
  well_formed (field_data w) → ∃ b, is_game_over w = (w, Ret b).
Proof.
  intros Hw. unfold is_game_over.
  destruct (any_cat_spec POSITIONS_TO_CHECK_CATS w Hw) as (b & Hrun & _);
    [|by exists b].
  unfold POSITIONS_TO_CHECK_CATS, in_bounds. constants.
  repeat constructor; simpl; lia.
Qed.

(** C7. [is_game_over] returns [True] exactly when one of the four cells
    orthogonally adjacent to the centre holds a cat, [False] for every other
    board (a cat two steps away included), and leaves the board and the
    rest of the world as they were. *)
Theorem is_game_over_iff_adjacent_cat (w : World) :
  well_formed (field_data w) →
  ∃ b, is_game_over w = (w, Ret b) ∧
       (b = true ↔
        ∃ x y, Z.abs (x - MIDDLE_POS) + Z.abs (y - MIDDLE_POS) = 1
               ∧ data_at (field_data w) x y = Some CAT_SYMBOL).
Proof.
  intros Hw. unfold is_game_over.
  destruct (any_cat_spec POSITIONS_TO_CHECK_CATS w Hw) as (b & Hrun & Hb).
  { unfold POSITIONS_TO_CHECK_CATS, in_bounds. change MIDDLE_POS with 2.
    change FIELD_SIZE with 5. repeat constructor; simpl; lia. }
  exists b. split; [done|]. rewrite Hb.
  split; intros (x & y & H & Hd); exists x, y; split; try done;
    by apply adjacent_positions.
Qed.

(** A concrete board has its shape. *)
Ltac concrete_grid_ok :=
  split; [reflexivity|];
  repeat first [apply Forall_nil_2 | apply Forall_cons_2 | split
               | reflexivity | exact I].

Lemma is_game_over_iff_adjacent_cat_witness :
  well_formed (field_data game_3) ∧
  ∃ b, is_game_over game_3 = (game_3, Ret b) ∧
       (b = true ↔
        ∃ x y, Z.abs (x - MIDDLE_POS) + Z.abs (y - MIDDLE_POS) = 1
               ∧ data_at (field_data game_3) x y = Some CAT_SYMBOL).
Proof.
  assert (H : well_formed (field_data game_3)) by concrete_grid_ok.
  split; [exact H|]. exact (is_game_over_iff_adjacent_cat game_3 H).
Defined.

(** ** [move_player] *)

Lemma DIRECTIONS_None (direction : string) :
  direction ∉ ["left"; "right"; "up"; "down"] →
  DIRECTIONS !! direction = None.
Proof.
  intros Hd. rewrite !not_elem_of_cons in Hd.
  destruct Hd as (? & ? & ? & ? & _). unfold DIRECTIONS.
  rewrite !lookup_insert_ne by done. apply lookup_empty.
Qed.

(** C9. For every string that is not one of the four direction tokens,
    [move_player] raises [ValueError] and the world in which it raises is
    the world it was called in: nothing was written before the error. *)
Theorem move_player_invalid_direction (direction : string) (w : World) :
  direction ∉ ["left"; "right"; "up"; "down"] →
  move_player direction w = (w, Raise ValueError).
Proof.
  intros Hd. unfold move_player.
  rewrite bool_decide_eq_true_2; [done|]. by apply DIRECTIONS_None.
Qed.

Lemma move_player_invalid_direction_witness :
  ("north" ∉ ["left"; "right"; "up"; "down"]) ∧
  (move_player "north" game_0 = (game_0, Raise ValueError)).
Proof.
  assert (H : "north" ∉ ["left"; "right"; "up"; "down"]).
  { rewrite !not_elem_of_cons. split_and!; try discriminate.
    apply not_elem_of_nil. }
  split; [exact H|]. exact (move_player_invalid_direction "north" game_0 H).
Defined.

Lemma adjacent_to_centre_Some direction x y :
  adjacent_to_centre direction = Some (x, y) →
  direction ∈ ["left"; "right"; "up"; "down"].
Proof.
  unfold adjacent_to_centre. intros H.
  destruct (String.eqb_spec direction "left") as [->|_]; [set_solver|].
  destruct (String.eqb_spec direction "right") as [->|_]; [set_solver|].
  destruct (String.eqb_spec direction "up") as [->|_]; [set_solver|].
  destruct (String.eqb_spec direction "down") as [->|_]; [set_solver|].
  done.
Qed.

Lemma move_player_blocked direction x y s (w : World) :
  adjacent_to_centre direction = Some (x, y) →
  data_at (field_data w) x y = Some s →
  s ≠ EMPTY_SYMBOL →
  move_player direction w = (w, Ret tt).
Proof.
  intros Hadj Hd Hs.
  pose proof (adjacent_to_centre_Some _ _ _ Hadj) as Hin.
  rewrite !elem_of_cons, elem_of_nil in Hin.
  destruct Hin as [->|[->|[->|[->|[]]]]]; vm_compute in Hadj; simplify_eq;
    unfold move_player; rewrite bool_decide_eq_false_2 by done; simpl.
    all: constants; rewrite bind_run, read_data_run, Hd;
    by rewrite bool_decide_eq_false_2.
Qed.

(** The turn branch of [proceed_message], for the four commands. *)
Lemma proceed_message_turn (direction : string) :
  direction ∈ ["left"; "right"; "up"; "down"] →
  proceed_message ("/" +:+ direction) =
    (move_player direction;;
     proceed_cats_turn;;
     generate_cats 1;;
     over ← is_game_over;
     g ← get_field;
     if (over : bool) then ret (GAME_OVER_MESSAGE (render g))
     else ret (GOOD_JOB_MESSAGE (render g))).
Proof.
  rewrite !elem_of_cons, elem_of_nil.
  by intros [->|[->|[->|[->|[]]]]].
Qed.

(** C3, as the code has it.  When the cell next to the centre in the
    direction of travel is not empty, [move_player] changes nothing: the
    world after it is the world before it.  The turn of [proceed_message]
    then goes on as in any other turn, with the cats' moves and the new cat,
    and answers with one of its two usual messages. *)
Theorem blocked_move_changes_nothing direction x y s (w : World) :
  adjacent_to_centre direction = Some (x, y) →
  data_at (field_data w) x y = Some s →
  s ≠ EMPTY_SYMBOL →
  move_player direction w = (w, Ret tt) ∧
  proceed_message ("/" +:+ direction) w =
    (proceed_cats_turn;;
     generate_cats 1;;
     over ← is_game_over;
     g ← get_field;
     if (over : bool) then ret (GAME_OVER_MESSAGE (render g))
     else ret (GOOD_JOB_MESSAGE (render g))) w.
Proof.
  intros Hadj Hd Hs.
  pose proof (move_player_blocked _ _ _ _ w Hadj Hd Hs) as Hmove.
  split; [done|].
  rewrite proceed_message_turn
    by (by eapply adjacent_to_centre_Some).
  by rewrite bind_run, Hmove.
Qed.

Lemma blocked_move_changes_nothing_witness :
  adjacent_to_centre "right" = Some (2, 3) ∧
  data_at (field_data game_3) 2 3 = Some OBSTACLE_SYMBOL ∧
  OBSTACLE_SYMBOL ≠ EMPTY_SYMBOL ∧
  move_player "right" game_3 = (game_3, Ret tt) ∧
  proceed_message ("/" +:+ "right") game_3 =
    (proceed_cats_turn;;
     generate_cats 1;;
     over ← is_game_over;
     g ← get_field;
     if (over : bool) then ret (GAME_OVER_MESSAGE (render g))
     else ret (GOOD_JOB_MESSAGE (render g))) game_3.
Proof.
  assert (H1 : adjacent_to_centre "right" = Some (2, 3)) by reflexivity.
  assert (H2 : data_at (field_data game_3) 2 3 = Some OBSTACLE_SYMBOL)
    by reflexivity.
  assert (H3 : OBSTACLE_SYMBOL ≠ EMPTY_SYMBOL) by discriminate.
  split; [exact H1|]. split; [exact H2|]. split; [exact H3|].
  exact (blocked_move_changes_nothing "right" 2 3 OBSTACLE_SYMBOL game_3
           H1 H2 H3).
Defined.

(** C3, as the specification has it, fails: in [game_3] the cell to the
    right of the player holds an obstacle, and the turn ["/right"] moves the
    cat of (2,4), puts a new cat on (0,0) and answers with the message of a
    turn that went well, on a board that is not the one before the turn. *)
Lemma blocked_turn_changes_board :
  adjacent_to_centre "right" = Some (2, 3) ∧
  data_at (field_data game_3) 2 3 = Some OBSTACLE_SYMBOL ∧
  let out := proceed_message "/right" (with_tape [0; 0] game_3) in
  field_data out.1 ≠ field_data game_3 ∧
  data_at (field_data game_3) 2 4 = Some CAT_SYMBOL ∧
  data_at (field_data out.1) 2 4 = Some EMPTY_SYMBOL ∧
  data_at (field_data out.1) 0 0 = Some CAT_SYMBOL ∧
  out.2 = Ret (GOOD_JOB_MESSAGE (render (field_data out.1))) ∧
  render (field_data out.1) ≠ render (field_data game_3).
Proof.
  split; [reflexivity|]. split; [reflexivity|].
  vm_compute. split_and!; try reflexivity; intros H; discriminate H.
Qed.

(** ** Computations that keep a property of the board *)

Lemma preserves_ret {A} P (a : A) : preserves P (ret a).
Proof. intros w w' r HP H. unfold ret in H. by simplify_eq. Qed.

Lemma preserves_raise {A} P e : preserves P (@raise A e).
Proof. intros w w' r HP H. unfold raise in H. by simplify_eq. Qed.

Lemma preserves_bind_returns {A B} P (Q : A → Prop) (m : M A) (f : A → M B) :
  preserves P m → returns P m Q → (∀ a, Q a → preserves P (f a)) →
  preserves P (m ≫= f).
Proof.
  intros Hm HQ Hf w w' r HP H. rewrite bind_run in H.
  destruct (m w) as [w1 [a|e|]] eqn:Hmw.
  - eapply Hf; [|eapply Hm; eauto|exact H]. eapply HQ; eauto.
  - simplify_eq. eapply Hm; eauto.
  - simplify_eq. eapply Hm; eauto.
Qed.

Lemma preserves_bind {A B} P (m : M A) (f : A → M B) :
  preserves P m → (∀ a, preserves P (f a)) → preserves P (m ≫= f).
Proof.
  intros Hm Hf.
  apply (preserves_bind_returns P (λ _, True)); [done| |auto]. by intros ?.
Qed.

Lemma preserves_for_each {A} P (l : list A) (body : A → M unit) :
  (∀ a, a ∈ l → preserves P (body a)) → preserves P (for_each l body).
Proof.
  induction l as [|a l IH]; simpl; intros Hbody.
  - apply preserves_ret.
  - apply preserves_bind.
    + apply Hbody. left.
    + intros _. apply IH. intros b Hb. apply Hbody. by right.
Qed.

Lemma preserves_if {A} P (b : bool) (m1 m2 : M A) :
  preserves P m1 → preserves P m2 → preserves P (if b then m1 else m2).
Proof. by destruct b. Qed.

Lemma preserves_indexed {A} P (o : option A) : preserves P (indexed o).
Proof.
  destruct o; simpl; [apply preserves_ret|apply (preserves_raise P)].
Qed.

Lemma preserves_get_field P : preserves P get_field.
Proof. intros w w' r HP H. unfold get_field in H. by simplify_eq. Qed.

Lemma preserves_read_cell P r c : preserves P (read_cell r c).
Proof. intros w w' res HP H. rewrite read_cell_run in H. by simplify_eq. Qed.

Lemma preserves_read_data P r c : preserves P (read_data r c).
Proof. intros w w' res HP H. rewrite read_data_run in H. by simplify_eq. Qed.

Lemma preserves_read_row P r : preserves P (read_row r).
Proof. intros w w' res HP H. rewrite read_row_run in H. by simplify_eq. Qed.

Lemma preserves_draw P : preserves P draw.
Proof.
  intros w w' r HP H. unfold draw in H.
  destruct (tape w); by simplify_eq.
Qed.

Lemma preserves_randint P a b : preserves P (randint a b).
Proof.
  apply preserves_bind; [apply preserves_draw|]. intros n. apply preserves_ret.
Qed.

Lemma preserves_choice_index {A} P (l : list A) : preserves P (choice_index l).
Proof.
  apply preserves_bind; [apply preserves_draw|]. intros n.
  apply preserves_if; [apply (preserves_raise P)|apply preserves_ret].
Qed.

Lemma preserves_choice {A} P (l : list A) : preserves P (choice l).
Proof.
  apply preserves_bind; [apply preserves_choice_index|]. intros i.
  apply preserves_indexed.
Qed.

Section grid_ok.
Context (φ : Position.t → Prop).

Lemma returns_read_row r :
  returns (grid_ok φ) (read_row r)
    (λ row, length row = Z.to_nat FIELD_SIZE ∧ Forall φ row).
Proof.
  intros w w' row Hg H. rewrite read_row_run in H.
  destruct (getitem (field_data w) r) eqn:Hr; simplify_eq.
  by eapply grid_ok_row.
Qed.

Lemma preserves_write_row r row :
  length row = Z.to_nat FIELD_SIZE → Forall φ row →
  preserves (grid_ok φ) (write_row r row).
Proof.
  intros Hlen Hrow w w' res Hg H. rewrite write_row_run in H.
  destruct (setitem (field_data w) r row) eqn:Hs; simplify_eq; [|done].
  simpl. by eapply grid_ok_setitem.
Qed.

Lemma preserves_modify_cell f r c :
  (∀ p, φ p → φ (f p)) → preserves (grid_ok φ) (modify_cell f r c).
Proof.
  intros Hf w w' res Hg H. rewrite modify_cell_run in H.
  destruct (upd_cell f (field_data w) r c) eqn:Hu; simplify_eq; [|done].
  simpl. eapply grid_ok_upd; eauto.
  intros p Hp. apply Hf. by eapply grid_ok_cell.
Qed.

Lemma preserves_modify_alias f r r' c :
  (∀ p, φ p → φ (f p)) → preserves (grid_ok φ) (modify_alias f r r' c).
Proof.
  intros Hf. apply preserves_bind; [by apply preserves_modify_cell|].
  intros _. by apply preserves_modify_cell.
Qed.

Lemma preserves_write_data r c s :
  (∀ p, φ p → φ (Position.set_data s p)) →
  preserves (grid_ok φ) (write_data r c s).
Proof. apply preserves_modify_cell. Qed.
End grid_ok.

Lemma bind_Ret_inv {A B} (m : M A) (f : A → M B) (w w' : World) (b : B) :
  (m ≫= f) w = (w', Ret b) →
  ∃ a w1, m w = (w1, Ret a) ∧ f a w1 = (w', Ret b).
Proof.
  rewrite bind_run. destruct (m w) as [w1 [a|e|]]; [eauto|done..].
Qed.

(** ** The shift of the board keeps its shape *)

Section shift.
Context (φ : Position.t → Prop).
Hypothesis φ_empty : ∀ i j, φ (Position.mk i j EMPTY_SYMBOL).
Hypothesis φ_obstacle : ∀ p, φ p → φ (Position.set_data OBSTACLE_SYMBOL p).
Hypothesis φ_add_x : ∀ d p, φ p → φ (Position.add_x d p).
Hypothesis φ_add_y : ∀ d p, φ p → φ (Position.add_y d p).

Lemma generate_row_obstacles_row n result (w w' : World) row :
  length result = Z.to_nat FIELD_SIZE → Forall φ result →
  generate_row_obstacles n result w = (w', Ret row) →
  length row = Z.to_nat FIELD_SIZE ∧ Forall φ row.
Proof.
  revert result w. induction n as [|n IH]; simpl; intros result w Hl Hr H.
  - unfold ret in H. by simplify_eq.
  - apply bind_Ret_inv in H as (i & w1 & _ & H).
    apply bind_Ret_inv in H as (p & w2 & Hp & H).
    apply bind_Ret_inv in H as (result' & w3 & Hres & H).
    destruct (getitem result i) as [p'|] eqn:Hgi; simpl in Hp;
      [|unfold raise in Hp; simplify_eq].
    unfold ret in Hp. simplify_eq.
    destruct (setitem result i (Position.set_data OBSTACLE_SYMBOL p))
      as [res'|] eqn:Hsi; simpl in Hres;
      [|unfold raise in Hres; simplify_eq].
    unfold ret in Hres. simplify_eq.
    eapply IH; [| |exact H].
    + by rewrite (setitem_length _ _ _ _ Hsi).
    + eapply setitem_Forall; eauto. apply φ_obstacle.
      by eapply getitem_Forall.
Qed.

Lemma preserves_generate_row_obstacles P n result :
  preserves P (generate_row_obstacles n result).
Proof.
  revert result. induction n as [|n IH]; simpl; intros result.
  - apply preserves_ret.
  - apply preserves_bind; [apply preserves_choice_index|]. intros i.
    apply preserves_bind; [apply preserves_indexed|]. intros p.
    apply preserves_bind; [apply preserves_indexed|]. intros result'.
    apply IH.
Qed.

Lemma returns_generate_row P row_index :
  returns P (generate_row row_index)
    (λ row, length row = Z.to_nat FIELD_SIZE ∧ Forall φ row).
Proof.
  intros w w' row _ H. unfold generate_row in H.
  eapply generate_row_obstacles_row; [| |exact H].
  - by rewrite length_fmap.
  - apply Forall_fmap, Forall_true. intros col. apply φ_empty.
Qed.

Lemma preserves_move_objects_match direction :
  preserves (grid_ok φ) (move_objects_match direction).
Proof.
  unfold move_objects_match.
  repeat apply preserves_if.
  - apply preserves_bind.
    + apply preserves_for_each. intros row _.
      eapply preserves_bind_returns;
        [apply preserves_read_row|apply returns_read_row|].
      intros old [Hlen Hold]. apply preserves_bind.
      * apply preserves_write_row.
        -- rewrite length_app, length_drop, Hlen. reflexivity.
        -- apply Forall_app. split; [by apply Forall_drop|].
           apply Forall_singleton, φ_empty.
      * intros _. apply preserves_for_each. intros col _.
        apply preserves_modify_cell. apply φ_add_y.
    + intros _. apply preserves_for_each. intros _ _.
      apply preserves_bind; [apply preserves_randint|]. intros random_row.
      apply preserves_write_data, φ_obstacle.
  - apply preserves_bind.
    + apply preserves_for_each. intros row _.
      eapply preserves_bind_returns;
        [apply preserves_read_row|apply returns_read_row|].
      intros old [Hlen Hold]. apply preserves_bind.
      * apply preserves_write_row.
        -- rewrite length_app, length_take, Hlen. reflexivity.
        -- apply Forall_app. split; [|by apply Forall_take].
           apply Forall_singleton, φ_empty.
      * intros _. apply preserves_for_each. intros col _.
        apply preserves_modify_cell. apply φ_add_y.
    + intros _. apply preserves_for_each. intros _ _.
      apply preserves_bind; [apply preserves_randint|]. intros random_row.
      apply preserves_write_data, φ_obstacle.
  - apply preserves_bind.
    + apply preserves_for_each. intros row _.
      eapply preserves_bind_returns;
        [apply preserves_read_row|apply returns_read_row|].
      intros next [Hlen Hnext]. apply preserves_bind.
      * by apply preserves_write_row.
      * intros _. apply preserves_for_each. intros col _.
        apply preserves_modify_alias, φ_add_x.
    + intros _. eapply preserves_bind_returns;
        [apply preserves_generate_row_obstacles
        |apply returns_generate_row|].
      intros new_row [? ?]. by apply preserves_write_row.
  - apply preserves_bind.
    + apply preserves_for_each. intros row _.
      eapply preserves_bind_returns;
        [apply preserves_read_row|apply returns_read_row|].
      intros prev [Hlen Hprev]. apply preserves_bind.
      * by apply preserves_write_row.
      * intros _. apply preserves_for_each. intros col _.
        apply preserves_modify_alias, φ_add_x.
    + intros _. eapply preserves_bind_returns;
        [apply preserves_generate_row_obstacles
        |apply returns_generate_row|].
      intros new_row [? ?]. by apply preserves_write_row.
  - apply preserves_ret.
Qed.
End shift.

(** ** [move_cat] *)

Lemma well_formed_upd f (g g' : Grid) r c :
  well_formed g → upd_cell f g r c = Some g' → well_formed g'.
Proof. intros Hw Hupd. by eapply grid_ok_upd. Qed.

Lemma move_cat_check_spec (w : World) centre r c cur position :
  well_formed (field_data w) →
  get_cell (field_data w) MIDDLE_POS MIDDLE_POS = Some centre →
  candidate (field_data w) centre r c cur →
  ∃ cur', move_cat_check cur position w = (w, Ret cur')
          ∧ candidate (field_data w) centre r c cur'.
Proof.
  intros Hw Hcentre Hcur. destruct cur as [d pos], position as [x y].
  unfold move_cat_check. case_bool_decide as Hout; [by exists (d, pos)|].
  assert (in_bounds x ∧ in_bounds y) as [Hx Hy]
    by (unfold in_bounds; lia).
  destruct (grid_cell_Some _ _ _ Hw Hx Hy) as (row & p & _ & _ & Hp).
  rewrite bind_run, read_data_run. unfold data_at at 1. rewrite Hp. simpl.
  case_bool_decide as Hs; [by exists (d, pos)|].
  rewrite bind_run, read_cell_run, Hcentre.
  case_bool_decide as Hlt; [|by exists (d, pos)].
  eexists. split; [done|]. split_and!; simpl; [done..|]. right.
  split; [unfold data_at; by rewrite Hp, <- Hs|].
  destruct Hcur as (_ & _ & Hd & Hdest). simpl in Hd, Hdest.
  destruct Hdest as [->|[_ ?]]; lia.
Qed.

Lemma move_cat_scan_spec (w : World) centre r c positions cur :
  well_formed (field_data w) →
  get_cell (field_data w) MIDDLE_POS MIDDLE_POS = Some centre →
  candidate (field_data w) centre r c cur →
  ∃ cur', move_cat_scan positions cur w = (w, Ret cur')
          ∧ candidate (field_data w) centre r c cur'.
Proof.
  intros Hw Hcentre. revert cur.
  induction positions as [|position rest IH]; simpl; intros cur Hcur.
  - by exists cur.
  - destruct (move_cat_check_spec w centre r c cur position Hw Hcentre Hcur)
      as (cur1 & Hrun & Hcur1).
    rewrite bind_run, Hrun. by apply IH.
Qed.

Lemma in_bounds_MIDDLE_POS : in_bounds MIDDLE_POS.
Proof. unfold in_bounds. constants. lia. Qed.

Lemma move_cat_spec (w : World) r c :
  well_formed (field_data w) → in_bounds r → in_bounds c →
  ∃ centre x y g1 g2,
    get_cell (field_data w) MIDDLE_POS MIDDLE_POS = Some centre ∧
    in_bounds x ∧ in_bounds y ∧
    ((x, y) = (r, c) ∨
     (data_at (field_data w) x y = Some EMPTY_SYMBOL
      ∧ Position.manhattan centre (x, y) < Position.manhattan centre (r, c)))
    ∧ move_cat_scan [(r, c - 1); (r, c + 1); (r - 1, c); (r + 1, c)]
        (Position.manhattan centre (r, c), (r, c)) w
      = (w, Ret (Position.manhattan centre (x, y), (x, y)))
    ∧ upd_cell (Position.set_data EMPTY_SYMBOL) (field_data w) r c = Some g1
    ∧ upd_cell (Position.set_data CAT_SYMBOL) g1 x y = Some g2
    ∧ move_cat r c w = (mkWorld g2 (tape w), Ret tt).
Proof.
  intros Hw Hr Hc.
  destruct (grid_cell_Some _ _ _ Hw in_bounds_MIDDLE_POS in_bounds_MIDDLE_POS)
    as (row & centre & _ & _ & Hcentre).
  set (d0 := Position.manhattan centre (r, c)).
  assert (Hcand : candidate (field_data w) centre r c (d0, (r, c))).
  { split_and!; simpl; [done..|by left]. }
  destruct (move_cat_scan_spec w centre r c
              [(r, c - 1); (r, c + 1); (r - 1, c); (r + 1, c)]
              (d0, (r, c)) Hw Hcentre Hcand)
    as ([d [x y]] & Hscan & Hx & Hy & Hd & Hdest).
  simpl in Hx, Hy, Hd, Hdest.
  destruct (upd_cell_Some (Position.set_data EMPTY_SYMBOL) _ _ _ Hw Hr Hc)
    as [g1 Hg1].
  assert (Hw1 : well_formed g1) by by eapply well_formed_upd.
  destruct (upd_cell_Some (Position.set_data CAT_SYMBOL) _ _ _ Hw1 Hx Hy)
    as [g2 Hg2].
  exists centre, x, y, g1, g2. split_and!; try done.
  - destruct Hdest as [?|[? ?]]; [by left|right]. split; [done|].
    fold d0. lia.
  - fold d0. by rewrite <- Hd.
  - unfold move_cat. rewrite bind_run, read_cell_run, Hcentre.
    simpl drop. fold d0. rewrite bind_run, Hscan.
    rewrite bind_run. unfold write_data. rewrite modify_cell_run, Hg1.
    rewrite modify_cell_run. simpl. by rewrite Hg2.
Qed.

Lemma data_at_upd f (g g' : Grid) r c r' c' :
  well_formed g → in_bounds r → in_bounds c →
  in_bounds r' → in_bounds c' →
  upd_cell f g r c = Some g' →
  data_at g' r' c' =
    if bool_decide (r' = r ∧ c' = c)
    then Position.data <$> (f <$> get_cell g r c)
    else data_at g r' c'.
Proof.
  intros. unfold data_at. rewrite (get_cell_upd f g g' r c r' c') by done.
  by case_bool_decide.
Qed.

Lemma data_at_set_data s (g g' : Grid) r c r' c' :
  well_formed g → in_bounds r → in_bounds c →
  in_bounds r' → in_bounds c' →
  upd_cell (Position.set_data s) g r c = Some g' →
  data_at g' r' c' =
    if bool_decide (r' = r ∧ c' = c) then Some s else data_at g r' c'.
Proof.
  intros Hw Hr Hc Hr' Hc' Hupd.
  rewrite (data_at_upd _ g g' r c r' c') by done.
  case_bool_decide; [|done].
  destruct (grid_cell_Some _ _ _ Hw Hr Hc) as (? & p & _ & _ & ->). done.
Qed.

(** Where [move_cat] leaves each symbol. *)
Lemma move_cat_data (w : World) r c :
  well_formed (field_data w) → in_bounds r → in_bounds c →
  ∃ centre x y w',
    get_cell (field_data w) MIDDLE_POS MIDDLE_POS = Some centre ∧
    move_cat r c w = (w', Ret tt) ∧ tape w' = tape w ∧
    well_formed (field_data w') ∧
    in_bounds x ∧ in_bounds y ∧
    ((x, y) = (r, c) ∨
     (data_at (field_data w) x y = Some EMPTY_SYMBOL
      ∧ Position.manhattan centre (x, y) < Position.manhattan centre (r, c)))
    ∧ ∀ r' c', in_bounds r' → in_bounds c' →
        data_at (field_data w') r' c' =
          if bool_decide (r' = x ∧ c' = y) then Some CAT_SYMBOL
          else if bool_decide (r' = r ∧ c' = c) then Some EMPTY_SYMBOL
          else data_at (field_data w) r' c'.
Proof.
  intros Hw Hr Hc.
  destruct (move_cat_spec w r c Hw Hr Hc)
    as (centre & x & y & g1 & g2 & Hcentre & Hx & Hy & Hdest & _ & Hg1
        & Hg2 & Hrun).
  assert (Hw1 : well_formed g1) by by eapply well_formed_upd.
  exists centre, x, y, (mkWorld g2 (tape w)).
  split_and!; try done.
  - simpl. by eapply well_formed_upd.
  - intros r' c' Hr' Hc'. simpl.
    rewrite (data_at_set_data _ _ _ _ _ _ _ Hw1 Hx Hy Hr' Hc' Hg2).
    case_bool_decide; [done|].
    by rewrite (data_at_set_data _ _ _ _ _ _ _ Hw Hr Hc Hr' Hc' Hg1).
Qed.


(** ** Every method keeps the shape of the board *)

Lemma well_formed_modify_cell f r c : preserves well_formed (modify_cell f r c).
Proof. by apply preserves_modify_cell. Qed.

Lemma preserves_move_cat_check P cur position :
  preserves P (move_cat_check cur position).
Proof.
  destruct cur as [d pos], position as [x y]. unfold move_cat_check.
  apply preserves_if; [apply preserves_ret|].
  apply preserves_bind; [apply preserves_read_data|]. intros s.
  apply preserves_if; [apply preserves_ret|].
  apply preserves_bind; [apply preserves_read_cell|]. intros centre.
  apply preserves_if; apply preserves_ret.
Qed.

Lemma preserves_move_cat_scan P positions cur :
  preserves P (move_cat_scan positions cur).
Proof.
  revert cur. induction positions as [|position rest IH]; simpl; intros cur.
  - apply preserves_ret.
  - apply preserves_bind; [apply preserves_move_cat_check|auto].
Qed.

Lemma well_formed_move_cat r c : preserves well_formed (move_cat r c).
Proof.
  unfold move_cat.
  apply preserves_bind; [apply preserves_read_cell|]. intros centre.
  apply preserves_bind; [apply preserves_move_cat_scan|]. intros cur.
  apply preserves_bind; [apply well_formed_modify_cell|]. intros _.
  apply well_formed_modify_cell.
Qed.

Lemma preserves_any_cat P positions : preserves P (any_cat positions).
Proof.
  induction positions as [|[x y] rest IH]; simpl.
  - apply preserves_ret.
  - apply preserves_bind; [apply preserves_read_data|]. intros s.
    apply preserves_if; [apply preserves_ret|done].
Qed.

Lemma well_formed_cats_in_row row cols :
  preserves well_formed (cats_in_row row cols).
Proof.
  induction cols as [|col cols IH]; simpl.
  - apply preserves_ret.
  - apply preserves_bind; [apply preserves_read_data|]. intros s.
    apply preserves_if; [|done].
    apply preserves_bind; [apply well_formed_move_cat|]. intros _.
    apply preserves_bind; [apply preserves_any_cat|]. intros over.
    apply preserves_if; [apply preserves_ret|done].
Qed.

Lemma well_formed_cats_in_rows rows :
  preserves well_formed (cats_in_rows rows).
Proof.
  induction rows as [|row rows IH]; simpl.
  - apply preserves_ret.
  - apply preserves_bind; [apply well_formed_cats_in_row|]. intros returned.
    apply preserves_if; [apply preserves_ret|done].
Qed.

Lemma well_formed_proceed_cats_turn : preserves well_formed proceed_cats_turn.
Proof. apply well_formed_cats_in_rows. Qed.

Lemma well_formed_move_objects direction :
  preserves well_formed (move_objects direction).
Proof.
  unfold move_objects.
  apply preserves_bind; [apply well_formed_modify_cell|]. intros _.
  apply preserves_bind; [by apply preserves_move_objects_match|]. intros _.
  apply well_formed_modify_cell.
Qed.

Lemma well_formed_move_player direction :
  preserves well_formed (move_player direction).
Proof.
  unfold move_player.
  apply preserves_if; [apply (preserves_raise well_formed)|].
  assert (Hgo : ∀ r c,
    preserves well_formed
      (read_data r c ≫= λ s,
         if bool_decide (s = EMPTY_SYMBOL)
         then DIRECTIONS_getitem direction ≫= λ opposite,
                move_objects opposite
         else ret tt)).
  { intros r c. apply preserves_bind; [apply preserves_read_data|].
    intros s. apply preserves_if; [|apply preserves_ret].
    apply preserves_bind; [|intros; apply well_formed_move_objects].
    unfold DIRECTIONS_getitem. destruct (DIRECTIONS !! direction);
      [apply preserves_ret|apply (preserves_raise well_formed)]. }
  repeat apply preserves_if; try apply Hgo. apply preserves_ret.
Qed.

(** ** Placements *)

Lemma placed_well_formed s allowed n (g g' : Grid) :
  placed s allowed n g g' → well_formed g → well_formed g'.
Proof.
  induction 1 as [|n g g1 g' x y ? ? ? ? Hupd _ IH]; [done|].
  intros Hw. apply IH. by eapply well_formed_upd.
Qed.

Lemma player_at_centre_write s0 s (g g' : Grid) x y :
  player_at_centre g → in_bounds x → in_bounds y →
  data_at g x y = Some s0 → s0 ≠ PLAYER_SYMBOL → s ≠ PLAYER_SYMBOL →
  upd_cell (Position.set_data s) g x y = Some g' →
  player_at_centre g'.
Proof.
  intros [Hw Hp] Hx Hy Hs0 Hne0 Hne Hupd. split.
  - by eapply well_formed_upd.
  - intros r c Hr Hc.
    rewrite (data_at_set_data _ _ _ _ _ _ _ Hw Hx Hy Hr Hc Hupd).
    case_bool_decide as Hxy; [|by apply Hp].
    destruct Hxy as [-> ->]. split; [congruence|].
    intros Hcentre. apply Hp in Hcentre; [congruence|done..].
Qed.

Lemma placed_player_at_centre s allowed n (g g' : Grid) :
  s ≠ PLAYER_SYMBOL →
  placed s allowed n g g' → player_at_centre g → player_at_centre g'.
Proof.
  intros Hs. induction 1 as [|n g g1 g' x y ? ? ? ? Hupd _ IH]; [done|].
  intros Hp. apply IH.
  by eapply (player_at_centre_write EMPTY_SYMBOL s g g1 x y).
Qed.

Lemma randint_inv a b (w w' : World) (r : res Z) :
  a <= b → randint a b w = (w', r) →
  field_data w' = field_data w ∧ ∀ v, r = Ret v → a <= v <= b.
Proof.
  intros Hab H. rewrite randint_run in H.
  destruct (tape w) as [|n t]; simplify_eq; [done|].
  split; [done|]. intros v [= <-]. by apply randint_range.
Qed.

Lemma choice_inv {A} (l : list A) (w w' : World) (r : res A) :
  choice l w = (w', r) →
  field_data w' = field_data w ∧ ∀ a, r = Ret a → a ∈ l.
Proof.
  unfold choice, choice_index. rewrite !bind_run. unfold draw.
  destruct (tape w) as [|n t]; [by intros [= <- <-]|].
  case_bool_decide.
  - unfold raise. by intros [= <- <-].
  - unfold ret, indexed.
    destruct (getitem l _) as [a|] eqn:Ha.
    + unfold ret. intros [= <- <-]. split; [done|]. intros ? [= <-].
      by eapply getitem_elem_of.
    + unfold raise. by intros [= <- <-].
Qed.

(** ** The two spawning loops *)

Lemma generate_cats_loop_placed fuel number k (w w' : World) (r : res unit) :
  well_formed (field_data w) →
  generate_cats_loop fuel number k w = (w', r) →
  ∃ n, placed CAT_SYMBOL on_edge n (field_data w) (field_data w') ∧
       (r = Ret tt → Z.of_nat n = Z.max 0 (number - k)).
Proof.
  revert k w. induction fuel as [|fuel IH]; intros k w Hw H; simpl in H;
    case_bool_decide as Hk;
    try (unfold ret in H; simplify_eq; exists 0%nat;
         split; [constructor|intros _; lia]).
  { simplify_eq. exists 0%nat. split; [constructor|done]. }
  rewrite bind_run in H.
  destruct (randint 0 (FIELD_SIZE - 1) w) as [w1 r1] eqn:Hrand.
  apply randint_inv in Hrand as [Hg1 Hv]; [|constants; lia].
  destruct r1 as [v| |]; simplify_eq;
    try (rewrite Hg1; exists 0%nat; split; [constructor|done]).
  specialize (Hv v eq_refl).
  rewrite bind_run in H.
  destruct (choice _ w1) as [w2 r2] eqn:Hchoice.
  apply choice_inv in Hchoice as [Hg2 Hin].
  destruct r2 as [[x y]| |]; simplify_eq;
    try (rewrite Hg2, Hg1; exists 0%nat; split; [constructor|done]).
  specialize (Hin _ eq_refl).
  assert (Hxy : in_bounds x ∧ in_bounds y ∧ on_edge x y).
  { unfold in_bounds, on_edge. constants.
    rewrite !elem_of_cons, elem_of_nil in Hin.
    destruct Hin as [?|[?|[?|[?|[]]]]]; simplify_eq; lia. }
  destruct Hxy as (Hx & Hy & Hedge).
  assert (Hw2 : well_formed (field_data w2)) by by rewrite Hg2, Hg1.
  rewrite <- Hg1, <- Hg2.
  rewrite bind_run, read_data_run in H.
  destruct (data_at (field_data w2) x y) as [s|] eqn:Hs; simplify_eq;
    [|exists 0%nat; split; [constructor|done]].
  case_bool_decide as Hse; [by apply IH|]. subst s.
  rewrite bind_run, read_cell_run in H.
  destruct (get_cell (field_data w2) MIDDLE_POS MIDDLE_POS) as [centre|];
    simplify_eq; [|exists 0%nat; split; [constructor|done]].
  case_bool_decide as Hnear; [by apply IH|].
  rewrite bind_run in H. unfold write_data in H.
  rewrite modify_cell_run in H.
  destruct (upd_cell _ (field_data w2) x y) as [g3|] eqn:Hupd; simplify_eq;
    [|exists 0%nat; split; [constructor|done]].
  apply IH in H as (n & Hplaced & Hn);
    [|by eapply well_formed_upd]. simpl in Hplaced.
  exists (S n). split; [by apply (placed_S _ _ n _ g3 _ x y)|].
  intros Hr. specialize (Hn Hr). lia.
Qed.

Lemma generate_obstacles_loop_placed fuel number k (w w' : World)
  (r : res unit) :
  well_formed (field_data w) →
  generate_obstacles_loop fuel number k w = (w', r) →
  ∃ n, placed OBSTACLE_SYMBOL anywhere n (field_data w) (field_data w') ∧
       (r = Ret tt → Z.of_nat n = Z.max 0 (number - k)).
Proof.
  revert k w. induction fuel as [|fuel IH]; intros k w Hw H; simpl in H;
    case_bool_decide as Hk;
    try (unfold ret in H; simplify_eq; exists 0%nat;
         split; [constructor|intros _; lia]).
  { simplify_eq. exists 0%nat. split; [constructor|done]. }
  rewrite bind_run in H.
  destruct (randint 0 (FIELD_SIZE - 1) w) as [w1 r1] eqn:Hrand.
  apply randint_inv in Hrand as [Hg1 Hx]; [|constants; lia].
  destruct r1 as [x| |]; simplify_eq;
    try (rewrite Hg1; exists 0%nat; split; [constructor|done]).
  specialize (Hx x eq_refl).
  rewrite bind_run in H.
  destruct (randint 0 (FIELD_SIZE - 1) w1) as [w2 r2] eqn:Hrand.
  apply randint_inv in Hrand as [Hg2 Hy]; [|constants; lia].
  destruct r2 as [y| |]; simplify_eq;
    try (rewrite Hg2, Hg1; exists 0%nat; split; [constructor|done]).
  specialize (Hy y eq_refl).
  assert (Hxy : in_bounds x ∧ in_bounds y).
  { unfold in_bounds. constants. lia. }
  destruct Hxy as [Hbx Hby].
  assert (Hw2 : well_formed (field_data w2)) by by rewrite Hg2, Hg1.
  rewrite <- Hg1, <- Hg2.
  rewrite bind_run, read_data_run in H.
  destruct (data_at (field_data w2) x y) as [s|] eqn:Hs; simplify_eq;
    [|exists 0%nat; split; [constructor|done]].
  case_bool_decide as Hse; [by apply IH|]. subst s.
  rewrite bind_run in H. unfold write_data in H.
  rewrite modify_cell_run in H.
  destruct (upd_cell _ (field_data w2) x y) as [g3|] eqn:Hupd; simplify_eq;
    [|exists 0%nat; split; [constructor|done]].
  apply IH in H as (n & Hplaced & Hn);
    [|by eapply well_formed_upd]. simpl in Hplaced.
  exists (S n). split; [by apply (placed_S _ _ n _ g3 _ x y)|].
  intros Hr. specialize (Hn Hr). lia.
Qed.

(** ** The player stays on the centre cell *)

Lemma generate_clear_player_at_centre :
  ∃ g, generate_clear = Some g ∧ player_at_centre g.
Proof.
  eexists. split; [reflexivity|]. split; [concrete_grid_ok|].
  intros r c Hr Hc. unfold in_bounds, FIELD_SIZE in Hr, Hc.
  assert (Hrs : r = 0 ∨ r = 1 ∨ r = 2 ∨ r = 3 ∨ r = 4) by lia.
  assert (Hcs : c = 0 ∨ c = 1 ∨ c = 2 ∨ c = 3 ∨ c = 4) by lia.
  destruct Hrs as [->|[->|[->|[->| ->]]]];
    destruct Hcs as [->|[->|[->|[->| ->]]]];
    vm_compute;
    (split; intros H;
     first [done | discriminate H
           | destruct H as [H1 H2];
             first [discriminate H1 | discriminate H2]]).
Qed.

Lemma player_at_centre_generate_cats number :
  preserves player_at_centre (generate_cats number).
Proof.
  intros w w' r Hp H. unfold generate_cats in H.
  pose proof Hp as [Hw _].
  apply generate_cats_loop_placed in H as (n & Hplaced & _); [|done].
  eapply placed_player_at_centre; [|exact Hplaced|exact Hp]. done.
Qed.

Lemma player_at_centre_generate_obstacles number :
  preserves player_at_centre (generate_obstacles number).
Proof.
  intros w w' r Hp H. unfold generate_obstacles in H.
  pose proof Hp as [Hw _].
  apply generate_obstacles_loop_placed in H as (n & Hplaced & _); [|done].
  eapply placed_player_at_centre; [|exact Hplaced|exact Hp]. done.
Qed.

Lemma GameField_init_player_at_centre (w w' : World) (r : res unit) :
  GameField_init w = (w', r) → player_at_centre (field_data w').
Proof.
  destruct generate_clear_player_at_centre as (g & Hg & Hp).
  unfold GameField_init. rewrite Hg.
  rewrite bind_run. unfold indexed at 1, ret at 1.
  rewrite bind_run. unfold put_field at 1.
  apply (preserves_bind player_at_centre); [| |done].
  - apply player_at_centre_generate_cats.
  - intros _. apply player_at_centre_generate_obstacles.
Qed.

Lemma player_at_centre_move_cat (w w' : World) (res : res unit) r c :
  player_at_centre (field_data w) → in_bounds r → in_bounds c →
  data_at (field_data w) r c = Some CAT_SYMBOL →
  move_cat r c w = (w', res) →
  player_at_centre (field_data w').
Proof.
  intros Hp Hr Hc Hcat Hrun. pose proof Hp as [Hw _].
  destruct (move_cat_spec w r c Hw Hr Hc)
    as (centre & x & y & g1 & g2 & _ & Hx & Hy & Hdest & _ & Hg1 & Hg2
        & Hrun').
  rewrite Hrun' in Hrun. simplify_eq. simpl.
  assert (Hp1 : player_at_centre g1).
  { by eapply (player_at_centre_write CAT_SYMBOL EMPTY_SYMBOL _ g1 r c). }
  eapply (player_at_centre_write EMPTY_SYMBOL CAT_SYMBOL g1 g2 x y);
    try done.
  rewrite (data_at_set_data _ _ _ _ _ _ _ Hw Hr Hc Hx Hy Hg1).
  case_bool_decide; [done|].
  destruct Hdest as [?|[? _]]; [|done]. simplify_eq. tauto.
Qed.

Lemma player_at_centre_cats_in_row row cols :
  in_bounds row → Forall in_bounds cols →
  preserves player_at_centre (cats_in_row row cols).
Proof.
  intros Hrow. induction 1 as [|col cols Hcol _ IH]; simpl.
  - apply preserves_ret.
  - intros w w' r Hp H. rewrite bind_run, read_data_run in H.
    destruct (data_at (field_data w) row col) as [s|] eqn:Hs;
      [|by simplify_eq].
    case_bool_decide as Hcat; [subst s|by eapply IH].
    rewrite bind_run in H.
    destruct (move_cat row col w) as [w1 r1] eqn:Hmove.
    pose proof (player_at_centre_move_cat _ _ _ _ _ Hp Hrow Hcol Hs Hmove)
      as Hp1.
    destruct r1; [|by simplify_eq..].
    rewrite bind_run in H.
    destruct (is_game_over w1) as [w2 r2] eqn:Hover.
    apply any_cat_pure in Hover as ->.
    destruct r2 as [[|]| |]; try (unfold ret in H; by simplify_eq).
    by eapply IH.
Qed.

Lemma player_at_centre_proceed_cats_turn :
  preserves player_at_centre proceed_cats_turn.
Proof.
  unfold proceed_cats_turn.
  pose proof range_in_bounds as Hrows. revert Hrows.
  generalize (range FIELD_SIZE). intros rows.
  induction 1 as [|row rows Hrow _ IH]; simpl.
  - apply preserves_ret.
  - apply preserves_bind.
    + apply player_at_centre_cats_in_row; [done|apply range_in_bounds].
    + intros returned. apply preserves_if; [apply preserves_ret|done].
Qed.

Lemma player_at_centre_move_objects direction (w w' : World) :
  player_at_centre (field_data w) →
  move_objects direction w = (w', Ret tt) →
  player_at_centre (field_data w').
Proof.
  intros [Hw Hp] H. unfold move_objects in H.
  apply bind_Ret_inv in H as ([] & w1 & Hclear & H).
  apply bind_Ret_inv in H as ([] & w2 & Hshift & Hback).
  unfold write_data in Hclear, Hback.
  rewrite modify_cell_run in Hclear, Hback.
  destruct (upd_cell _ (field_data w) _ _) as [g1|] eqn:Hg1; simplify_eq.
  destruct (upd_cell _ (field_data w2) _ _) as [g3|] eqn:Hg3; simplify_eq.
  simpl.
  assert (Hw1 : well_formed g1) by by eapply well_formed_upd.
  assert (Hno1 : grid_ok (λ p, Position.data p ≠ PLAYER_SYMBOL) g1).
  { apply grid_ok_pointwise; [done|]. intros r c p Hr Hc Hcell.
    assert (Hd : data_at g1 r c = Some (Position.data p))
      by (unfold data_at; by rewrite Hcell).
    rewrite (data_at_set_data _ _ _ _ _ _ _ Hw in_bounds_MIDDLE_POS
               in_bounds_MIDDLE_POS Hr Hc Hg1) in Hd.
    case_bool_decide as Hcentre; [congruence|].
    intros Hplayer. rewrite Hplayer in Hd. by apply Hp in Hd. }
  assert (Hno2 : grid_ok (λ p, Position.data p ≠ PLAYER_SYMBOL)
                   (field_data w2)).
  { assert (Hpres : preserves
              (grid_ok (λ p, Position.data p ≠ PLAYER_SYMBOL))
              (move_objects_match direction))
      by (apply preserves_move_objects_match; intros; simpl; done).
    exact (Hpres (mkWorld g1 (tape w)) _ _ Hno1 Hshift). }
  pose proof (grid_ok_well_formed _ _ Hno2) as Hw2.
  split; [by eapply well_formed_upd|].
  intros r c Hr Hc.
  rewrite (data_at_set_data _ _ _ _ _ _ _ Hw2 in_bounds_MIDDLE_POS
             in_bounds_MIDDLE_POS Hr Hc Hg3).
  case_bool_decide as Hcentre; [done|]. split; [|done].
  unfold data_at. destruct (get_cell (field_data w2) r c) as [p|] eqn:Hcell;
    [|done].
  simpl. intros [= Hplayer].
  by destruct (grid_ok_cell _ _ _ _ _ Hno2 Hcell).
Qed.

Lemma player_at_centre_move_player direction (w w' : World) :
  player_at_centre (field_data w) →
  move_player direction w = (w', Ret tt) →
  player_at_centre (field_data w').
Proof.
  intros Hp. unfold move_player.
  case_bool_decide as Hdir; [unfold raise; by intros [=]|].
  assert (Hgo : ∀ r c,
    (read_data r c ≫= λ s,
       if bool_decide (s = EMPTY_SYMBOL)
       then DIRECTIONS_getitem direction ≫= λ opposite,
              move_objects opposite
       else ret tt) w = (w', Ret tt) →
    player_at_centre (field_data w')).
  { intros r c H. rewrite bind_run, read_data_run in H.
    destruct (data_at (field_data w) r c); [|done].
    case_bool_decide as Hs; [|unfold ret in H; by simplify_eq].
    apply bind_Ret_inv in H as (opposite & w1 & Hget & H).
    unfold DIRECTIONS_getitem in Hget.
    destruct (DIRECTIONS !! direction); [|done].
    unfold ret in Hget. simplify_eq.
    by eapply player_at_centre_move_objects. }
  repeat case_match; try apply Hgo. unfold ret. by intros [= <-].
Qed.

(** C1. On every board that a game can reach (a new game, then moves of the
    player, turns of the cats and spawns of cats in any number and order,
    whatever [random] returns), the board has its [FIELD_SIZE] rows of
    [FIELD_SIZE] cells and a cell of the board holds the player symbol if
    and only if it is the centre cell [(MIDDLE_POS, MIDDLE_POS)]. *)
Theorem player_always_at_centre (w : World) :
  reachable w → player_at_centre (field_data w).
Proof.
  induction 1 as [w0 w Hinit|t w _ IH|direction w w' _ IH Hmove
                  |w w' _ IH Hcats|number w w' _ IH Hspawn].
  - by eapply GameField_init_player_at_centre.
  - done.
  - by eapply player_at_centre_move_player.
  - by eapply player_at_centre_proceed_cats_turn.
  - by eapply player_at_centre_generate_cats.
Qed.

Lemma reachable_game_0 : reachable game_0.
Proof.
  apply (reachable_new (mkWorld [] [0; 0; 4; 4; 4; 3; 0; 4])). reflexivity.
Qed.

Lemma player_always_at_centre_witness :
  reachable game_0 ∧ player_at_centre (field_data game_0).
Proof.
  assert (H : reachable game_0).
  { apply (reachable_new (mkWorld [] [0; 0; 4; 4; 4; 3; 0; 4])).
    reflexivity. }
  split; [exact H|]. exact (player_always_at_centre game_0 H).
Defined.

(** A turn of [proceed_message] goes from a board of a game to a board of a
    game. *)
Lemma reachable_turn direction t (w w' : World) (msg : message) :
  direction ∈ ["left"; "right"; "up"; "down"] →
  reachable w →
  proceed_message ("/" +:+ direction) (with_tape t w) = (w', Ret msg) →
  reachable w'.
Proof.
  intros Hdir Hw H. rewrite proceed_message_turn in H by done.
  apply bind_Ret_inv in H as ([] & w1 & Hmove & H).
  apply bind_Ret_inv in H as ([] & w2 & Hcats & H).
  apply bind_Ret_inv in H as ([] & w3 & Hspawn & H).
  apply bind_Ret_inv in H as (over & w4 & Hover & H).
  apply any_cat_pure in Hover as ->.
  apply bind_Ret_inv in H as (g & w5 & Hget & H).
  unfold get_field in Hget. injection Hget as <- <-.
  assert (w' = w3) as ->.
  { destruct over; unfold ret in H; by simplify_eq. }
  eapply reachable_generate_cats; [|exact Hspawn].
  eapply reachable_cats_turn; [|exact Hcats].
  eapply reachable_move_player; [|exact Hmove].
  by apply reachable_tape.
Qed.

Lemma reachable_game_3 : reachable game_3.
Proof.
  assert (H1 : reachable game_1).
  { eapply (reachable_turn "down" [0; 0; 0] game_0);
      [set_solver|apply reachable_game_0|]. vm_compute. reflexivity. }
  assert (H2 : reachable game_2).
  { eapply (reachable_turn "right" [2; 2; 0; 0] game_1);
      [set_solver|exact H1|]. vm_compute. reflexivity. }
  eapply (reachable_turn "right" [0; 0; 2; 3] game_2);
    [set_solver|exact H2|]. vm_compute. reflexivity.
Qed.

(** ** The spawner in a turn *)

Lemma placed_one s allowed (g g' : Grid) :
  well_formed g → placed s allowed 1 g g' →
  ∃ x y, in_bounds x ∧ in_bounds y ∧ allowed x y ∧
         data_at g x y = Some EMPTY_SYMBOL ∧
         ∀ r c, in_bounds r → in_bounds c →
           data_at g' r c =
             if bool_decide (r = x ∧ c = y) then Some s else data_at g r c.
Proof.
  intros Hw H. inversion H as [|n g0 g1 g2 x y Hx Hy Hallowed Hs Hupd Hrest];
    subst.
  inversion Hrest; subst. exists x, y. split_and!; try done.
  intros r c Hr Hc. by eapply data_at_set_data.
Qed.


(** C4, as the specification has it, fails: in this turn the cats' turn ends
    with a cat on (1,2), next to the player, and [generate_cats] then puts a
    new cat on (4,4) before the game over message is sent. *)
Lemma spawn_not_skipped_on_game_over :
  let w1 := (move_player "up" (with_tape [4; 4; 1] game_0)).1 in
  let w2 := (proceed_cats_turn w1).1 in
  let out := proceed_message "/up" (with_tape [4; 4; 1] game_0) in
  proceed_cats_turn w1 = (w2, Ret tt) ∧
  is_game_over w2 = (w2, Ret true) ∧
  data_at (field_data w2) 4 4 = Some EMPTY_SYMBOL ∧
  data_at (field_data out.1) 4 4 = Some CAT_SYMBOL ∧
  out.2 = Ret (GAME_OVER_MESSAGE (render (field_data out.1))).
Proof. vm_compute. by split_and!. Qed.

(** The cells of a sequence of placements: as many as the placements, all
    different, each empty before and holding the symbol after, and no other
    cell changed. *)
Lemma placed_cells s allowed n (g g' : Grid) :
  s ≠ EMPTY_SYMBOL → placed s allowed n g g' → well_formed g →
  ∃ cells : list (Z * Z),
    length cells = n ∧ NoDup cells ∧
    (∀ x y, (x, y) ∈ cells →
       in_bounds x ∧ in_bounds y ∧ allowed x y ∧
       data_at g x y = Some EMPTY_SYMBOL ∧ data_at g' x y = Some s) ∧
    (∀ r c, in_bounds r → in_bounds c → (r, c) ∉ cells →
       data_at g' r c = data_at g r c).
Proof.
  intros Hs.
  induction 1 as [g|n g g1 g' x y Hx Hy Hallowed Hempty Hupd _ IH];
    intros Hw.
  { exists []. split_and!; [done|apply NoDup_nil_2| |done].
    intros x y Hin. by apply elem_of_nil in Hin. }
  assert (Hw1 : well_formed g1) by by eapply well_formed_upd.
  destruct (IH Hw1) as (cells & Hlen & Hnd & Hcells & Hframe).
  assert (Hg1 : ∀ r c, in_bounds r → in_bounds c →
            data_at g1 r c =
              if bool_decide (r = x ∧ c = y) then Some s
              else data_at g r c)
    by (intros r c Hr Hc; by eapply data_at_set_data).
  assert (Hfresh : (x, y) ∉ cells).
  { intros Hin. destruct (Hcells x y Hin) as (_ & _ & _ & Hold & _).
    rewrite Hg1, bool_decide_eq_true_2 in Hold by done. congruence. }
  exists ((x, y) :: cells). split_and!.
  - simpl. by rewrite Hlen.
  - by apply NoDup_cons_2.
  - intros x' y' Hin. apply elem_of_cons in Hin as [Heq|Hin].
    + simplify_eq. split_and!; try done.
      rewrite Hframe, Hg1 by done. by rewrite bool_decide_eq_true_2.
    + destruct (Hcells x' y' Hin) as (Hx' & Hy' & ? & Hold & Hnew).
      split_and!; try done. rewrite Hg1 in Hold by done.
      case_bool_decide as Heq; [|done].
      destruct Heq as [-> ->]. done.
  - intros r c Hr Hc Hnotin. apply not_elem_of_cons in Hnotin as [Hne Hnotin].
    rewrite Hframe, Hg1 by done.
    rewrite bool_decide_eq_false_2; [done|]. intros [-> ->]. done.
Qed.


(** C8, as the specification has it, fails: with the draws 0 and 1,
    [generate_obstacles] puts its obstacle on (0,1), a cell of the first
    row. *)
Lemma obstacle_on_an_edge :
  generate_obstacles 1 (with_tape [0; 1] game_0) = game_0_obstacle ∧
  game_0_obstacle.2 = Ret tt ∧
  data_at (field_data game_0) 0 1 = Some EMPTY_SYMBOL ∧
  data_at (field_data game_0_obstacle.1) 0 1 = Some OBSTACLE_SYMBOL ∧
  ¬ interior 0 1.
Proof.
  split_and!; try reflexivity. unfold interior. lia.
Qed.

(** ** The cats' turn *)

(** The turn with the list of its calls is the turn. *)
Lemma cats_in_row_log_erase row cols (w : World) :
  cats_in_row row cols w =
    ((cats_in_row_log row cols w).1,
     res_map fst (cats_in_row_log row cols w).2).
Proof.
  revert w. induction cols as [|col cols IH]; intros w; simpl; [done|].
  rewrite !bind_run, read_data_run.
  destruct (data_at (field_data w) row col) as [s|]; [|done].
  case_bool_decide; [|apply IH].
  rewrite !bind_run. destruct (move_cat row col w) as [w1 [[]| |]]; [|done..].
  rewrite !bind_run. destruct (is_game_over w1) as [w2 [[|]| |]]; try done.
  rewrite bind_run, IH.
  by destruct (cats_in_row_log row cols w2) as [w3 [[b l]| |]].
Qed.

Lemma cats_in_rows_log_erase rows (w : World) :
  cats_in_rows rows w =
    ((cats_in_rows_log rows w).1,
     res_map (λ _, tt) (cats_in_rows_log rows w).2).
Proof.
  revert w. induction rows as [|row rows IH]; intros w; simpl; [done|].
  rewrite !bind_run, cats_in_row_log_erase.
  destruct (cats_in_row_log row (range FIELD_SIZE) w)
    as [w1 [[[|] l]| |]]; try done.
  simpl. rewrite bind_run, IH.
  by destruct (cats_in_rows_log rows w1) as [w2 [l'| |]].
Qed.

Lemma move_cat_keeps_other_cats (w w' : World) (res : res unit) r c r' c' :
  well_formed (field_data w) → in_bounds r → in_bounds c →
  in_bounds r' → in_bounds c' → ¬ (r' = r ∧ c' = c) →
  data_at (field_data w) r' c' = Some CAT_SYMBOL →
  move_cat r c w = (w', res) →
  data_at (field_data w') r' c' = Some CAT_SYMBOL.
Proof.
  intros Hw Hr Hc Hr' Hc' Hne Hcat Hrun.
  destruct (move_cat_data w r c Hw Hr Hc)
    as (centre & x & y & w1 & _ & Hrun' & _ & _ & _ & _ & _ & Hdata).
  rewrite Hrun' in Hrun. simplify_eq. rewrite Hdata by done.
  case_bool_decide; [done|]. by rewrite bool_decide_eq_false_2.
Qed.

Lemma cats_in_row_log_spec row cols (w w' : World) (b : bool) log :
  well_formed (field_data w) → in_bounds row →
  Forall in_bounds cols → NoDup cols →
  cats_in_row_log row cols w = (w', Ret (b, log)) →
  well_formed (field_data w') ∧
  (b = true → is_game_over w' = (w', Ret true)) ∧
  (∀ c, c ∈ cols → data_at (field_data w) row c = Some CAT_SYMBOL →
        (row, c) ∈ log ∨ b = true) ∧
  (∀ r c, in_bounds r → in_bounds c → r ≠ row ∨ c ∉ cols →
          data_at (field_data w) r c = Some CAT_SYMBOL →
          data_at (field_data w') r c = Some CAT_SYMBOL).
Proof.
  intros Hw Hrow Hcols. revert w b log Hw.
  induction Hcols as [|col cols Hcol Hcols IH]; intros w b log Hw Hnd H;
    simpl in H.
  { unfold ret in H. simplify_eq. split_and!; try done.
    intros c Hc. by apply elem_of_nil in Hc. }
  apply NoDup_cons in Hnd as [Hnotin Hnd].
  rewrite bind_run, read_data_run in H.
  destruct (data_at (field_data w) row col) as [s|] eqn:Hs; [|done].
  case_bool_decide as Hcat.
  - subst s. rewrite bind_run in H.
    destruct (move_cat row col w) as [w1 [[]| |]] eqn:Hmove; [|done..].
    assert (Hw1 : well_formed (field_data w1))
      by exact (well_formed_move_cat _ _ _ _ _ Hw Hmove).
    rewrite bind_run in H.
    destruct (is_game_over w1) as [w2 [over| |]] eqn:Hover; [|done..].
    pose proof (any_cat_pure _ _ _ _ Hover) as ->.
    destruct over.
    + unfold ret in H. simplify_eq. split_and!; try done.
      * intros c _ _. by right.
      * intros r c Hr Hc Hout Hcatrc.
        apply (move_cat_keeps_other_cats w _ (Ret tt) row col r c Hw Hrow Hcol
                 Hr Hc); [|done|exact Hmove].
        intros [? ?]. subst. destruct Hout as [?|Hout]; [done|].
        apply Hout. left.
    + rewrite bind_run in H.
      destruct (cats_in_row_log row cols w1) as [w3 [[b' log']| |]] eqn:Hrest;
        [|done..].
      unfold ret in H. simpl in H. simplify_eq.
      destruct (IH _ _ _ Hw1 Hnd Hrest) as (Hw3 & Hb & Hin & Hout).
      split_and!; try done.
      * intros c Hc Hcatc. apply elem_of_cons in Hc as [->|Hc].
        -- left. left.
        -- destruct (Hin c Hc) as [?|?]; [|by left; right|by right].
           assert (Hbc : in_bounds c)
             by (rewrite Forall_forall in Hcols; by apply Hcols).
           apply (move_cat_keeps_other_cats w _ (Ret tt) row col row c Hw Hrow
                    Hcol Hrow Hbc); [|done|exact Hmove].
           intros [_ ?]. by subst.
      * intros r c Hr Hc Houtside Hcatrc. apply Hout; try done.
        -- destruct Houtside as [?|Hn]; [by left|right].
           intros ?. apply Hn. by right.
        -- apply (move_cat_keeps_other_cats w _ (Ret tt) row col r c Hw Hrow Hcol
                    Hr Hc); [|done|exact Hmove].
           intros [? ?]. subst. destruct Houtside as [?|Hn]; [done|].
           apply Hn. left.
  - destruct (IH _ _ _ Hw Hnd H) as (Hw3 & Hb & Hin & Hout).
    split_and!; try done.
    + intros c Hc Hcatc. apply elem_of_cons in Hc as [->|Hc]; [congruence|].
      by apply Hin.
    + intros r c Hr Hc Houtside Hcatrc. apply Hout; try done.
      destruct Houtside as [?|Hn]; [by left|right].
      intros ?. apply Hn. by right.
Qed.

Lemma range_NoDup : NoDup (range FIELD_SIZE).
Proof.
  rewrite range_FIELD_SIZE.
  repeat (apply NoDup_cons_2;
          [rewrite ?not_elem_of_cons; split_and?; try lia;
           apply not_elem_of_nil|]).
  apply NoDup_nil_2.
Qed.

Lemma cats_in_rows_log_spec rows (w w' : World) log :
  well_formed (field_data w) → Forall in_bounds rows → NoDup rows →
  cats_in_rows_log rows w = (w', Ret log) →
  ∀ r c, r ∈ rows → c ∈ range FIELD_SIZE →
    data_at (field_data w) r c = Some CAT_SYMBOL →
    (r, c) ∈ log ∨ is_game_over w' = (w', Ret true).
Proof.
  intros Hw Hrows. revert w log Hw.
  induction Hrows as [|row rows Hrow Hrows IH]; intros w log Hw Hnd H;
    simpl in H.
  { intros r c Hr. by apply elem_of_nil in Hr. }
  apply NoDup_cons in Hnd as [Hnotin Hnd].
  rewrite bind_run in H.
  destruct (cats_in_row_log row (range FIELD_SIZE) w)
    as [w1 [[b log1]| |]] eqn:Hhere; [|done..].
  destruct (cats_in_row_log_spec _ _ _ _ _ _ Hw Hrow range_in_bounds
              range_NoDup Hhere) as (Hw1 & Hb & Hin & Hout).
  simpl in H. destruct b.
  - unfold ret in H. simplify_eq. intros r c _ _ _. right. by apply Hb.
  - rewrite bind_run in H.
    destruct (cats_in_rows_log rows w1) as [w2 [log2| |]] eqn:Hbelow;
      [|done..].
    unfold ret in H. simplify_eq.
    intros r c Hr Hc Hcat. apply elem_of_cons in Hr as [->|Hr].
    + left. apply elem_of_app. left.
      by destruct (Hin c Hc Hcat).
    + assert (Hbr : in_bounds r)
        by (rewrite Forall_forall in Hrows; by apply Hrows).
      assert (Hbc : in_bounds c).
      { pose proof range_in_bounds as Hall.
        rewrite Forall_forall in Hall. by apply Hall. }
      destruct (IH _ _ Hw1 Hnd Hbelow r c Hr Hc) as [?|?]; [|left|by right].
      * apply Hout; try done. left. intros ->. done.
      * apply elem_of_app. by right.
Qed.

Lemma elem_of_cats_of (g : Grid) r c :
  (r, c) ∈ cats_of g ↔
  r ∈ range FIELD_SIZE ∧ c ∈ range FIELD_SIZE
  ∧ data_at g r c = Some CAT_SYMBOL.
Proof.
  unfold cats_of. rewrite list_elem_of_bind. split.
  - intros (r' & Hin & Hr'). apply list_elem_of_bind in Hin as (c' & Hin & Hc').
    case_bool_decide; [|by apply elem_of_nil in Hin].
    apply list_elem_of_singleton in Hin. by simplify_eq.
  - intros (Hr & Hc & Hcat). exists r. split; [|done].
    apply list_elem_of_bind. exists c. split; [|done].
    rewrite bool_decide_eq_true_2 by done. by apply list_elem_of_singleton.
Qed.

(** The cats' turn returns: no exception, and [random] is not called. *)
Lemma cats_in_row_log_total row cols (w : World) :
  well_formed (field_data w) → in_bounds row → Forall in_bounds cols →
  ∃ w' b log, cats_in_row_log row cols w = (w', Ret (b, log))
              ∧ well_formed (field_data w').
Proof.
  intros Hw Hrow Hcols. revert w Hw.
  induction Hcols as [|col cols Hcol _ IH]; intros w Hw; simpl.
  { by exists w, false, []. }
  destruct (grid_cell_Some _ _ _ Hw Hrow Hcol) as (? & p & _ & _ & Hp).
  rewrite bind_run, read_data_run. unfold data_at at 1. rewrite Hp. simpl.
  case_bool_decide as Hcat; [|by apply IH].
  destruct (move_cat_data w row col Hw Hrow Hcol)
    as (? & ? & ? & w1 & _ & Hmove & _ & Hw1 & _).
  rewrite bind_run, Hmove.
  destruct (is_game_over_total w1 Hw1) as [over Hover].
  rewrite bind_run, Hover. destruct over.
  - by exists w1, true, [(row, col)].
  - destruct (IH w1 Hw1) as (w' & b & log & Hrest & Hw').
    rewrite bind_run, Hrest. by exists w', b, ((row, col) :: log).
Qed.

Lemma cats_in_rows_log_total rows (w : World) :
  well_formed (field_data w) → Forall in_bounds rows →
  ∃ w' log, cats_in_rows_log rows w = (w', Ret log).
Proof.
  intros Hw Hrows. revert w Hw.
  induction Hrows as [|row rows Hrow _ IH]; intros w Hw; simpl.
  { by exists w, []. }
  destruct (cats_in_row_log_total row (range FIELD_SIZE) w Hw Hrow
              range_in_bounds) as (w1 & b & log1 & Hhere & Hw1).
  rewrite bind_run, Hhere. simpl. destruct b.
  - by exists w1, log1.
  - destruct (IH w1 Hw1) as (w' & log2 & Hbelow).
    rewrite bind_run, Hbelow. by exists w', (log1 ++ log2).
Qed.

(** The turn of the cats returns on every board of the right shape, and
    every cat that the board holds when the turn starts is given to
    [move_cat], unless the turn stops before on a game over. *)
Lemma cats_turn_reaches_every_cat (w : World) :
  well_formed (field_data w) →
  ∃ w' log,
    proceed_cats_turn_log w = (w', Ret log) ∧
    proceed_cats_turn w = (w', Ret tt) ∧
    ∀ r c, (r, c) ∈ cats_of (field_data w) →
      (r, c) ∈ log ∨ is_game_over w' = (w', Ret true).
Proof.
  intros Hw.
  destruct (cats_in_rows_log_total (range FIELD_SIZE) w Hw range_in_bounds)
    as (w' & log & H).
  exists w', log. split_and!; [done| |].
  - unfold proceed_cats_turn. rewrite cats_in_rows_log_erase. by rewrite H.
  - intros r c Hin. apply elem_of_cats_of in Hin as (Hr & Hc & Hcat).
    by eapply (cats_in_rows_log_spec (range FIELD_SIZE) w w' log Hw
                 range_in_bounds range_NoDup H).
Qed.



(** ** Stored coordinates *)

Lemma in_bounds_cases r :
  in_bounds r → r = 0 ∨ r = 1 ∨ r = 2 ∨ r = 3 ∨ r = 4.
Proof. unfold in_bounds, FIELD_SIZE. lia. Qed.

(** The coordinates of a concrete board, cell by cell. *)
Ltac concrete_coordinates_ok :=
  let r := fresh "r" in let c := fresh "c" in let p := fresh "p" in
  let Hr := fresh "Hr" in let Hc := fresh "Hc" in
  intros r c p Hr Hc;
  destruct (in_bounds_cases r Hr) as [->|[->|[->|[->| ->]]]];
  destruct (in_bounds_cases c Hc) as [->|[->|[->|[->| ->]]]];
  vm_compute; by intros [= <-].

Lemma coordinates_ok_game_0 : coordinates_ok (field_data game_0).
Proof. concrete_coordinates_ok. Qed.

(** The horizontal shifts renumber every column: after them the cells of
    the new game still store their own coordinates. *)
Lemma horizontal_shifts_renumber_every_column :
  move_objects "left" (with_tape [0; 1] game_0) = game_0_shifted_left ∧
  game_0_shifted_left.2 = Ret tt ∧
  coordinates_ok (field_data game_0_shifted_left.1) ∧
  move_objects "right" (with_tape [0; 1] game_0) = game_0_shifted_right ∧
  game_0_shifted_right.2 = Ret tt ∧
  coordinates_ok (field_data game_0_shifted_right.1).
Proof. split_and!; try reflexivity; concrete_coordinates_ok. Qed.

(** C5 fails on the code.  On the new game [game_0], whose cells all store
    their own coordinates, [move_objects('up')] (the shift of a move down)
    returns a board whose cell [field_data[0][4]] stores [x = 1], and
    [move_objects('down')] a board whose cell [field_data[4][4]] stores
    [x = 3]: the loop that renumbers the rows stops one column short, and
    the last column keeps the row numbers it had before the shift. *)
Theorem vertical_shifts_leave_stale_rows :
  coordinates_ok (field_data game_0) ∧
  move_objects "up" (with_tape [0] game_0) = game_0_shifted_up ∧
  game_0_shifted_up.2 = Ret tt ∧
  get_cell (field_data game_0_shifted_up.1) 0 4
    = Some (Position.mk 1 4 EMPTY_SYMBOL) ∧
  ¬ coordinates_ok (field_data game_0_shifted_up.1) ∧
  move_objects "down" (with_tape [0] game_0) = game_0_shifted_down ∧
  game_0_shifted_down.2 = Ret tt ∧
  get_cell (field_data game_0_shifted_down.1) 4 4
    = Some (Position.mk 3 4 EMPTY_SYMBOL) ∧
  ¬ coordinates_ok (field_data game_0_shifted_down.1).
Proof.
  assert (H0 : in_bounds 0) by (unfold in_bounds, FIELD_SIZE; lia).
  assert (H4 : in_bounds 4) by (unfold in_bounds, FIELD_SIZE; lia).
  split; [apply coordinates_ok_game_0|].
  split_and!; try reflexivity.
  - intros Hok.
    destruct (Hok 0 4 (Position.mk 1 4 EMPTY_SYMBOL) H0 H4 eq_refl)
      as [Hx _].
    discriminate Hx.
  - intros Hok.
    destruct (Hok 4 4 (Position.mk 3 4 EMPTY_SYMBOL) H4 H4 eq_refl)
      as [Hx _].
    discriminate Hx.
Qed.

(** With a centre cell that stores the coordinates of the centre, the cell
    that [move_cat] chooses is the cat's own or one that is nearer to the
    centre of the board. *)
Lemma move_cat_nearer_when_centre_ok (w : World) r c centre :
  well_formed (field_data w) → in_bounds r → in_bounds c →
  get_cell (field_data w) MIDDLE_POS MIDDLE_POS = Some centre →
  Position.x centre = MIDDLE_POS → Position.y centre = MIDDLE_POS →
  ∃ w' x y,
    move_cat r c w = (w', Ret tt) ∧
    data_at (field_data w') x y = Some CAT_SYMBOL ∧
    ((x, y) = (r, c) ∨
     (data_at (field_data w) x y = Some EMPTY_SYMBOL
      ∧ distance_to_centre x y < distance_to_centre r c)).
Proof.
  intros Hw Hr Hc Hcentre Hcx Hcy.
  destruct (move_cat_data w r c Hw Hr Hc)
    as (centre' & x & y & w' & Hcentre' & Hrun & _ & _ & Hx & Hy & Hdest
        & Hdata).
  assert (centre' = centre) as -> by congruence.
  exists w', x, y. split; [done|]. split.
  - rewrite Hdata by done. by rewrite bool_decide_eq_true_2.
  - destruct Hdest as [?|[? Hlt]]; [by left|right]. split; [done|].
    unfold Position.manhattan in Hlt. simpl in Hlt.
    unfold distance_to_centre. rewrite Hcx, Hcy in Hlt. lia.
Qed.

(** C6 fails on the code.  [game_3] is a board of a game: a new game, then
    the turns ["/down"], ["/right"] and ["/right"].  Its centre cell is the
    cell that the shift up left with the row number 3, so [manhattan]
    measures from (3,2).  The cat on (2,4), two steps from the player, has
    an obstacle on its left; [move_cat] sends it down to (3,4), three steps
    from the player.  The cats' turn on that board makes this call. *)
Theorem move_cat_moves_away_in_game_3 :
  reachable game_3 ∧
  get_cell (field_data game_3) MIDDLE_POS MIDDLE_POS
    = Some (Position.mk 3 2 PLAYER_SYMBOL) ∧
  data_at (field_data game_3) 2 4 = Some CAT_SYMBOL ∧
  data_at (field_data game_3) 3 4 = Some EMPTY_SYMBOL ∧
  (move_cat 2 4 game_3).2 = Ret tt ∧
  data_at (field_data (move_cat 2 4 game_3).1) 2 4 = Some EMPTY_SYMBOL ∧
  data_at (field_data (move_cat 2 4 game_3).1) 3 4 = Some CAT_SYMBOL ∧
  distance_to_centre 2 4 = 2 ∧
  distance_to_centre 3 4 = 3 ∧
  (proceed_cats_turn_log game_3).2 = Ret [(2, 4); (3, 4)].
Proof.
  split; [apply reachable_game_3|]. by split_and!.
Qed.

(** ** The rule of the pursuit *)

Lemma first_nearest_skip (g : Grid) centre r c seen cur position :
  first_nearest g centre r c seen cur →
  (free_cell g position → cur.1 <= Position.manhattan centre position) →
  first_nearest g centre r c (seen ++ [position]) cur.
Proof.
  intros [Hd Hcur] Hpos. split; [done|].
  destruct Hcur as [[Hstay Hall]|(before & after & -> & Hfree & Hlt & Hb & Ha)].
  - left. split; [done|]. intros q Hq Hfq.
    apply elem_of_app in Hq as [Hq|Hq]; [by apply Hall|].
    apply list_elem_of_singleton in Hq as ->. by apply Hpos.
  - right. exists before, (after ++ [position]).
    split_and!; try done.
    + by rewrite <- app_assoc.
    + intros q Hq Hfq.
      apply elem_of_app in Hq as [Hq|Hq]; [by apply Ha|].
      apply list_elem_of_singleton in Hq as ->. by apply Hpos.
Qed.

Lemma first_nearest_take (g : Grid) centre r c seen cur position :
  first_nearest g centre r c seen cur →
  free_cell g position →
  Position.manhattan centre position < cur.1 →
  first_nearest g centre r c (seen ++ [position])
    (Position.manhattan centre position, position).
Proof.
  intros [Hd Hcur] Hfree Hlt. split; [done|]. right.
  exists seen, []. simpl. split_and!; try done.
  - destruct Hcur as [[Hstay _]|(_ & _ & _ & _ & ? & _)]; [|lia].
    rewrite Hstay in Hd. lia.
  - intros q Hq Hfq.
    destruct Hcur as [[_ Hall]|(before & after & -> & _ & _ & Hb & Ha)].
    + specialize (Hall q Hq Hfq). lia.
    + apply elem_of_app in Hq as [Hq|Hq]; [specialize (Hb q Hq Hfq); lia|].
      apply elem_of_cons in Hq as [->|Hq]; [lia|].
      specialize (Ha q Hq Hfq). lia.
  - intros q Hq. by apply elem_of_nil in Hq.
Qed.

Lemma move_cat_check_first_nearest (w : World) centre r c seen cur position :
  well_formed (field_data w) →
  get_cell (field_data w) MIDDLE_POS MIDDLE_POS = Some centre →
  first_nearest (field_data w) centre r c seen cur →
  ∃ cur', move_cat_check cur position w = (w, Ret cur') ∧
          first_nearest (field_data w) centre r c (seen ++ [position]) cur'.
Proof.
  intros Hw Hcentre Hcur. destruct cur as [d pos], position as [x y].
  unfold move_cat_check. case_bool_decide as Hout.
  { exists (d, pos). split; [done|]. apply first_nearest_skip; [done|].
    intros (Hx & Hy & _). unfold in_bounds in Hx, Hy. simpl in Hx, Hy. lia. }
  assert (in_bounds x ∧ in_bounds y) as [Hx Hy]
    by (unfold in_bounds; lia).
  destruct (grid_cell_Some _ _ _ Hw Hx Hy) as (row & p & _ & _ & Hp).
  rewrite bind_run, read_data_run. unfold data_at at 1. rewrite Hp. simpl.
  case_bool_decide as Hs.
  { exists (d, pos). split; [done|]. apply first_nearest_skip; [done|].
    intros (_ & _ & Hempty). unfold data_at in Hempty. simpl in Hempty.
    rewrite Hp in Hempty. simpl in Hempty. congruence. }
  rewrite bind_run, read_cell_run, Hcentre.
  assert (Hfree : free_cell (field_data w) (x, y)).
  { split_and!; try done. unfold data_at. simpl. by rewrite Hp, <- Hs. }
  case_bool_decide as Hlt.
  - eexists. split; [done|].
    by apply (first_nearest_take _ _ _ _ _ (d, pos)).
  - exists (d, pos). split; [done|]. apply first_nearest_skip; [done|].
    intros _. simpl. lia.
Qed.

Lemma move_cat_scan_first_nearest (w : World) centre r c positions seen cur :
  well_formed (field_data w) →
  get_cell (field_data w) MIDDLE_POS MIDDLE_POS = Some centre →
  first_nearest (field_data w) centre r c seen cur →
  ∃ cur', move_cat_scan positions cur w = (w, Ret cur') ∧
          first_nearest (field_data w) centre r c (seen ++ positions) cur'.
Proof.
  intros Hw Hcentre. revert seen cur.
  induction positions as [|position rest IH]; simpl; intros seen cur Hcur.
  - exists cur. by rewrite app_nil_r.
  - destruct (move_cat_check_first_nearest w centre r c seen cur position
                Hw Hcentre Hcur) as (cur1 & Hrun & Hcur1).
    rewrite bind_run, Hrun.
    destruct (IH _ _ Hcur1) as (cur' & Hrest & Hcur').
    exists cur'. split; [done|]. by rewrite <- app_assoc in Hcur'.
Qed.



(** ** A board of the right shape, cell by cell *)

Lemma well_formed_explicit (g : Grid) :
  well_formed g →
  ∃ a00 a01 a02 a03 a04 a10 a11 a12 a13 a14 a20 a21 a22 a23 a24
    a30 a31 a32 a33 a34 a40 a41 a42 a43 a44,
    g = [[a00; a01; a02; a03; a04]; [a10; a11; a12; a13; a14];
         [a20; a21; a22; a23; a24]; [a30; a31; a32; a33; a34];
         [a40; a41; a42; a43; a44]].
Proof.
  intros [Hlen Hrows]. change (Z.to_nat FIELD_SIZE) with 5%nat in *.
  do 6 (destruct g as [|? g]; try discriminate Hlen).
  repeat match goal with
  | H : Forall _ (_ :: _) |- _ => apply Forall_cons in H as [[? _] H]
  end.
  repeat match goal with
  | H : length ?l = 5%nat |- _ =>
      do 6 (destruct l as [|? l]; try discriminate H); clear H
  end.
  by repeat eexists.
Qed.

(** Names for the twenty-five cells of a board of the right shape. *)
Ltac explicit_grid g Hw :=
  let H := fresh in
  pose proof (well_formed_explicit g Hw) as H;
  destruct H as (a00 & a01 & a02 & a03 & a04 & a10 & a11 & a12 & a13 & a14
                 & a20 & a21 & a22 & a23 & a24 & a30 & a31 & a32 & a33 & a34
                 & a40 & a41 & a42 & a43 & a44 & H).

Lemma all_cells_eq :
  all_cells =
    [(0, 0); (0, 1); (0, 2); (0, 3); (0, 4);
     (1, 0); (1, 1); (1, 2); (1, 3); (1, 4);
     (2, 0); (2, 1); (2, 2); (2, 3); (2, 4);
     (3, 0); (3, 1); (3, 2); (3, 3); (3, 4);
     (4, 0); (4, 1); (4, 2); (4, 3); (4, 4)].
Proof. reflexivity. Qed.

Lemma elem_of_all_cells r c :
  (r, c) ∈ all_cells ↔ in_bounds r ∧ in_bounds c.
Proof.
  unfold all_cells. rewrite list_elem_of_bind. split.
  - intros (r' & Hin & Hr').
    apply list_elem_of_bind in Hin as (c' & Hin & Hc').
    apply list_elem_of_singleton in Hin. simplify_eq.
    pose proof range_in_bounds as Hall. rewrite Forall_forall in Hall. auto.
  - intros [Hr Hc]. exists r.
    assert (Hin : ∀ i, in_bounds i → i ∈ range FIELD_SIZE).
    { intros i Hi. rewrite range_FIELD_SIZE.
      destruct (in_bounds_cases i Hi) as [->|[->|[->|[->| ->]]]];
        set_solver. }
    split; [|by apply Hin]. apply list_elem_of_bind. exists c.
    split; [by apply list_elem_of_singleton|by apply Hin].
Qed.

Lemma all_cells_NoDup : NoDup all_cells.
Proof.
  rewrite all_cells_eq.
  repeat (apply NoDup_cons_2;
          [rewrite ?not_elem_of_cons; split_and?; try (intros [=]; lia);
           apply not_elem_of_nil|]).
  apply NoDup_nil_2.
Qed.

Lemma render_all_cells (g : Grid) :
  well_formed g →
  (λ q : Z * Z, data_at g q.1 q.2) <$> all_cells = Some <$> render g.
Proof. intros Hw. explicit_grid g Hw. subst g. reflexivity. Qed.

(** ** Counting the pieces *)

Lemma length_filter_fmap {A B} (f : A → B) (P : B → Prop)
  `{!∀ b, Decision (P b)} (l : list A) :
  length (filter P (f <$> l)) = length (filter (λ a, P (f a)) l).
Proof.
  induction l as [|a l IH]; [done|]. rewrite fmap_cons, !filter_cons.
  destruct (decide (P (f a))); simpl; by rewrite IH.
Qed.

Lemma length_filter_ext_in {A} (P Q : A → Prop)
  `{!∀ a, Decision (P a)} `{!∀ a, Decision (Q a)} (l : list A) :
  (∀ a, a ∈ l → (P a ↔ Q a)) →
  length (filter P l) = length (filter Q l).
Proof.
  induction l as [|a l IH]; intros Hext; [done|]. rewrite !filter_cons.
  assert (HPQ : P a ↔ Q a) by (apply Hext; left).
  assert (Hrest : length (filter P l) = length (filter Q l))
    by (apply IH; intros b Hb; apply Hext; by right).
  destruct (decide (P a)), (decide (Q a)); simpl; try tauto; by rewrite Hrest.
Qed.

Lemma count_of_cells s (g : Grid) :
  well_formed g →
  count_of s g =
    length (filter (λ q : Z * Z, data_at g q.1 q.2 = Some s) all_cells).
Proof.
  intros Hw. unfold count_of.
  transitivity
    (length (filter (λ o, o = Some s)
               ((λ q : Z * Z, data_at g q.1 q.2) <$> all_cells))).
  - rewrite (render_all_cells g Hw), length_filter_fmap.
    apply length_filter_ext_in. intros t _. split; congruence.
  - apply length_filter_fmap.
Qed.

Lemma length_filter_change {A} `{!EqDecision A} (P Q : A → Prop)
  `{!∀ a, Decision (P a)} `{!∀ a, Decision (Q a)} (l : list A) (a : A) :
  NoDup l → a ∈ l →
  (∀ b, b ∈ l → b ≠ a → (P b ↔ Q b)) →
  (length (filter Q l) + one_if (P a) = length (filter P l) + one_if (Q a))%nat.
Proof.
  unfold one_if.
  induction l as [|x l IH]; intros Hnd Hin Hext;
    [by apply elem_of_nil in Hin|].
  apply NoDup_cons in Hnd as [Hx Hnd]. rewrite !filter_cons.
  destruct (decide (x = a)) as [->|Hne].
  - assert (Hrest : length (filter P l) = length (filter Q l)).
    { apply length_filter_ext_in. intros b Hb. apply Hext; [by right|].
      intros ->. done. }
    destruct (decide (P a)), (decide (Q a)); simpl; lia.
  - apply elem_of_cons in Hin as [?|Hin]; [congruence|].
    assert (HPQ : P x ↔ Q x) by (apply Hext; [left|done]).
    assert (Hrest : (length (filter Q l) + (if decide (P a) then 1 else 0)
                      = length (filter P l) + (if decide (Q a) then 1 else 0))%nat).
    { apply IH; [done..|]. intros b Hb Hba. apply Hext; [by right|done]. }
    destruct (decide (P x)), (decide (Q x)); simpl; try tauto; lia.
Qed.

(** One assignment to [data] takes one cell from the count of the symbol it
    held and gives one to the count of the symbol assigned. *)
Lemma count_of_set_data s0 s (g g' : Grid) x y :
  well_formed g → in_bounds x → in_bounds y →
  data_at g x y = Some s0 →
  upd_cell (Position.set_data s) g x y = Some g' →
  ∀ t, (count_of t g' + one_if (t = s0) = count_of t g + one_if (t = s))%nat.
Proof.
  intros Hw Hx Hy Hs0 Hupd t.
  assert (Hw' : well_formed g') by by eapply well_formed_upd.
  rewrite !count_of_cells by done.
  pose proof (length_filter_change
                (λ q : Z * Z, data_at g q.1 q.2 = Some t)
                (λ q : Z * Z, data_at g' q.1 q.2 = Some t)
                all_cells (x, y) all_cells_NoDup) as Hchange.
  simpl in Hchange.
  assert (Hold : one_if (data_at g x y = Some t) = one_if (t = s0)).
  { unfold one_if. rewrite Hs0.
    destruct (decide (Some s0 = Some t)), (decide (t = s0)); congruence. }
  assert (Hnew : one_if (data_at g' x y = Some t) = one_if (t = s)).
  { unfold one_if.
    rewrite (data_at_set_data _ _ _ _ _ _ _ Hw Hx Hy Hx Hy Hupd).
    rewrite bool_decide_eq_true_2 by done.
    destruct (decide (Some s = Some t)), (decide (t = s)); congruence. }
  rewrite Hold, Hnew in Hchange. apply Hchange.
  - by apply elem_of_all_cells.
  - intros [r c] Hin Hne. apply elem_of_all_cells in Hin as [Hr Hc]. simpl.
    rewrite (data_at_set_data _ _ _ _ _ _ _ Hw Hx Hy Hr Hc Hupd).
    rewrite bool_decide_eq_false_2; [done|]. intros [-> ->]. done.
Qed.

Lemma placed_count s allowed n (g g' : Grid) :
  placed s allowed n g g' → well_formed g →
  ∀ t, (count_of t g' + n * one_if (t = EMPTY_SYMBOL)
        = count_of t g + n * one_if (t = s))%nat.
Proof.
  induction 1 as [g|n g g1 g' x y Hx Hy _ Hempty Hupd _ IH]; intros Hw t;
    [simpl; lia|].
  assert (Hw1 : well_formed g1) by by eapply well_formed_upd.
  pose proof (count_of_set_data _ _ _ _ _ _ Hw Hx Hy Hempty Hupd t).
  specialize (IH Hw1 t). lia.
Qed.

Lemma coordinates_ok_set_data s (g g' : Grid) x y :
  well_formed g → in_bounds x → in_bounds y →
  upd_cell (Position.set_data s) g x y = Some g' →
  coordinates_ok g → coordinates_ok g'.
Proof.
  intros Hw Hx Hy Hupd Hok r c p Hr Hc Hp.
  rewrite (get_cell_upd _ _ _ _ _ _ _ Hw Hx Hy Hr Hc Hupd) in Hp.
  case_bool_decide as Heq; [|by apply Hok].
  destruct Heq as [-> ->].
  destruct (get_cell g x y) as [p0|] eqn:Hp0; simplify_eq/=.
  by apply Hok.
Qed.

Lemma placed_coordinates_ok s allowed n (g g' : Grid) :
  placed s allowed n g g' → well_formed g →
  coordinates_ok g → coordinates_ok g'.
Proof.
  induction 1 as [g|n g g1 g' x y Hx Hy _ _ Hupd _ IH]; intros Hw Hok;
    [done|].
  apply IH; [by eapply well_formed_upd|].
  exact (coordinates_ok_set_data _ _ _ _ _ Hw Hx Hy Hupd Hok).
Qed.

(** X1. When [generate_cats] returns, exactly [number] cells have changed:
    they are different cells of the edges of the board, each was empty and
    now holds a cat; the board shows [number] more cats and as many
    obstacles and players as before. *)
Theorem generate_cats_adds_cats_on_edges number (w w' : World) :
  well_formed (field_data w) → 0 <= number →
  generate_cats number w = (w', Ret tt) →
  (∃ cells : list (Z * Z),
     Z.of_nat (length cells) = number ∧ NoDup cells ∧
     (∀ x y, (x, y) ∈ cells →
        in_bounds x ∧ in_bounds y ∧ on_edge x y ∧
        data_at (field_data w) x y = Some EMPTY_SYMBOL ∧
        data_at (field_data w') x y = Some CAT_SYMBOL) ∧
     (∀ r c, in_bounds r → in_bounds c → (r, c) ∉ cells →
        data_at (field_data w') r c = data_at (field_data w) r c)) ∧
  count_of CAT_SYMBOL (field_data w')
    = (count_of CAT_SYMBOL (field_data w) + Z.to_nat number)%nat ∧
  count_of OBSTACLE_SYMBOL (field_data w')
    = count_of OBSTACLE_SYMBOL (field_data w) ∧
  count_of PLAYER_SYMBOL (field_data w')
    = count_of PLAYER_SYMBOL (field_data w).
Proof.
  intros Hw Hn H. unfold generate_cats in H.
  apply generate_cats_loop_placed in H as (n & Hplaced & Hcount); [|done].
  specialize (Hcount eq_refl).
  assert (Hne : CAT_SYMBOL ≠ EMPTY_SYMBOL) by discriminate.
  destruct (placed_cells _ _ _ _ _ Hne Hplaced Hw)
    as (cells & Hlen & Hnd & Hcells & Hframe).
  pose proof (placed_count _ _ _ _ _ Hplaced Hw) as Hc.
  split_and!.
  - exists cells. split_and!; try done. lia.
  - specialize (Hc CAT_SYMBOL). unfold one_if in Hc. simpl in Hc. lia.
  - specialize (Hc OBSTACLE_SYMBOL). unfold one_if in Hc. simpl in Hc. lia.
  - specialize (Hc PLAYER_SYMBOL). unfold one_if in Hc. simpl in Hc. lia.
Qed.

Lemma generate_cats_adds_cats_on_edges_witness :
  well_formed (field_data (with_tape [1; 2; 3; 0] game_0)) ∧ 0 <= 2 ∧
  generate_cats 2 (with_tape [1; 2; 3; 0] game_0)
    = (game_0_two_cats.1, Ret tt) ∧
  count_of CAT_SYMBOL (field_data game_0_two_cats.1) = 3%nat.
Proof.
  assert (H1 : well_formed (field_data (with_tape [1; 2; 3; 0] game_0)))
    by concrete_grid_ok.
  assert (H2 : 0 <= 2) by lia.
  assert (H3 : generate_cats 2 (with_tape [1; 2; 3; 0] game_0)
               = (game_0_two_cats.1, Ret tt)) by reflexivity.
  split; [exact H1|]. split; [exact H2|]. split; [exact H3|].
  exact (proj1 (proj2
    (generate_cats_adds_cats_on_edges 2 _ _ H1 H2 H3))).
Defined.

(** ** A new game *)

Lemma generate_clear_board :
  ∃ g, generate_clear = Some g ∧ player_at_centre g ∧ coordinates_ok g ∧
       count_of PLAYER_SYMBOL g = 1%nat ∧ count_of CAT_SYMBOL g = 0%nat ∧
       count_of OBSTACLE_SYMBOL g = 0%nat ∧
       count_of EMPTY_SYMBOL g = 24%nat.
Proof.
  destruct generate_clear_player_at_centre as (g & Hg & Hp).
  exists g. split; [done|]. split; [done|].
  vm_compute in Hg. simplify_eq.
  split; [concrete_coordinates_ok|]. by split_and!.
Qed.

(** X2. The board of a new game: the player alone on the centre cell, one
    cat, on a cell of an edge, three obstacles and twenty empty cells, every
    cell storing its own coordinates. *)
Theorem new_game_board (w w' : World) :
  GameField_init w = (w', Ret tt) →
  player_at_centre (field_data w') ∧
  coordinates_ok (field_data w') ∧
  count_of PLAYER_SYMBOL (field_data w') = 1%nat ∧
  count_of CAT_SYMBOL (field_data w') = 1%nat ∧
  count_of OBSTACLE_SYMBOL (field_data w') = 3%nat ∧
  count_of EMPTY_SYMBOL (field_data w') = 20%nat ∧
  ∃ x y, in_bounds x ∧ in_bounds y ∧ on_edge x y ∧
         data_at (field_data w') x y = Some CAT_SYMBOL.
Proof.
  intros H.
  pose proof (GameField_init_player_at_centre _ _ _ H) as Hp'.
  destruct generate_clear_board
    as (g0 & Hg0 & [Hw0 _] & Hok0 & Hc0p & Hc0c & Hc0o & Hc0e).
  unfold GameField_init in H. rewrite Hg0 in H.
  apply bind_Ret_inv in H as (g & w1 & Hret & H).
  unfold indexed, ret in Hret. simplify_eq.
  apply bind_Ret_inv in H as ([] & w2 & Hput & H).
  unfold put_field in Hput. simplify_eq.
  apply bind_Ret_inv in H as ([] & w3 & Hcats & Hobs).
  unfold generate_cats in Hcats. unfold generate_obstacles in Hobs.
  apply generate_cats_loop_placed in Hcats as (n1 & Hp1 & Hn1); [|done].
  specialize (Hn1 eq_refl). simpl in Hp1.
  assert (n1 = 1%nat) as -> by lia.
  assert (Hw3 : well_formed (field_data w3))
    by (eapply placed_well_formed; eauto).
  apply generate_obstacles_loop_placed in Hobs as (n2 & Hp2 & Hn2); [|done].
  specialize (Hn2 eq_refl). assert (n2 = 3%nat) as -> by lia.
  pose proof (placed_count _ _ _ _ _ Hp1 Hw0) as Hc1.
  pose proof (placed_count _ _ _ _ _ Hp2 Hw3) as Hc2.
  split; [done|]. split.
  { eapply placed_coordinates_ok; [exact Hp2|done|].
    eapply placed_coordinates_ok; [exact Hp1|done..]. }
  assert (Hcount : ∀ t,
    (count_of t (field_data w') + 4 * one_if (t = EMPTY_SYMBOL)
     = count_of t g + one_if (t = CAT_SYMBOL)
       + 3 * one_if (t = OBSTACLE_SYMBOL))%nat).
  { intros t. specialize (Hc1 t). specialize (Hc2 t). lia. }
  split; [specialize (Hcount PLAYER_SYMBOL); unfold one_if in Hcount;
          simpl in Hcount; lia|].
  split; [specialize (Hcount CAT_SYMBOL); unfold one_if in Hcount;
          simpl in Hcount; lia|].
  split; [specialize (Hcount OBSTACLE_SYMBOL); unfold one_if in Hcount;
          simpl in Hcount; lia|].
  split; [specialize (Hcount EMPTY_SYMBOL); unfold one_if in Hcount;
          simpl in Hcount; lia|].
  destruct (placed_one _ _ _ _ Hw0 Hp1) as (x & y & Hx & Hy & Hedge & _ & Hd1).
  assert (Hne : OBSTACLE_SYMBOL ≠ EMPTY_SYMBOL) by discriminate.
  destruct (placed_cells _ _ _ _ _ Hne Hp2 Hw3)
    as (cells & _ & _ & Hcells & Hframe).
  exists x, y. split_and!; try done.
  assert (Hcat1 : data_at (field_data w3) x y = Some CAT_SYMBOL).
  { rewrite Hd1 by done. by rewrite bool_decide_eq_true_2. }
  rewrite Hframe; [done..|]. intros Hin.
  destruct (Hcells x y Hin) as (_ & _ & _ & Hold & _). congruence.
Qed.

Lemma new_game_board_witness :
  GameField_init (mkWorld [] [0; 0; 4; 4; 4; 3; 0; 4]) = (game_0, Ret tt) ∧
  player_at_centre (field_data game_0) ∧
  coordinates_ok (field_data game_0) ∧
  count_of PLAYER_SYMBOL (field_data game_0) = 1%nat ∧
  count_of CAT_SYMBOL (field_data game_0) = 1%nat ∧
  count_of OBSTACLE_SYMBOL (field_data game_0) = 3%nat ∧
  count_of EMPTY_SYMBOL (field_data game_0) = 20%nat ∧
  ∃ x y, in_bounds x ∧ in_bounds y ∧ on_edge x y ∧
         data_at (field_data game_0) x y = Some CAT_SYMBOL.
Proof.
  assert (H : GameField_init (mkWorld [] [0; 0; 4; 4; 4; 3; 0; 4])
              = (game_0, Ret tt)) by reflexivity.
  split; [exact H|]. exact (new_game_board _ _ H).
Defined.

(** ** The cats' turn keeps the pieces *)

Lemma same_pieces_refl (w : World) : same_pieces w w.
Proof. by split_and!. Qed.

Lemma same_pieces_trans (w1 w2 w3 : World) :
  same_pieces w1 w2 → same_pieces w2 w3 → same_pieces w1 w3.
Proof.
  intros (Ht1 & Hc1 & Hd1) (Ht2 & Hc2 & Hd2). split_and!.
  - congruence.
  - intros t. by rewrite Hc2.
  - intros r c Hr Hc.
    destruct (Hd1 r c Hr Hc) as (Ho1 & Hp1 & Hx1).
    destruct (Hd2 r c Hr Hc) as (Ho2 & Hp2 & Hx2).
    split_and!; [by rewrite Ho2|by rewrite Hp2|congruence].
Qed.

Lemma coords_at_set_data s (g g' : Grid) x y r c :
  well_formed g → in_bounds x → in_bounds y → in_bounds r → in_bounds c →
  upd_cell (Position.set_data s) g x y = Some g' →
  coords_at g' r c = coords_at g r c.
Proof.
  intros Hw Hx Hy Hr Hc Hupd. unfold coords_at.
  rewrite (get_cell_upd _ _ _ _ _ _ _ Hw Hx Hy Hr Hc Hupd).
  case_bool_decide as Heq; [|done]. destruct Heq as [-> ->].
  by destruct (get_cell g x y).
Qed.

Lemma move_cat_same_pieces (w w' : World) (res : res unit) r c :
  well_formed (field_data w) → in_bounds r → in_bounds c →
  data_at (field_data w) r c = Some CAT_SYMBOL →
  move_cat r c w = (w', res) →
  same_pieces w w'.
Proof.
  intros Hw Hr Hc Hcat Hrun.
  destruct (move_cat_spec w r c Hw Hr Hc)
    as (centre & x & y & g1 & g2 & _ & Hx & Hy & Hdest & _ & Hg1 & Hg2
        & Hrun').
  rewrite Hrun' in Hrun. simplify_eq.
  assert (Hw1 : well_formed g1) by by eapply well_formed_upd.
  assert (Hd1 : ∀ r' c', in_bounds r' → in_bounds c' →
            data_at g1 r' c' =
              if bool_decide (r' = r ∧ c' = c) then Some EMPTY_SYMBOL
              else data_at (field_data w) r' c')
    by (intros; by eapply data_at_set_data).
  assert (Hd2 : ∀ r' c', in_bounds r' → in_bounds c' →
            data_at g2 r' c' =
              if bool_decide (r' = x ∧ c' = y) then Some CAT_SYMBOL
              else data_at g1 r' c')
    by (intros; by eapply data_at_set_data).
  assert (Hempty1 : data_at g1 x y = Some EMPTY_SYMBOL).
  { rewrite Hd1 by done. case_bool_decide as Heq; [done|].
    destruct Hdest as [?|[? _]]; [|done]. simplify_eq. tauto. }
  split_and!; simpl.
  - done.
  - intros t.
    pose proof (count_of_set_data _ _ _ _ _ _ Hw Hr Hc Hcat Hg1 t).
    pose proof (count_of_set_data _ _ _ _ _ _ Hw1 Hx Hy Hempty1 Hg2 t).
    lia.
  - intros r' c' Hr' Hc'. rewrite Hd2, Hd1 by done.
    assert (Hxy : ∃ s, data_at (field_data w) x y = Some s
                       ∧ (s = CAT_SYMBOL ∨ s = EMPTY_SYMBOL)).
    { destruct Hdest as [?|[? _]]; simplify_eq; eauto. }
    destruct Hxy as (sxy & Hsxy & Hkind).
    split_and!.
    + case_bool_decide as H1.
      { destruct H1 as [-> ->]. rewrite Hsxy.
        split; [done|]. destruct Hkind; congruence. }
      case_bool_decide as H2; [|done].
      destruct H2 as [-> ->]. rewrite Hcat. done.
    + case_bool_decide as H1.
      { destruct H1 as [-> ->]. rewrite Hsxy.
        split; [done|]. destruct Hkind; congruence. }
      case_bool_decide as H2; [|done].
      destruct H2 as [-> ->]. rewrite Hcat. done.
    + rewrite (coords_at_set_data _ _ _ _ _ _ _ Hw1 Hx Hy Hr' Hc' Hg2).
      by rewrite (coords_at_set_data _ _ _ _ _ _ _ Hw Hr Hc Hr' Hc' Hg1).
Qed.

Lemma cats_in_row_log_same_pieces row cols (w w' : World) res :
  well_formed (field_data w) → in_bounds row → Forall in_bounds cols →
  cats_in_row_log row cols w = (w', res) →
  same_pieces w w'.
Proof.
  intros Hw Hrow Hcols. revert w w' res Hw.
  induction Hcols as [|col cols Hcol _ IH]; intros w w' res Hw H;
    simpl in H.
  { unfold ret in H. simplify_eq. apply same_pieces_refl. }
  rewrite bind_run, read_data_run in H.
  destruct (data_at (field_data w) row col) as [s|] eqn:Hs;
    [|simplify_eq; apply same_pieces_refl].
  case_bool_decide as Hcat; [subst s|by eapply IH].
  rewrite bind_run in H.
  destruct (move_cat row col w) as [w1 r1] eqn:Hmove.
  pose proof (move_cat_same_pieces _ _ _ _ _ Hw Hrow Hcol Hs Hmove) as H1.
  assert (Hw1 : well_formed (field_data w1))
    by exact (well_formed_move_cat _ _ _ _ _ Hw Hmove).
  destruct r1 as [[]| |]; [|by simplify_eq..].
  rewrite bind_run in H.
  destruct (is_game_over w1) as [w2 r2] eqn:Hover.
  apply any_cat_pure in Hover as ->.
  destruct r2 as [[|]| |]; try (unfold ret in H; by simplify_eq).
  rewrite bind_run in H.
  destruct (cats_in_row_log row cols w1) as [w3 r3] eqn:Hrest.
  apply IH in Hrest; [|done].
  assert (w' = w3) as ->
    by (destruct r3 as [[? ?]| |]; unfold ret in H; by simplify_eq).
  by eapply same_pieces_trans.
Qed.

Lemma cats_in_rows_log_same_pieces rows (w w' : World) res :
  well_formed (field_data w) → Forall in_bounds rows →
  cats_in_rows_log rows w = (w', res) →
  same_pieces w w'.
Proof.
  intros Hw Hrows. revert w w' res Hw.
  induction Hrows as [|row rows Hrow _ IH]; intros w w' res Hw H;
    simpl in H.
  { unfold ret in H. simplify_eq. apply same_pieces_refl. }
  rewrite bind_run in H.
  destruct (cats_in_row_log row (range FIELD_SIZE) w) as [w1 r1] eqn:Hhere.
  pose proof (cats_in_row_log_same_pieces _ _ _ _ _ Hw Hrow range_in_bounds
                Hhere) as H1.
  destruct (cats_in_row_log_total row (range FIELD_SIZE) w Hw Hrow
              range_in_bounds) as (w1' & b & log & Hhere' & Hw1).
  rewrite Hhere in Hhere'. simplify_eq. simpl in H.
  destruct b; [unfold ret in H; by simplify_eq|].
  rewrite bind_run in H.
  destruct (cats_in_rows_log rows w1') as [w2 r2] eqn:Hbelow.
  apply IH in Hbelow; [|done].
  assert (w' = w2) as ->
    by (destruct r2; unfold ret in H; by simplify_eq).
  by eapply same_pieces_trans.
Qed.

(** X3. On a board of the right shape [proceed_cats_turn] returns without
    calling [random], and the board it leaves shows as many cats, obstacles,
    players and empty cells as before, with every obstacle and the player
    on the cells they were on and the stored coordinates unchanged: cats
    are moved, never lost, doubled or turned into something else. *)
Theorem cats_turn_keeps_the_pieces (w : World) :
  well_formed (field_data w) →
  ∃ w', proceed_cats_turn w = (w', Ret tt) ∧ same_pieces w w'.
Proof.
  intros Hw.
  destruct (cats_in_rows_log_total (range FIELD_SIZE) w Hw range_in_bounds)
    as (w' & log & H).
  exists w'. split.
  - unfold proceed_cats_turn. rewrite cats_in_rows_log_erase. by rewrite H.
  - by eapply cats_in_rows_log_same_pieces; [|apply range_in_bounds|].
Qed.

Lemma cats_turn_keeps_the_pieces_witness :
  well_formed (field_data game_0) ∧
  ∃ w', proceed_cats_turn game_0 = (w', Ret tt) ∧ same_pieces game_0 w'.
Proof.
  assert (H : well_formed (field_data game_0)) by concrete_grid_ok.
  split; [exact H|]. exact (cats_turn_keeps_the_pieces game_0 H).
Defined.

(** ** The four shifts, cell by cell *)

#[local] Transparent range range_down.

(** The loops of a shift are run on the twenty-five cells of the board, the
    updates of the coordinates left as they are written. *)
Ltac run_cells H :=
  cbv -[Position.add_y Position.add_x Position.set_data] in H.

Lemma range_2 : range 2 = [0; 1].
Proof. reflexivity. Qed.

(** One obstacle of a horizontal shift. *)
Lemma random_obstacle_inv col (w w' : World) :
  well_formed (field_data w) → in_bounds col →
  (randint 0 (FIELD_SIZE - 1) ≫= λ random_row,
     write_data random_row col OBSTACLE_SYMBOL) w = (w', Ret tt) →
  ∃ n t,
    tape w = n :: t ∧ tape w' = t ∧ well_formed (field_data w') ∧
    ∀ r c, in_bounds r → in_bounds c →
      get_cell (field_data w') r c =
        if bool_decide (r = n `mod` 5 ∧ c = col)
        then Position.set_data OBSTACLE_SYMBOL <$> get_cell (field_data w) r c
        else get_cell (field_data w) r c.
Proof.
  intros Hw Hcol H. rewrite bind_run, randint_run in H.
  destruct (tape w) as [|n t] eqn:Ht; [done|].
  unfold write_data in H. rewrite modify_cell_run in H. simpl in H.
  destruct (upd_cell _ _ _ _) as [g'|] eqn:Hupd; [|done].
  simplify_eq. exists n, t. simpl. constants.
  change (FIELD_SIZE - 1 - 0 + 1) with 5 in Hupd.
  change (4 - 0 + 1) with 5 in Hupd.
  assert (Hk : in_bounds (0 + n `mod` 5)).
  { unfold in_bounds, FIELD_SIZE. pose proof (Z.mod_pos_bound n 5). lia. }
  split_and!; try done; [by eapply well_formed_upd|].
  intros r c Hr Hc.
  rewrite (get_cell_upd _ _ _ _ _ _ _ Hw Hk Hcol Hr Hc Hupd).
  destruct (decide (r = n `mod` 5 ∧ c = col)) as [[-> ->]|Hne].
  - rewrite !bool_decide_eq_true_2 by (split; lia).
    by replace (0 + n `mod` 5) with (n `mod` 5) by lia.
  - rewrite !bool_decide_eq_false_2; [done|done|]. intros [? ?]. apply Hne. lia.
Qed.

Lemma two_obstacles_inv col (w w' : World) :
  well_formed (field_data w) → in_bounds col →
  for_each (range 2) (λ _,
    randint 0 (FIELD_SIZE - 1) ≫= λ random_row,
      write_data random_row col OBSTACLE_SYMBOL) w = (w', Ret tt) →
  ∃ n1 n2 t,
    tape w = n1 :: n2 :: t ∧ tape w' = t ∧ well_formed (field_data w') ∧
    ∀ r c, in_bounds r → in_bounds c →
      get_cell (field_data w') r c =
        if bool_decide (c = col ∧ (r = n1 `mod` 5 ∨ r = n2 `mod` 5))
        then Position.set_data OBSTACLE_SYMBOL <$> get_cell (field_data w) r c
        else get_cell (field_data w) r c.
Proof.
  intros Hw Hcol H. rewrite range_2 in H. simpl for_each in H.
  apply bind_Ret_inv in H as ([] & w1 & H1 & H).
  apply bind_Ret_inv in H as ([] & w2 & H2 & Hret).
  unfold ret in Hret. injection Hret as ->.
  apply random_obstacle_inv in H1 as (n1 & t1 & Ht1 & Ht1' & Hw1 & Hc1);
    [|done..].
  apply random_obstacle_inv in H2 as (n2 & t2 & Ht2 & Ht2' & Hw2 & Hc2);
    [|done..].
  exists n1, n2, t2. split_and!; try done; [congruence|].
  intros r c Hr Hc. rewrite Hc2, Hc1 by done.
  repeat case_bool_decide; try done; try (exfalso; tauto).
  destruct (get_cell (field_data w) r c) as [[? ? ?]|]; done.
Qed.

Ltac cells r c Hr Hc :=
  destruct (in_bounds_cases r Hr) as [->|[->|[->|[->| ->]]]];
  destruct (in_bounds_cases c Hc) as [->|[->|[->|[->| ->]]]].

Lemma move_objects_left_cells (w w' : World) :
  well_formed (field_data w) →
  move_objects "left" w = (w', Ret tt) →
  ∃ n1 n2 t,
    tape w = n1 :: n2 :: t ∧ tape w' = t ∧
    ∀ r c, in_bounds r → in_bounds c →
      get_cell (field_data w') r c =
        if bool_decide (c = FIELD_SIZE - 1) then
          Some (Position.mk r c
                  (edge_data (r = n1 `mod` 5 ∨ r = n2 `mod` 5)))
        else
          (λ p, Position.mk (Position.x p) (Position.y p - 1)
                  (shifted_data r c r (c + 1) (Position.data p)))
            <$> get_cell (field_data w) r (c + 1).
Proof.
  intros Hw H. destruct w as [g tp]. simpl in Hw.
  explicit_grid g Hw. subst g. unfold move_objects in H.
  apply bind_Ret_inv in H as ([] & w1 & Hclear & H).
  apply bind_Ret_inv in H as ([] & w2 & Hshift & Hplayer).
  run_cells Hclear. injection Hclear as <-.
  unfold move_objects_match in Hshift.
  change (String.eqb "left" "left") with true in Hshift. cbv iota in Hshift.
  apply bind_Ret_inv in Hshift as ([] & w3 & Hrows & Hobst).
  run_cells Hrows. injection Hrows as <-.
  apply two_obstacles_inv in Hobst as (n1 & n2 & t & Ht & Ht' & Hw2 & Hc2);
    [|simpl; concrete_grid_ok|done].
  simpl in Ht. subst tp.
  unfold write_data in Hplayer. rewrite modify_cell_run in Hplayer.
  destruct (upd_cell _ _ _ _) as [g'|] eqn:Hupd; [|done].
  injection Hplayer as <-. simpl.
  exists n1, n2, t. split_and!; [done..|].
  intros r c Hr Hc.
  rewrite (get_cell_upd _ _ _ _ _ _ _ Hw2 in_bounds_MIDDLE_POS
             in_bounds_MIDDLE_POS Hr Hc Hupd).
  rewrite !Hc2 by (done || apply in_bounds_MIDDLE_POS).
  simpl field_data. unfold shifted_data, edge_data. constants.
  cells r c Hr Hc;
    repeat (case_bool_decide; try lia);
    repeat (case_decide; try lia); try reflexivity; try (exfalso; tauto).
Qed.

Lemma move_objects_right_cells (w w' : World) :
  well_formed (field_data w) →
  move_objects "right" w = (w', Ret tt) →
  ∃ n1 n2 t,
    tape w = n1 :: n2 :: t ∧ tape w' = t ∧
    ∀ r c, in_bounds r → in_bounds c →
      get_cell (field_data w') r c =
        if bool_decide (c = 0) then
          Some (Position.mk r c
                  (edge_data (r = n1 `mod` 5 ∨ r = n2 `mod` 5)))
        else
          (λ p, Position.mk (Position.x p) (Position.y p + 1)
                  (shifted_data r c r (c - 1) (Position.data p)))
            <$> get_cell (field_data w) r (c - 1).
Proof.
  intros Hw H. destruct w as [g tp]. simpl in Hw.
  explicit_grid g Hw. subst g. unfold move_objects in H.
  apply bind_Ret_inv in H as ([] & w1 & Hclear & H).
  apply bind_Ret_inv in H as ([] & w2 & Hshift & Hplayer).
  run_cells Hclear. injection Hclear as <-.
  unfold move_objects_match in Hshift.
  change (String.eqb "right" "left") with false in Hshift.
  change (String.eqb "right" "right") with true in Hshift.
  cbv iota in Hshift.
  apply bind_Ret_inv in Hshift as ([] & w3 & Hrows & Hobst).
  run_cells Hrows. injection Hrows as <-.
  apply two_obstacles_inv in Hobst as (n1 & n2 & t & Ht & Ht' & Hw2 & Hc2);
    [|simpl; concrete_grid_ok|done].
  simpl in Ht. subst tp.
  unfold write_data in Hplayer. rewrite modify_cell_run in Hplayer.
  destruct (upd_cell _ _ _ _) as [g'|] eqn:Hupd; [|done].
  injection Hplayer as <-. simpl.
  exists n1, n2, t. split_and!; [done..|].
  intros r c Hr Hc.
  rewrite (get_cell_upd _ _ _ _ _ _ _ Hw2 in_bounds_MIDDLE_POS
             in_bounds_MIDDLE_POS Hr Hc Hupd).
  rewrite !Hc2 by (done || apply in_bounds_MIDDLE_POS).
  simpl field_data. unfold shifted_data, edge_data. constants.
  cells r c Hr Hc;
    repeat (case_bool_decide; try lia);
    repeat (case_decide; try lia); try reflexivity; try (exfalso; tauto).
Qed.

(** The row that [generate_row] returns: empty cells numbered by the row
    index and the columns, one of them made an obstacle. *)
Lemma generate_row_inv i (w w' : World) row :
  generate_row i w = (w', Ret row) →
  ∃ n t,
    tape w = n :: t ∧ w' = mkWorld (field_data w) t ∧
    length row = 5%nat ∧
    ∀ c, in_bounds c →
      getitem row c =
        Some (Position.mk i c (edge_data (c = n `mod` 5))).
Proof.
  unfold generate_row. change (Z.to_nat (FIELD_SIZE `div` 3)) with 1%nat.
  rewrite range_FIELD_SIZE. simpl fmap. simpl generate_row_obstacles.
  intros H. apply bind_Ret_inv in H as (k & w1 & Hk & H).
  unfold choice_index in Hk. rewrite bind_run in Hk. unfold draw in Hk.
  destruct (tape w) as [|n t] eqn:Ht; [done|].
  rewrite bool_decide_eq_false_2 in Hk by done.
  unfold ret in Hk. injection Hk as <- <-.
  exists n, t. split; [done|].
  assert (Hb : in_bounds (n `mod` 5)).
  { unfold in_bounds, FIELD_SIZE. pose proof (Z.mod_pos_bound n 5). lia. }
  change (Z.of_nat (length _)) with 5 in H.
  change (Z.of_nat 5) with 5 in H.
  destruct (in_bounds_cases _ Hb) as [Hn|[Hn|[Hn|[Hn|Hn]]]];
    rewrite Hn in H |- *; cbv in H; injection H as <- <-;
    (split_and!; [done..|]); intros c Hc; unfold edge_data;
    destruct (in_bounds_cases c Hc) as [->|[->|[->|[->| ->]]]];
    reflexivity.
Qed.

Lemma move_objects_up_cells (w w' : World) :
  well_formed (field_data w) →
  move_objects "up" w = (w', Ret tt) →
  ∃ n t,
    tape w = n :: t ∧ tape w' = t ∧
    ∀ r c, in_bounds r → in_bounds c →
      get_cell (field_data w') r c =
        if bool_decide (r = FIELD_SIZE - 1) then
          Some (Position.mk r c (edge_data (c = n `mod` 5)))
        else
          (λ p, Position.mk
                  (if bool_decide (c = FIELD_SIZE - 1) then Position.x p
                   else Position.x p - 1)
                  (Position.y p)
                  (shifted_data r c (r + 1) c (Position.data p)))
            <$> get_cell (field_data w) (r + 1) c.
Proof.
  intros Hw H. destruct w as [g tp]. simpl in Hw.
  explicit_grid g Hw. subst g. unfold move_objects in H.
  apply bind_Ret_inv in H as ([] & w1 & Hclear & H).
  apply bind_Ret_inv in H as ([] & w2 & Hshift & Hplayer).
  run_cells Hclear. injection Hclear as <-.
  unfold move_objects_match in Hshift.
  change (String.eqb "up" "left") with false in Hshift.
  change (String.eqb "up" "right") with false in Hshift.
  change (String.eqb "up" "up") with true in Hshift.
  cbv iota in Hshift.
  apply bind_Ret_inv in Hshift as ([] & w3 & Hrows & Hnew).
  run_cells Hrows. injection Hrows as <-.
  apply bind_Ret_inv in Hnew as (row & w4 & Hrow & Hwrite).
  apply generate_row_inv in Hrow as (n & t & Ht & -> & Hlen & Hcells).
  simpl in Ht. subst tp.
  run_cells Hwrite. injection Hwrite as <-.
  do 6 (destruct row as [|? row]; try discriminate Hlen).
  run_cells Hplayer. injection Hplayer as <-. simpl.
  exists n, t. split_and!; [done..|].
  intros r c Hr Hc.
  unfold shifted_data. constants.
  cells r c Hr Hc;
    repeat (case_bool_decide; try lia); try reflexivity;
    try (rewrite <- Hcells by (unfold in_bounds, FIELD_SIZE; lia);
         reflexivity);
    try (cbv; match goal with |- Some ?a = _ => by destruct a end).
Qed.

Lemma move_objects_down_cells (w w' : World) :
  well_formed (field_data w) →
  move_objects "down" w = (w', Ret tt) →
  ∃ n t,
    tape w = n :: t ∧ tape w' = t ∧
    ∀ r c, in_bounds r → in_bounds c →
      get_cell (field_data w') r c =
        if bool_decide (r = 0) then
          Some (Position.mk r c (edge_data (c = n `mod` 5)))
        else
          (λ p, Position.mk
                  (if bool_decide (c = FIELD_SIZE - 1) then Position.x p
                   else Position.x p + 1)
                  (Position.y p)
                  (shifted_data r c (r - 1) c (Position.data p)))
            <$> get_cell (field_data w) (r - 1) c.
Proof.
  intros Hw H. destruct w as [g tp]. simpl in Hw.
  explicit_grid g Hw. subst g. unfold move_objects in H.
  apply bind_Ret_inv in H as ([] & w1 & Hclear & H).
  apply bind_Ret_inv in H as ([] & w2 & Hshift & Hplayer).
  run_cells Hclear. injection Hclear as <-.
  unfold move_objects_match in Hshift.
  change (String.eqb "down" "left") with false in Hshift.
  change (String.eqb "down" "right") with false in Hshift.
  change (String.eqb "down" "up") with false in Hshift.
  change (String.eqb "down" "down") with true in Hshift.
  cbv iota in Hshift.
  apply bind_Ret_inv in Hshift as ([] & w3 & Hrows & Hnew).
  run_cells Hrows. injection Hrows as <-.
  apply bind_Ret_inv in Hnew as (row & w4 & Hrow & Hwrite).
  apply generate_row_inv in Hrow as (n & t & Ht & -> & Hlen & Hcells).
  simpl in Ht. subst tp.
  run_cells Hwrite. injection Hwrite as <-.
  do 6 (destruct row as [|? row]; try discriminate Hlen).
  run_cells Hplayer. injection Hplayer as <-. simpl.
  exists n, t. split_and!; [done..|].
  intros r c Hr Hc.
  unfold shifted_data. constants.
  cells r c Hr Hc;
    repeat (case_bool_decide; try lia); try reflexivity;
    try (rewrite <- Hcells by (unfold in_bounds, FIELD_SIZE; lia);
         reflexivity);
    try (cbv; match goal with |- Some ?a = _ => by destruct a end).
Qed.

(** *** The shifts return *)

Lemma random_obstacle_run col (w : World) n t :
  well_formed (field_data w) → in_bounds col → tape w = n :: t →
  ∃ w',
    (randint 0 (FIELD_SIZE - 1) ≫= λ random_row,
       write_data random_row col OBSTACLE_SYMBOL) w = (w', Ret tt) ∧
    tape w' = t ∧ well_formed (field_data w').
Proof.
  intros Hw Hcol Ht. rewrite bind_run, randint_run, Ht.
  unfold write_data. rewrite modify_cell_run. simpl.
  assert (Hk : in_bounds (0 + n `mod` (FIELD_SIZE - 1 - 0 + 1))).
  { change (FIELD_SIZE - 1 - 0 + 1) with 5.
    unfold in_bounds, FIELD_SIZE. pose proof (Z.mod_pos_bound n 5). lia. }
  destruct (upd_cell_Some (Position.set_data OBSTACLE_SYMBOL) _ _ _ Hw Hk Hcol)
    as [g' Hg'].
  rewrite Hg'. eexists. split_and!; [done..|]. by eapply well_formed_upd.
Qed.

Lemma two_obstacles_run col (w : World) n1 n2 t :
  well_formed (field_data w) → in_bounds col → tape w = n1 :: n2 :: t →
  ∃ w',
    for_each (range 2) (λ _,
      randint 0 (FIELD_SIZE - 1) ≫= λ random_row,
        write_data random_row col OBSTACLE_SYMBOL) w = (w', Ret tt) ∧
    well_formed (field_data w').
Proof.
  intros Hw Hcol Ht. rewrite range_2. simpl for_each.
  destruct (random_obstacle_run col w n1 (n2 :: t) Hw Hcol Ht)
    as (w1 & H1 & Ht1 & Hw1).
  destruct (random_obstacle_run col w1 n2 t Hw1 Hcol Ht1)
    as (w2 & H2 & Ht2 & Hw2).
  exists w2. split; [|done].
  rewrite bind_run, H1, bind_run, H2. done.
Qed.

Lemma generate_row_run i (w : World) n t :
  tape w = n :: t →
  ∃ row,
    generate_row i w = (mkWorld (field_data w) t, Ret row) ∧
    length row = 5%nat.
Proof.
  intros Ht.
  unfold generate_row. change (Z.to_nat (FIELD_SIZE `div` 3)) with 1%nat.
  rewrite range_FIELD_SIZE. simpl fmap. simpl generate_row_obstacles.
  rewrite bind_run. unfold choice_index. rewrite bind_run. unfold draw.
  rewrite Ht. rewrite bool_decide_eq_false_2 by done. unfold ret at 1.
  change (Z.of_nat (length _)) with 5.
  assert (Hb : in_bounds (n `mod` 5)).
  { unfold in_bounds, FIELD_SIZE. pose proof (Z.mod_pos_bound n 5). lia. }
  destruct (in_bounds_cases _ Hb) as [Hn|[Hn|[Hn|[Hn|Hn]]]];
    rewrite Hn; eexists; split; reflexivity.
Qed.

Lemma move_objects_returns direction (w : World) :
  well_formed (field_data w) →
  direction ∈ ["left"; "right"; "up"; "down"] →
  (2 ≤ length (tape w))%nat →
  ∃ w', move_objects direction w = (w', Ret tt).
Proof.
  intros Hw Hdir Htape. destruct w as [g tp]. simpl in Hw, Htape.
  destruct tp as [|n1 [|n2 t]]; simpl in Htape; try lia. clear Htape.
  explicit_grid g Hw. subst g. unfold move_objects.
  rewrite bind_run.
  destruct (write_data MIDDLE_POS MIDDLE_POS EMPTY_SYMBOL _) as [w1 r1] eqn:H1.
  run_cells H1. injection H1 as <- <-.
  rewrite bind_run.
  assert (Hmatch : ∃ w2,
    move_objects_match direction
      {| field_data :=
           [[a00; a01; a02; a03; a04]; [a10; a11; a12; a13; a14];
            [a20; a21; Position.set_data EMPTY_SYMBOL a22; a23; a24];
            [a30; a31; a32; a33; a34]; [a40; a41; a42; a43; a44]];
         tape := n1 :: n2 :: t |} = (w2, Ret tt)
    ∧ well_formed (field_data w2)).
  { unfold move_objects_match.
    repeat (apply elem_of_cons in Hdir as [->|Hdir]);
      [| | | |by apply elem_of_nil in Hdir].
    - change (String.eqb "left" "left") with true. cbv iota.
      rewrite bind_run.
      match goal with |- context [for_each (range FIELD_SIZE) ?b ?w] =>
        destruct (for_each (range FIELD_SIZE) b w) as [w3 r3] eqn:H3 end.
      run_cells H3. injection H3 as <- <-.
      apply (two_obstacles_run _ _ n1 n2 t);
        [simpl; concrete_grid_ok|done|done].
    - change (String.eqb "right" "left") with false.
      change (String.eqb "right" "right") with true. cbv iota.
      rewrite bind_run.
      match goal with |- context [for_each (range FIELD_SIZE) ?b ?w] =>
        destruct (for_each (range FIELD_SIZE) b w) as [w3 r3] eqn:H3 end.
      run_cells H3. injection H3 as <- <-.
      apply (two_obstacles_run _ _ n1 n2 t);
        [simpl; concrete_grid_ok|done|done].
    - change (String.eqb "up" "left") with false.
      change (String.eqb "up" "right") with false.
      change (String.eqb "up" "up") with true. cbv iota.
      rewrite bind_run.
      match goal with |- context [for_each (range (FIELD_SIZE - 1)) ?b ?w] =>
        destruct (for_each (range (FIELD_SIZE - 1)) b w) as [w3 r3] eqn:H3 end.
      run_cells H3. injection H3 as <- <-.
      rewrite bind_run.
      match goal with |- context [generate_row ?i ?w] =>
        destruct (generate_row_run i w n1 (n2 :: t) eq_refl)
          as (row & -> & Hlen) end.
      rewrite write_row_run. simpl.
      eexists. split; [reflexivity|]. split; [reflexivity|].
      repeat first [apply Forall_nil_2 | apply Forall_cons_2 | split
                   | reflexivity | exact I | exact Hlen
                   | by apply Forall_true].
    - change (String.eqb "down" "left") with false.
      change (String.eqb "down" "right") with false.
      change (String.eqb "down" "up") with false.
      change (String.eqb "down" "down") with true. cbv iota.
      rewrite bind_run.
      match goal with |- context [for_each (range_down ?a ?z) ?b ?w] =>
        destruct (for_each (range_down a z) b w) as [w3 r3] eqn:H3 end.
      run_cells H3. injection H3 as <- <-.
      rewrite bind_run.
      match goal with |- context [generate_row ?i ?w] =>
        destruct (generate_row_run i w n1 (n2 :: t) eq_refl)
          as (row & -> & Hlen) end.
      rewrite write_row_run. simpl.
      eexists. split; [reflexivity|]. split; [reflexivity|].
      repeat first [apply Forall_nil_2 | apply Forall_cons_2 | split
                   | reflexivity | exact I | exact Hlen
                   | by apply Forall_true]. }
  destruct Hmatch as (w2 & -> & Hw2).
  unfold write_data. rewrite modify_cell_run.
  destruct (upd_cell_Some (Position.set_data PLAYER_SYMBOL) _ _ _ Hw2
              in_bounds_MIDDLE_POS in_bounds_MIDDLE_POS) as [g' ->].
  by eexists.
Qed.

(** ** A move of the player that is not blocked *)

Lemma move_player_unblocked direction x y opposite (w : World) :
  adjacent_to_centre direction = Some (x, y) →
  data_at (field_data w) x y = Some EMPTY_SYMBOL →
  DIRECTIONS !! direction = Some opposite →
  move_player direction w = move_objects opposite w.
Proof.
  intros Hadj Hd Hopp.
  pose proof (adjacent_to_centre_Some _ _ _ Hadj) as Hin.
  rewrite !elem_of_cons, elem_of_nil in Hin.
  destruct Hin as [->|[->|[->|[->|[]]]]]; vm_compute in Hadj, Hopp;
    simplify_eq;
    unfold move_player; rewrite bool_decide_eq_false_2 by done; simpl.
  all: constants; rewrite bind_run, read_data_run, Hd;
    by rewrite bool_decide_eq_true_2.
Qed.

Ltac in_bounds_lia := unfold in_bounds, FIELD_SIZE in *; lia.

(** X4. On a board of the right shape with two draws to come, a move of the
    player towards an empty cell returns normally and scrolls the view by
    one cell: the player symbol is on the centre, the cell the player left
    is empty, every other cell shows what the cell one step further in the
    direction of travel showed, and the cells that come into view are empty
    or hold an obstacle. *)
Theorem unblocked_move_scrolls_the_view direction x y (w : World) :
  well_formed (field_data w) →
  adjacent_to_centre direction = Some (x, y) →
  data_at (field_data w) x y = Some EMPTY_SYMBOL →
  (2 ≤ length (tape w))%nat →
  ∃ w',
    move_player direction w = (w', Ret tt) ∧
    ∀ r c, in_bounds r → in_bounds c →
      let r0 := r + (x - MIDDLE_POS) in
      let c0 := c + (y - MIDDLE_POS) in
      if bool_decide (r = MIDDLE_POS ∧ c = MIDDLE_POS) then
        data_at (field_data w') r c = Some PLAYER_SYMBOL
      else if bool_decide (r0 = MIDDLE_POS ∧ c0 = MIDDLE_POS) then
        data_at (field_data w') r c = Some EMPTY_SYMBOL
      else if bool_decide (in_bounds r0 ∧ in_bounds c0) then
        data_at (field_data w') r c = data_at (field_data w) r0 c0
      else
        data_at (field_data w') r c = Some EMPTY_SYMBOL ∨
        data_at (field_data w') r c = Some OBSTACLE_SYMBOL.
Proof.
  intros Hw Hadj Hd Ht.
  pose proof (adjacent_to_centre_Some _ _ _ Hadj) as Hin.
  rewrite !elem_of_cons, elem_of_nil in Hin.
  destruct Hin as [->|[->|[->|[->|[]]]]].
  - destruct (move_objects_returns "right" w Hw ltac:(set_solver) Ht)
      as [w' Hrun].
    exists w'. split;
      [by rewrite (move_player_unblocked "left" x y "right")|].
    destruct (move_objects_right_cells w w' Hw Hrun)
      as (n1 & n2 & t & _ & _ & Hcells).
    vm_compute in Hadj. simplify_eq.
    intros r c Hr Hc. cbv zeta. unfold data_at. rewrite (Hcells r c Hr Hc).
    destruct w as [g tp]. simpl in *. explicit_grid g Hw. subst g.
    unfold shifted_data, edge_data. constants.
    cells r c Hr Hc;
      repeat (case_bool_decide; try in_bounds_lia);
      repeat case_decide; simpl; auto.
  - destruct (move_objects_returns "left" w Hw ltac:(set_solver) Ht)
      as [w' Hrun].
    exists w'. split;
      [by rewrite (move_player_unblocked "right" x y "left")|].
    destruct (move_objects_left_cells w w' Hw Hrun)
      as (n1 & n2 & t & _ & _ & Hcells).
    vm_compute in Hadj. simplify_eq.
    intros r c Hr Hc. cbv zeta. unfold data_at. rewrite (Hcells r c Hr Hc).
    destruct w as [g tp]. simpl in *. explicit_grid g Hw. subst g.
    unfold shifted_data, edge_data. constants.
    cells r c Hr Hc;
      repeat (case_bool_decide; try in_bounds_lia);
      repeat case_decide; simpl; auto.
  - destruct (move_objects_returns "down" w Hw ltac:(set_solver) Ht)
      as [w' Hrun].
    exists w'. split;
      [by rewrite (move_player_unblocked "up" x y "down")|].
    destruct (move_objects_down_cells w w' Hw Hrun)
      as (n & t & _ & _ & Hcells).
    vm_compute in Hadj. simplify_eq.
    intros r c Hr Hc. cbv zeta. unfold data_at. rewrite (Hcells r c Hr Hc).
    destruct w as [g tp]. simpl in *. explicit_grid g Hw. subst g.
    unfold shifted_data, edge_data. constants.
    cells r c Hr Hc;
      repeat (case_bool_decide; try in_bounds_lia);
      repeat case_decide; simpl; auto.
  - destruct (move_objects_returns "up" w Hw ltac:(set_solver) Ht)
      as [w' Hrun].
    exists w'. split;
      [by rewrite (move_player_unblocked "down" x y "up")|].
    destruct (move_objects_up_cells w w' Hw Hrun)
      as (n & t & _ & _ & Hcells).
    vm_compute in Hadj. simplify_eq.
    intros r c Hr Hc. cbv zeta. unfold data_at. rewrite (Hcells r c Hr Hc).
    destruct w as [g tp]. simpl in *. explicit_grid g Hw. subst g.
    unfold shifted_data, edge_data. constants.
    cells r c Hr Hc;
      repeat (case_bool_decide; try in_bounds_lia);
      repeat case_decide; simpl; auto.
Qed.

Lemma unblocked_move_scrolls_the_view_witness :
  well_formed (field_data (with_tape [0; 1] game_0)) ∧
  adjacent_to_centre "left" = Some (2, 1) ∧
  data_at (field_data (with_tape [0; 1] game_0)) 2 1 = Some EMPTY_SYMBOL ∧
  (2 ≤ length (tape (with_tape [0%Z; 1%Z] game_0)))%nat ∧
  ∃ w',
    move_player "left" (with_tape [0; 1] game_0) = (w', Ret tt) ∧
    data_at (field_data w') 2 2 = Some PLAYER_SYMBOL ∧
    data_at (field_data w') 2 3 = Some EMPTY_SYMBOL ∧
    data_at (field_data w') 0 1 = data_at (field_data game_0) 0 0.
Proof.
  assert (H1 : well_formed (field_data (with_tape [0; 1] game_0)))
    by concrete_grid_ok.
  assert (H2 : adjacent_to_centre "left" = Some (2, 1)) by reflexivity.
  assert (H3 : data_at (field_data (with_tape [0; 1] game_0)) 2 1
               = Some EMPTY_SYMBOL) by reflexivity.
  assert (H4 : (2 ≤ length (tape (with_tape [0%Z; 1%Z] game_0)))%nat)
    by (simpl; lia).
  assert (H22 : in_bounds 2) by (unfold in_bounds, FIELD_SIZE; lia).
  assert (H23 : in_bounds 3) by (unfold in_bounds, FIELD_SIZE; lia).
  assert (H00 : in_bounds 0) by (unfold in_bounds, FIELD_SIZE; lia).
  assert (H01 : in_bounds 1) by (unfold in_bounds, FIELD_SIZE; lia).
  split; [exact H1|]. split; [exact H2|]. split; [exact H3|].
  split; [exact H4|].
  destruct (unblocked_move_scrolls_the_view "left" 2 1 _ H1 H2 H3 H4)
    as (w' & Hrun & Hcells).
  exists w'. split; [exact Hrun|]. split; [exact (Hcells 2 2 H22 H22)|].
  split; [exact (Hcells 2 3 H22 H23)|]. exact (Hcells 0 1 H00 H01).
Defined.

Lemma mod_5_in_bounds n : in_bounds (n `mod` 5).
Proof.
  unfold in_bounds, FIELD_SIZE. pose proof (Z.mod_pos_bound n 5). lia.
Qed.

(** X5. The edge that a shift brings into view holds obstacles and empty
    cells only: one obstacle after a vertical shift ([generate_row]), one or
    two after a horizontal shift (two draws that may fall on the same
    cell). *)
Theorem shift_brings_one_or_two_obstacles direction (w w' : World) :
  well_formed (field_data w) →
  direction ∈ ["left"; "right"; "up"; "down"] →
  move_objects direction w = (w', Ret tt) →
  ∃ k1 k2,
    in_bounds k1 ∧ in_bounds k2 ∧
    (direction = "up" ∨ direction = "down" → k1 = k2) ∧
    ∀ i, in_bounds i →
      ∃ r c,
        incoming_cell direction i = Some (r, c) ∧
        data_at (field_data w') r c =
          Some (if bool_decide (i = k1 ∨ i = k2) then OBSTACLE_SYMBOL
                else EMPTY_SYMBOL).
Proof.
  intros Hw Hin Hrun.
  assert (H0 : in_bounds 0) by in_bounds_lia.
  assert (H4 : in_bounds (FIELD_SIZE - 1)) by in_bounds_lia.
  rewrite !elem_of_cons, elem_of_nil in Hin.
  destruct Hin as [->|[->|[->|[->|[]]]]].
  - destruct (move_objects_left_cells w w' Hw Hrun)
      as (n1 & n2 & t & _ & _ & Hcells).
    exists (n1 `mod` 5), (n2 `mod` 5).
    split_and!; try apply mod_5_in_bounds; [by intros [|]|].
    intros i Hi. exists i, (FIELD_SIZE - 1). split; [done|].
    unfold data_at. rewrite (Hcells _ _ Hi H4).
    rewrite bool_decide_eq_true_2 by done. unfold edge_data. simpl.
    by destruct (decide _); [rewrite bool_decide_eq_true_2
                            |rewrite bool_decide_eq_false_2].
  - destruct (move_objects_right_cells w w' Hw Hrun)
      as (n1 & n2 & t & _ & _ & Hcells).
    exists (n1 `mod` 5), (n2 `mod` 5).
    split_and!; try apply mod_5_in_bounds; [by intros [|]|].
    intros i Hi. exists i, 0. split; [done|].
    unfold data_at. rewrite (Hcells _ _ Hi H0).
    rewrite bool_decide_eq_true_2 by done. unfold edge_data. simpl.
    by destruct (decide _); [rewrite bool_decide_eq_true_2
                            |rewrite bool_decide_eq_false_2].
  - destruct (move_objects_up_cells w w' Hw Hrun)
      as (n & t & _ & _ & Hcells).
    exists (n `mod` 5), (n `mod` 5).
    split_and!; try apply mod_5_in_bounds; [done|].
    intros i Hi. exists (FIELD_SIZE - 1), i. split; [done|].
    unfold data_at. rewrite (Hcells _ _ H4 Hi).
    rewrite bool_decide_eq_true_2 by done. unfold edge_data. simpl.
    by destruct (decide _); [rewrite bool_decide_eq_true_2 by tauto
                            |rewrite bool_decide_eq_false_2 by tauto].
  - destruct (move_objects_down_cells w w' Hw Hrun)
      as (n & t & _ & _ & Hcells).
    exists (n `mod` 5), (n `mod` 5).
    split_and!; try apply mod_5_in_bounds; [done|].
    intros i Hi. exists 0, i. split; [done|].
    unfold data_at. rewrite (Hcells _ _ H0 Hi).
    rewrite bool_decide_eq_true_2 by done. unfold edge_data. simpl.
    by destruct (decide _); [rewrite bool_decide_eq_true_2 by tauto
                            |rewrite bool_decide_eq_false_2 by tauto].
Qed.

Lemma shift_brings_one_or_two_obstacles_witness :
  well_formed (field_data (with_tape [0; 1] game_0)) ∧
  "left" ∈ ["left"; "right"; "up"; "down"] ∧
  move_objects "left" (with_tape [0; 1] game_0)
    = (game_0_shifted_left.1, Ret tt) ∧
  ∃ k1 k2,
    in_bounds k1 ∧ in_bounds k2 ∧
    ("left" = "up" ∨ "left" = "down" → k1 = k2) ∧
    ∀ i, in_bounds i →
      ∃ r c,
        incoming_cell "left" i = Some (r, c) ∧
        data_at (field_data game_0_shifted_left.1) r c =
          Some (if bool_decide (i = k1 ∨ i = k2) then OBSTACLE_SYMBOL
                else EMPTY_SYMBOL).
Proof.
  assert (H1 : well_formed (field_data (with_tape [0; 1] game_0)))
    by concrete_grid_ok.
  assert (H2 : "left" ∈ ["left"; "right"; "up"; "down"]) by (by left).
  assert (H3 : move_objects "left" (with_tape [0; 1] game_0)
               = (game_0_shifted_left.1, Ret tt)) by reflexivity.
  split; [exact H1|]. split; [exact H2|]. split; [exact H3|].
  exact (shift_brings_one_or_two_obstacles "left" _ _ H1 H2 H3).
Defined.

(** X6. On a board of the right shape with two draws to come,
    [move_objects] returns normally for each of the four directions, leaves
    a board of the right shape and takes two random values for a horizontal
    shift, one for a vertical shift. *)
Theorem shift_returns_and_draws direction (w : World) :
  well_formed (field_data w) →
  direction ∈ ["left"; "right"; "up"; "down"] →
  (2 ≤ length (tape w))%nat →
  ∃ w',
    move_objects direction w = (w', Ret tt) ∧
    well_formed (field_data w') ∧
    tape w' =
      drop (if bool_decide (direction = "left" ∨ direction = "right")
            then 2 else 1) (tape w).
Proof.
  intros Hw Hin Ht.
  destruct (move_objects_returns direction w Hw Hin Ht) as [w' Hrun].
  exists w'. split; [done|]. split.
  { by eapply (well_formed_move_objects direction w w'). }
  rewrite !elem_of_cons, elem_of_nil in Hin.
  destruct Hin as [->|[->|[->|[->|[]]]]].
  - destruct (move_objects_left_cells w w' Hw Hrun)
      as (n1 & n2 & t & -> & -> & _). done.
  - destruct (move_objects_right_cells w w' Hw Hrun)
      as (n1 & n2 & t & -> & -> & _). done.
  - destruct (move_objects_up_cells w w' Hw Hrun)
      as (n & t & -> & -> & _). done.
  - destruct (move_objects_down_cells w w' Hw Hrun)
      as (n & t & -> & -> & _). done.
Qed.

Lemma shift_returns_and_draws_witness :
  well_formed (field_data (with_tape [0; 1] game_0)) ∧
  "up" ∈ ["left"; "right"; "up"; "down"] ∧
  (2 ≤ length (tape (with_tape [0%Z; 1%Z] game_0)))%nat ∧
  ∃ w',
    move_objects "up" (with_tape [0; 1] game_0) = (w', Ret tt) ∧
    well_formed (field_data w') ∧
    tape w' =
      drop (if bool_decide ("up" = "left" ∨ "up" = "right")
            then 2%nat else 1%nat)
        (tape (with_tape [0; 1] game_0)).
Proof.
  assert (H1 : well_formed (field_data (with_tape [0; 1] game_0)))
    by concrete_grid_ok.
  assert (H2 : "up" ∈ ["left"; "right"; "up"; "down"])
    by (right; right; by left).
  assert (H3 : (2 ≤ length (tape (with_tape [0%Z; 1%Z] game_0)))%nat)
    by (simpl; lia).
  split; [exact H1|]. split; [exact H2|]. split; [exact H3|].
  exact (shift_returns_and_draws "up" _ H1 H2 H3).
Defined.

(** X7. The horizontal shifts keep the stored coordinates right: if every
    cell stores its own row and column before [move_objects('left')] or
    [move_objects('right')], every cell does after it. *)
Theorem horizontal_shift_keeps_coordinates direction (w w' : World) :
  well_formed (field_data w) → coordinates_ok (field_data w) →
  direction = "left" ∨ direction = "right" →
  move_objects direction w = (w', Ret tt) →
  coordinates_ok (field_data w').
Proof.
  intros Hw Hok [-> | ->] Hrun r c p Hr Hc Hp.
  - destruct (move_objects_left_cells w w' Hw Hrun)
      as (n1 & n2 & t & _ & _ & Hcells).
    rewrite (Hcells r c Hr Hc) in Hp.
    case_bool_decide as Hlast; [by simplify_eq|].
    assert (Hc' : in_bounds (c + 1)) by in_bounds_lia.
    destruct (get_cell (field_data w) r (c + 1)) as [q|] eqn:Hq; [|done].
    destruct (Hok r (c + 1) q Hr Hc' Hq) as [Hx Hy].
    simpl in Hp. simplify_eq. simpl. lia.
  - destruct (move_objects_right_cells w w' Hw Hrun)
      as (n1 & n2 & t & _ & _ & Hcells).
    rewrite (Hcells r c Hr Hc) in Hp.
    case_bool_decide as Hfirst; [by simplify_eq|].
    assert (Hc' : in_bounds (c - 1)) by in_bounds_lia.
    destruct (get_cell (field_data w) r (c - 1)) as [q|] eqn:Hq; [|done].
    destruct (Hok r (c - 1) q Hr Hc' Hq) as [Hx Hy].
    simpl in Hp. simplify_eq. simpl. lia.
Qed.

Lemma horizontal_shift_keeps_coordinates_witness :
  well_formed (field_data (with_tape [0; 1] game_0)) ∧
  coordinates_ok (field_data (with_tape [0; 1] game_0)) ∧
  ("right" = "left" ∨ "right" = "right") ∧
  move_objects "right" (with_tape [0; 1] game_0)
    = (game_0_shifted_right.1, Ret tt) ∧
  coordinates_ok (field_data game_0_shifted_right.1).
Proof.
  assert (H1 : well_formed (field_data (with_tape [0; 1] game_0)))
    by concrete_grid_ok.
  assert (H2 : coordinates_ok (field_data (with_tape [0; 1] game_0)))
    by concrete_coordinates_ok.
  assert (H3 : "right" = "left" ∨ "right" = "right") by (by right).
  assert (H4 : move_objects "right" (with_tape [0; 1] game_0)
               = (game_0_shifted_right.1, Ret tt)) by reflexivity.
  split; [exact H1|]. split; [exact H2|]. split; [exact H3|].
  split; [exact H4|].
  exact (horizontal_shift_keeps_coordinates "right" _ _ H1 H2 H3 H4).
Defined.

(** X8. The vertical shifts renumber the rows of all columns but the last:
    from a board whose cells store their own coordinates, after
    [move_objects('up')] the cells of the last column above the new row
    store the row below their own, after [move_objects('down')] those below
    the new row store the row above their own, and every other cell stores
    its own coordinates. *)
Theorem vertical_shift_stale_last_column direction (w w' : World) :
  well_formed (field_data w) → coordinates_ok (field_data w) →
  move_objects direction w = (w', Ret tt) →
  ∀ r c, in_bounds r → in_bounds c →
    (direction = "up" →
       coords_at (field_data w') r c =
         Some (if bool_decide (c = FIELD_SIZE - 1 ∧ r < FIELD_SIZE - 1)
               then r + 1 else r, c)) ∧
    (direction = "down" →
       coords_at (field_data w') r c =
         Some (if bool_decide (c = FIELD_SIZE - 1 ∧ 0 < r)
               then r - 1 else r, c)).
Proof.
  intros Hw Hok Hrun r c Hr Hc. split; intros ->.
  - destruct (move_objects_up_cells w w' Hw Hrun)
      as (n & t & _ & _ & Hcells).
    unfold coords_at. rewrite (Hcells r c Hr Hc).
    case_bool_decide as Hlast.
    { simpl. rewrite bool_decide_eq_false_2 by lia. done. }
    assert (Hr' : in_bounds (r + 1)) by in_bounds_lia.
    destruct (grid_cell_Some _ _ _ Hw Hr' Hc) as (row & q & _ & _ & Hq).
    destruct (Hok (r + 1) c q Hr' Hc Hq) as [Hx Hy].
    rewrite Hq. simpl. rewrite Hx, Hy.
    repeat case_bool_decide; try (exfalso; in_bounds_lia); f_equal; f_equal;
      lia.
  - destruct (move_objects_down_cells w w' Hw Hrun)
      as (n & t & _ & _ & Hcells).
    unfold coords_at. rewrite (Hcells r c Hr Hc).
    case_bool_decide as Hfirst.
    { simpl. rewrite bool_decide_eq_false_2 by lia. done. }
    assert (Hr' : in_bounds (r - 1)) by in_bounds_lia.
    destruct (grid_cell_Some _ _ _ Hw Hr' Hc) as (row & q & _ & _ & Hq).
    destruct (Hok (r - 1) c q Hr' Hc Hq) as [Hx Hy].
    rewrite Hq. simpl. rewrite Hx, Hy.
    repeat case_bool_decide; try (exfalso; in_bounds_lia); f_equal; f_equal;
      lia.
Qed.

Lemma vertical_shift_stale_last_column_witness :
  well_formed (field_data (with_tape [0] game_0)) ∧
  coordinates_ok (field_data (with_tape [0] game_0)) ∧
  move_objects "up" (with_tape [0] game_0)
    = (game_0_shifted_up.1, Ret tt) ∧
  coords_at (field_data game_0_shifted_up.1) 0 4 = Some (1, 4) ∧
  coords_at (field_data game_0_shifted_up.1) 0 3 = Some (0, 3).
Proof.
  assert (H1 : well_formed (field_data (with_tape [0] game_0)))
    by concrete_grid_ok.
  assert (H2 : coordinates_ok (field_data (with_tape [0] game_0)))
    by concrete_coordinates_ok.
  assert (H3 : move_objects "up" (with_tape [0] game_0)
               = (game_0_shifted_up.1, Ret tt)) by reflexivity.
  assert (H00 : in_bounds 0) by (unfold in_bounds, FIELD_SIZE; lia).
  assert (H03 : in_bounds 3) by (unfold in_bounds, FIELD_SIZE; lia).
  assert (H04 : in_bounds 4) by (unfold in_bounds, FIELD_SIZE; lia).
  split; [exact H1|]. split; [exact H2|]. split; [exact H3|].
  split.
  - exact (proj1 (vertical_shift_stale_last_column "up" _ _ H1 H2 H3
                    0 4 H00 H04) eq_refl).
  - exact (proj1 (vertical_shift_stale_last_column "up" _ _ H1 H2 H3
                    0 3 H00 H03) eq_refl).
Defined.

(** ** The row of [generate_row] *)

(** X9. With a draw to come, [generate_row] returns a row of [FIELD_SIZE]
    cells that store the row index it was given and their own columns; one
    of them holds an obstacle, the others are empty.  The board is not
    touched and one random value is taken. *)
Theorem generate_row_one_obstacle row_index (g : Grid) n t :
  ∃ row k,
    generate_row row_index (mkWorld g (n :: t)) = (mkWorld g t, Ret row) ∧
    length row = Z.to_nat FIELD_SIZE ∧ in_bounds k ∧
    ∀ c, in_bounds c →
      getitem row c =
        Some (Position.mk row_index c
                (if bool_decide (c = k) then OBSTACLE_SYMBOL
                 else EMPTY_SYMBOL)).
Proof.
  destruct (generate_row_run row_index (mkWorld g (n :: t)) n t eq_refl)
    as (row & Hrun & _).
  destruct (generate_row_inv _ _ _ _ Hrun)
    as (n' & t' & Ht & _ & Hlen & Hcells).
  simpl in Ht. injection Ht as <- <-.
  exists row, (n `mod` 5). split_and!; [done|done|apply mod_5_in_bounds|].
  intros c Hc. rewrite (Hcells c Hc). unfold edge_data.
  by destruct (decide _); [rewrite bool_decide_eq_true_2
                          |rewrite bool_decide_eq_false_2].
Qed.

#[local] Opaque range range_down.

(** ** Spawning a cat when no cell of the edges is empty *)

Lemma choice_no_raise {A} (l : list A) (w w' : World) (r : res A) :
  l ≠ [] → choice l w = (w', r) →
  field_data w' = field_data w ∧ ((∃ a, r = Ret a ∧ a ∈ l) ∨ r = NoDraw).
Proof.
  intros Hl. unfold choice, choice_index. rewrite !bind_run. unfold draw.
  destruct (tape w) as [|n t]; [intros [= <- <-]; by split; [|right]|].
  rewrite bool_decide_eq_false_2 by done. unfold ret, indexed.
  assert (Hlen : 0 < Z.of_nat (length l)) by (destruct l; simpl; [done|lia]).
  pose proof (Z.mod_pos_bound n _ Hlen) as Hk.
  rewrite getitem_in_range by done.
  destruct (l !! Z.to_nat (n `mod` Z.of_nat (length l))) as [a|] eqn:Ha.
  - unfold ret. intros [= <- <-]. split; [done|]. left. exists a.
    split; [done|]. by eapply list_elem_of_lookup_2.
  - apply lookup_ge_None in Ha. lia.
Qed.

Lemma generate_cats_loop_full_edge fuel number (w w' : World)
  (r : res unit) :
  well_formed (field_data w) → 0 < number →
  (∀ x y, in_bounds x → in_bounds y → on_edge x y →
     data_at (field_data w) x y ≠ Some EMPTY_SYMBOL) →
  generate_cats_loop fuel number 0 w = (w', r) →
  r = NoDraw ∧ field_data w' = field_data w.
Proof.
  intros Hw Hn. revert w Hw.
  induction fuel as [|fuel IH]; intros w Hw Hfull H; simpl in H;
    rewrite bool_decide_eq_true_2 in H by done.
  { by simplify_eq. }
  rewrite bind_run, randint_run in H.
  destruct (tape w) as [|n t] eqn:Ht; [by simplify_eq|].
  pose proof (randint_range 0 (FIELD_SIZE - 1) n ltac:(constants; lia)) as Hv.
  set (v := 0 + n `mod` (FIELD_SIZE - 1 - 0 + 1)) in *.
  rewrite bind_run in H.
  destruct (choice _ _) as [w2 r2] eqn:Hchoice.
  apply choice_no_raise in Hchoice as [Hg2 Hr2]; [|done]. simpl in Hg2.
  destruct Hr2 as [([x y] & -> & Hin)| ->]; [|by simplify_eq].
  assert (Hxy : in_bounds x ∧ in_bounds y ∧ on_edge x y).
  { unfold in_bounds, on_edge. constants.
    rewrite !elem_of_cons, elem_of_nil in Hin.
    destruct Hin as [?|[?|[?|[?|[]]]]]; simplify_eq; lia. }
  destruct Hxy as (Hx & Hy & Hedge).
  assert (Hw2 : well_formed (field_data w2)) by by rewrite Hg2.
  rewrite bind_run, read_data_run in H.
  destruct (grid_cell_Some _ _ _ Hw2 Hx Hy) as (row & p & _ & _ & Hp).
  unfold data_at in H. rewrite Hp in H. simpl in H.
  rewrite bool_decide_eq_true_2 in H.
  - apply IH in H as [-> Hg]; [|done|by rewrite Hg2].
    split; [done|]. by rewrite Hg, Hg2.
  - intros Hs. apply (Hfull x y Hx Hy Hedge).
    rewrite <- Hg2. unfold data_at. rewrite Hp. simpl. by rewrite Hs.
Qed.

(** X11. When no cell of the edges of the board is empty, [generate_cats]
    asked for at least one cat never returns: whatever values [random]
    gives, every round of its loop ends in [continue], so that the run uses
    up any supply of random values with the board unchanged. *)
Theorem generate_cats_spins_on_a_full_edge number (w : World) :
  well_formed (field_data w) → 0 < number →
  (∀ x y, in_bounds x → in_bounds y → on_edge x y →
     data_at (field_data w) x y ≠ Some EMPTY_SYMBOL) →
  ∃ w', generate_cats number w = (w', NoDraw) ∧
        field_data w' = field_data w.
Proof.
  intros Hw Hn Hfull. unfold generate_cats.
  destruct (generate_cats_loop (length (tape w)) number 0 w) as [w' r] eqn:H.
  apply generate_cats_loop_full_edge in H as [-> Hg]; [|done..].
  by exists w'.
Qed.

Lemma generate_cats_spins_on_a_full_edge_witness :
  well_formed (field_data game_walled) ∧ 0 < 1 ∧
  (∀ x y, in_bounds x → in_bounds y → on_edge x y →
     data_at (field_data game_walled) x y ≠ Some EMPTY_SYMBOL) ∧
  ∃ w', generate_cats 1 game_walled = (w', NoDraw) ∧
        field_data w' = field_data game_walled.
Proof.
  assert (H1 : well_formed (field_data game_walled)) by concrete_grid_ok.
  assert (H2 : 0 < 1) by lia.
  assert (H3 : ∀ x y, in_bounds x → in_bounds y → on_edge x y →
            data_at (field_data game_walled) x y ≠ Some EMPTY_SYMBOL).
  { intros x y Hx Hy Hedge.
    destruct (in_bounds_cases x Hx) as [->|[->|[->|[->| ->]]]];
    destruct (in_bounds_cases y Hy) as [->|[->|[->|[->| ->]]]];
    first [by vm_compute | unfold on_edge, FIELD_SIZE in Hedge; lia]. }
  split; [exact H1|]. split; [exact H2|]. split; [exact H3|].
  exact (generate_cats_spins_on_a_full_edge 1 game_walled H1 H2 H3).
Defined.

(** ** The rounds of the spawning loops *)

Lemma mod_FIELD_SIZE_in_bounds n : in_bounds (n `mod` FIELD_SIZE).
Proof.
  unfold in_bounds, FIELD_SIZE. pose proof (Z.mod_pos_bound n 5). lia.
Qed.

Lemma drawn_cat_position_on_edge p :
  in_bounds (drawn_cat_position p).1 ∧ in_bounds (drawn_cat_position p).2 ∧
  on_edge (drawn_cat_position p).1 (drawn_cat_position p).2.
Proof.
  pose proof (mod_FIELD_SIZE_in_bounds p.1) as Hv.
  unfold drawn_cat_position, on_edge. cbv zeta.
  repeat case_bool_decide; simpl; split_and!; try done;
    unfold in_bounds, FIELD_SIZE in *; lia.
Qed.

(** The two draws of a round of [generate_cats]. *)
Lemma choice_cat_position p (g : Grid) t :
  choice [ (0, p.1 `mod` FIELD_SIZE);
           (FIELD_SIZE - 1, p.1 `mod` FIELD_SIZE);
           (p.1 `mod` FIELD_SIZE, 0);
           (p.1 `mod` FIELD_SIZE, FIELD_SIZE - 1) ]
    (mkWorld g (p.2 :: t))
  = (mkWorld g t, Ret (drawn_cat_position p)).
Proof.
  unfold choice, choice_index. rewrite !bind_run. unfold draw. simpl.
  change (Z.of_nat 4) with 4.
  pose proof (Z.mod_pos_bound p.2 4 ltac:(lia)) as Hi.
  unfold drawn_cat_position. cbv zeta.
  assert (Hcases : p.2 `mod` 4 = 0 ∨ p.2 `mod` 4 = 1 ∨ p.2 `mod` 4 = 2
                   ∨ p.2 `mod` 4 = 3) by lia.
  destruct Hcases as [->|[->|[->| ->]]]; reflexivity.
Qed.

Lemma generate_cats_loop_S fuel number k :
  generate_cats_loop (S fuel) number k =
    if bool_decide (k < number) then
      random_coordinate ← randint 0 (FIELD_SIZE - 1);
      new_cat_position ← choice [ (0, random_coordinate);
                                  (FIELD_SIZE - 1, random_coordinate);
                                  (random_coordinate, 0);
                                  (random_coordinate, FIELD_SIZE - 1) ];
      let '(x, y) := new_cat_position in
      s ← read_data x y;
      if bool_decide (s ≠ EMPTY_SYMBOL) then
        generate_cats_loop fuel number k
      else
        centre ← read_cell MIDDLE_POS MIDDLE_POS;
        if bool_decide (Position.manhattan centre (x, y) < 2) then
          generate_cats_loop fuel number k
        else
          write_data x y CAT_SYMBOL;;
          generate_cats_loop fuel number (k + 1)
    else ret tt.
Proof. reflexivity. Qed.

(** A round that draws a cell that [generate_cats] refuses changes nothing
    but the values left to draw. *)
Lemma generate_cats_round_refused fuel number k p (g : Grid) t :
  well_formed g → k < number →
  ¬ accepts_cat g (drawn_cat_position p) →
  generate_cats_loop (S fuel) number k (mkWorld g (p.1 :: p.2 :: t))
  = generate_cats_loop fuel number k (mkWorld g t).
Proof.
  intros Hw Hk Hno. rewrite generate_cats_loop_S.
  rewrite bool_decide_eq_true_2 by done.
  rewrite bind_run, randint_run. simpl.
  change (FIELD_SIZE - 1 - 0 + 1) with FIELD_SIZE. rewrite Z.add_0_l.
  rewrite bind_run, choice_cat_position.
  destruct (drawn_cat_position_on_edge p) as (Hx & Hy & _).
  destruct (drawn_cat_position p) as [x y]. simpl in Hx, Hy.
  destruct (grid_cell_Some _ _ _ Hw Hx Hy) as (row & q & _ & _ & Hq).
  rewrite bind_run, read_data_run. unfold data_at at 1. simpl.
  rewrite Hq. simpl.
  case_bool_decide as Hs; [done|].
  destruct (grid_cell_Some _ _ _ Hw in_bounds_MIDDLE_POS in_bounds_MIDDLE_POS)
    as (? & centre & _ & _ & Hcentre).
  rewrite bind_run, read_cell_run. simpl. rewrite Hcentre.
  case_bool_decide as Hnear; [done|].
  exfalso. apply Hno. split.
  - unfold data_at. simpl. rewrite Hq. simpl. by f_equal.
  - exists centre. split; [done|]. lia.
Qed.

(** A round that draws a cell that [generate_cats] accepts puts a cat on
    it. *)
Lemma generate_cats_round_accepted fuel number k p (g : Grid) t :
  well_formed g → k < number →
  accepts_cat g (drawn_cat_position p) →
  ∃ g1,
    upd_cell (Position.set_data CAT_SYMBOL) g
      (drawn_cat_position p).1 (drawn_cat_position p).2 = Some g1 ∧
    generate_cats_loop (S fuel) number k (mkWorld g (p.1 :: p.2 :: t))
    = generate_cats_loop fuel number (k + 1) (mkWorld g1 t).
Proof.
  intros Hw Hk [Hempty (centre & Hcentre & Hfar)].
  rewrite generate_cats_loop_S.
  rewrite bool_decide_eq_true_2 by done.
  rewrite bind_run, randint_run. simpl.
  change (FIELD_SIZE - 1 - 0 + 1) with FIELD_SIZE. rewrite Z.add_0_l.
  rewrite bind_run, choice_cat_position.
  destruct (drawn_cat_position_on_edge p) as (Hx & Hy & _).
  destruct (drawn_cat_position p) as [x y]. simpl in *.
  rewrite bind_run, read_data_run. simpl. rewrite Hempty.
  rewrite bool_decide_eq_false_2 by (intros H; by apply H).
  rewrite bind_run, read_cell_run. simpl. rewrite Hcentre.
  rewrite bool_decide_eq_false_2 by lia.
  destruct (upd_cell_Some (Position.set_data CAT_SYMBOL) g x y Hw Hx Hy)
    as [g1 Hg1].
  exists g1. split; [done|].
  rewrite bind_run. unfold write_data. rewrite modify_cell_run. simpl.
  by rewrite Hg1.
Qed.

(** With the count 1, [generate_cats] returns as soon as a round draws a
    cell that it accepts, the rounds before it having changed nothing. *)
Lemma generate_cats_loop_first_accepted refused p t (g : Grid) fuel :
  well_formed g →
  Forall (λ p', ¬ accepts_cat g (drawn_cat_position p')) refused →
  accepts_cat g (drawn_cat_position p) →
  (length refused < fuel)%nat →
  ∃ g1,
    upd_cell (Position.set_data CAT_SYMBOL) g
      (drawn_cat_position p).1 (drawn_cat_position p).2 = Some g1 ∧
    generate_cats_loop fuel 1 0
      (mkWorld g (draws_of refused ++ p.1 :: p.2 :: t))
    = (mkWorld g1 t, Ret tt).
Proof.
  intros Hw Hrefused Hacc. revert fuel.
  induction Hrefused as [|p' refused Hp' _ IH]; intros fuel Hfuel;
    (destruct fuel as [|fuel]; [simpl in Hfuel; lia|]).
  - destruct (generate_cats_round_accepted fuel 1 0 p g t Hw ltac:(lia) Hacc)
      as (g1 & Hg1 & Hrun).
    exists g1. split; [done|]. simpl draws_of. simpl app. rewrite Hrun.
    destruct fuel; reflexivity.
  - simpl in Hfuel.
    destruct (IH fuel ltac:(lia)) as (g1 & Hg1 & Hrun).
    exists g1. split; [done|].
    change (draws_of (p' :: refused) ++ p.1 :: p.2 :: t)
      with (p'.1 :: p'.2 :: (draws_of refused ++ p.1 :: p.2 :: t)).
    by rewrite generate_cats_round_refused.
Qed.

Lemma draws_of_length rounds : length (draws_of rounds) = (2 * length rounds)%nat.
Proof. induction rounds as [|p rounds IH]; simpl; [done|]. rewrite IH. lia. Qed.

Lemma generate_cats_first_accepted refused p t (w : World) :
  well_formed (field_data w) →
  tape w = draws_of refused ++ p.1 :: p.2 :: t →
  Forall (λ p', ¬ accepts_cat (field_data w) (drawn_cat_position p')) refused →
  accepts_cat (field_data w) (drawn_cat_position p) →
  ∃ g1,
    upd_cell (Position.set_data CAT_SYMBOL) (field_data w)
      (drawn_cat_position p).1 (drawn_cat_position p).2 = Some g1 ∧
    generate_cats 1 w = (mkWorld g1 t, Ret tt).
Proof.
  intros Hw Ht Hrefused Hacc. unfold generate_cats.
  destruct w as [g tp]. simpl in *. subst tp.
  apply generate_cats_loop_first_accepted; try done.
  rewrite length_app, draws_of_length. simpl. lia.
Qed.

(** ** A whole turn *)

(** With two values to draw, the move of the player returns, blocked or
    not. *)
Lemma move_player_returns direction (w : World) :
  direction ∈ ["left"; "right"; "up"; "down"] →
  well_formed (field_data w) →
  (2 ≤ length (tape w))%nat →
  ∃ w1, move_player direction w = (w1, Ret tt) ∧
        well_formed (field_data w1).
Proof.
  intros Hdir Hw Ht.
  assert (Hadj : ∃ x y opposite,
    adjacent_to_centre direction = Some (x, y) ∧
    in_bounds x ∧ in_bounds y ∧
    DIRECTIONS !! direction = Some opposite ∧
    opposite ∈ ["left"; "right"; "up"; "down"]).
  { rewrite !elem_of_cons, elem_of_nil in Hdir.
    destruct Hdir as [->|[->|[->|[->|[]]]]].
    - exists MIDDLE_POS, (MIDDLE_POS - 1), "right".
      split_and!; [done| |  |done|set_solver];
        unfold in_bounds; constants; lia.
    - exists MIDDLE_POS, (MIDDLE_POS + 1), "left".
      split_and!; [done| |  |done|set_solver];
        unfold in_bounds; constants; lia.
    - exists (MIDDLE_POS - 1), MIDDLE_POS, "down".
      split_and!; [done| |  |done|set_solver];
        unfold in_bounds; constants; lia.
    - exists (MIDDLE_POS + 1), MIDDLE_POS, "up".
      split_and!; [done| |  |done|set_solver];
        unfold in_bounds; constants; lia. }
  destruct Hadj as (x & y & opposite & Hadj & Hx & Hy & Hopp & Hin).
  destruct (grid_cell_Some _ _ _ Hw Hx Hy) as (row & p & _ & _ & Hp).
  assert (Hdata : data_at (field_data w) x y = Some (Position.data p))
    by (unfold data_at; by rewrite Hp).
  destruct (decide (Position.data p = EMPTY_SYMBOL)) as [Hs|Hs].
  - rewrite Hs in Hdata.
    rewrite (move_player_unblocked direction x y opposite w Hadj Hdata Hopp).
    destruct (move_objects_returns opposite w Hw Hin Ht) as [w1 Hrun].
    exists w1. split; [done|].
    by eapply (well_formed_move_objects opposite w w1).
  - exists w. split; [|done].
    by eapply move_player_blocked.
Qed.

Lemma proceed_cats_turn_returns (w : World) :
  well_formed (field_data w) →
  ∃ w', proceed_cats_turn w = (w', Ret tt) ∧
        well_formed (field_data w') ∧ tape w' = tape w.
Proof.
  intros Hw.
  destruct (cats_in_rows_log_total (range FIELD_SIZE) w Hw range_in_bounds)
    as (w' & log & H).
  assert (Hrun : proceed_cats_turn w = (w', Ret tt)).
  { unfold proceed_cats_turn. rewrite cats_in_rows_log_erase. by rewrite H. }
  exists w'. split; [done|]. split.
  - by eapply (well_formed_proceed_cats_turn w w').
  - by destruct (cats_in_rows_log_same_pieces _ _ _ _ Hw range_in_bounds H).
Qed.


(** ** The rounds of [generate_obstacles] *)

Lemma generate_obstacles_loop_S fuel number k :
  generate_obstacles_loop (S fuel) number k =
    if bool_decide (k < number) then
      x ← randint 0 (FIELD_SIZE - 1);
      y ← randint 0 (FIELD_SIZE - 1);
      s ← read_data x y;
      if bool_decide (s ≠ EMPTY_SYMBOL) then
        generate_obstacles_loop fuel number k
      else
        write_data x y OBSTACLE_SYMBOL;;
        generate_obstacles_loop fuel number (k + 1)
    else ret tt.
Proof. reflexivity. Qed.

Lemma generate_obstacles_loop_done fuel number k (w : World) :
  number <= k → generate_obstacles_loop fuel number k w = (w, Ret tt).
Proof.
  intros Hk. destruct fuel; simpl; by rewrite bool_decide_eq_false_2 by lia.
Qed.

Lemma drawn_obstacle_position_in_bounds p :
  in_bounds (drawn_obstacle_position p).1 ∧
  in_bounds (drawn_obstacle_position p).2.
Proof. split; apply mod_FIELD_SIZE_in_bounds. Qed.

Lemma generate_obstacles_round_refused fuel number k p (g : Grid) t :
  well_formed g → k < number →
  data_at g (drawn_obstacle_position p).1 (drawn_obstacle_position p).2
    ≠ Some EMPTY_SYMBOL →
  generate_obstacles_loop (S fuel) number k (mkWorld g (p.1 :: p.2 :: t))
  = generate_obstacles_loop fuel number k (mkWorld g t).
Proof.
  intros Hw Hk Hno. rewrite generate_obstacles_loop_S.
  rewrite bool_decide_eq_true_2 by done.
  rewrite bind_run, randint_run. simpl.
  rewrite bind_run, randint_run. simpl.
  change (FIELD_SIZE - 1 - 0 + 1) with FIELD_SIZE. rewrite !Z.add_0_l.
  destruct (drawn_obstacle_position_in_bounds p) as (Hx & Hy).
  unfold drawn_obstacle_position in *. simpl in *.
  destruct (grid_cell_Some _ _ _ Hw Hx Hy) as (row & q & _ & _ & Hq).
  rewrite bind_run, read_data_run. simpl.
  unfold data_at in *. rewrite Hq in *. simpl in *.
  rewrite bool_decide_eq_true_2; [done|]. intros Hs. apply Hno. by f_equal.
Qed.

Lemma generate_obstacles_round_accepted fuel number k p (g : Grid) t :
  well_formed g → k < number →
  data_at g (drawn_obstacle_position p).1 (drawn_obstacle_position p).2
    = Some EMPTY_SYMBOL →
  ∃ g1,
    upd_cell (Position.set_data OBSTACLE_SYMBOL) g
      (drawn_obstacle_position p).1 (drawn_obstacle_position p).2 = Some g1 ∧
    generate_obstacles_loop (S fuel) number k (mkWorld g (p.1 :: p.2 :: t))
    = generate_obstacles_loop fuel number (k + 1) (mkWorld g1 t).
Proof.
  intros Hw Hk Hempty. rewrite generate_obstacles_loop_S.
  rewrite bool_decide_eq_true_2 by done.
  rewrite bind_run, randint_run. simpl.
  rewrite bind_run, randint_run. simpl.
  change (FIELD_SIZE - 1 - 0 + 1) with FIELD_SIZE. rewrite !Z.add_0_l.
  destruct (drawn_obstacle_position_in_bounds p) as (Hx & Hy).
  unfold drawn_obstacle_position in *. simpl in *.
  rewrite bind_run, read_data_run. simpl. rewrite Hempty.
  rewrite bool_decide_eq_false_2 by (intros H; by apply H).
  destruct (upd_cell_Some (Position.set_data OBSTACLE_SYMBOL) g _ _ Hw Hx Hy)
    as [g1 Hg1].
  exists g1. split; [done|].
  rewrite bind_run. unfold write_data. rewrite modify_cell_run. simpl.
  by rewrite Hg1.
Qed.

(** The rounds that are refused change nothing but the values left to
    draw. *)
Lemma generate_obstacles_loop_refused refused fuel number k (g : Grid) t :
  well_formed g → k < number →
  Forall (λ p',
    data_at g (drawn_obstacle_position p').1 (drawn_obstacle_position p').2
      ≠ Some EMPTY_SYMBOL) refused →
  generate_obstacles_loop (length refused + fuel) number k
    (mkWorld g (draws_of refused ++ t))
  = generate_obstacles_loop fuel number k (mkWorld g t).
Proof.
  intros Hw Hk Hrefused.
  induction Hrefused as [|p' refused Hp' _ IH]; [done|].
  change (draws_of (p' :: refused) ++ t)
    with (p'.1 :: p'.2 :: (draws_of refused ++ t)).
  change (length (p' :: refused) + fuel)%nat
    with (S (length refused + fuel)).
  by rewrite generate_obstacles_round_refused.
Qed.

Lemma rounds_draws_cons refused p rounds :
  rounds_draws ((refused, p) :: rounds)
  = draws_of refused ++ p.1 :: p.2 :: rounds_draws rounds.
Proof.
  unfold rounds_draws at 1. simpl. unfold draws_of at 1.
  rewrite bind_app. simpl. by rewrite <- !app_assoc.
Qed.

Lemma generate_obstacles_loop_rounds rounds :
  ∀ (g0 g : Grid) taken k number fuel t,
    well_formed g →
    (∀ r c, in_bounds r → in_bounds c →
       data_at g r c =
         if bool_decide ((r, c) ∈ taken) then Some OBSTACLE_SYMBOL
         else data_at g0 r c) →
    obstacle_rounds g0 taken rounds →
    k + Z.of_nat (length rounds) = number →
    (length (rounds_draws rounds) ≤ fuel)%nat →
    ∃ g',
      generate_obstacles_loop fuel number k
        (mkWorld g (rounds_draws rounds ++ t)) = (mkWorld g' t, Ret tt) ∧
      ∀ r c, in_bounds r → in_bounds c →
        data_at g' r c =
          if bool_decide ((r, c) ∈ rounds_cells rounds ++ taken)
          then Some OBSTACLE_SYMBOL else data_at g0 r c.
Proof.
  induction rounds as [|[refused p] rounds IH];
    intros g0 g taken k number fuel t Hw Hg Hrounds Hk Hfuel.
  { simpl in Hk. exists g. split; [|done].
    apply generate_obstacles_loop_done. lia. }
  destruct Hrounds as (Hrefused & Hempty & Hfree & Hrest).
  rewrite rounds_draws_cons in Hfuel |- *.
  rewrite length_app, draws_of_length in Hfuel. simpl in Hfuel, Hk.
  destruct (drawn_obstacle_position_in_bounds p) as (Hx & Hy).
  set (q := drawn_obstacle_position p) in *.
  assert (Hq : data_at g q.1 q.2 = Some EMPTY_SYMBOL).
  { rewrite Hg by done. rewrite bool_decide_eq_false_2; [done|].
    by destruct q. }
  assert (Hrefused' : Forall (λ p',
    data_at g (drawn_obstacle_position p').1 (drawn_obstacle_position p').2
      ≠ Some EMPTY_SYMBOL) refused).
  { eapply Forall_impl; [exact Hrefused|]. intros p' Hp'. simpl in Hp'.
    destruct (drawn_obstacle_position_in_bounds p') as (Hx' & Hy').
    rewrite Hg by done. case_bool_decide as Hin; [done|].
    destruct Hp' as [?|Hp']; [done|]. exfalso. apply Hin.
    by destruct (drawn_obstacle_position p'). }
  replace fuel
    with (length refused + S (fuel - length refused - 1))%nat by lia.
  rewrite <- app_assoc.
  rewrite generate_obstacles_loop_refused by (done || lia).
  destruct (generate_obstacles_round_accepted
              (fuel - length refused - 1) number k p g
              (rounds_draws rounds ++ t) Hw ltac:(lia) Hq)
    as (g1 & Hg1 & Hrun).
  simpl app. rewrite Hrun.
  assert (Hw1 : well_formed g1) by by eapply well_formed_upd.
  destruct (IH g0 g1 (q :: taken) (k + 1) number
              (fuel - length refused - 1)%nat t Hw1) as (g' & Hrun' & Hg');
    [|done|lia|lia|].
  { intros r c Hr Hc.
    rewrite (data_at_set_data _ _ _ _ _ _ _ Hw Hx Hy Hr Hc Hg1).
    rewrite Hg by done.
    destruct (decide ((r, c) = q)) as [Heq|Hne].
    - rewrite bool_decide_eq_true_2 by (by rewrite <- Heq).
      rewrite bool_decide_eq_true_2; [done|]. rewrite Heq. by left.
    - rewrite bool_decide_eq_false_2.
      2:{ intros [? ?]. apply Hne. destruct q. simpl in *. congruence. }
      destruct (decide ((r, c) ∈ taken)) as [Hin|Hnin].
      + rewrite !bool_decide_eq_true_2; [done|by right|done].
      + rewrite !bool_decide_eq_false_2; [done| |done].
        intros Hin. apply elem_of_cons in Hin as [?|?]; done. }
  exists g'. split; [done|].
  intros r c Hr Hc. rewrite Hg' by done.
  assert (Hiff : (r, c) ∈ rounds_cells rounds ++ q :: taken
                 ↔ (r, c) ∈ rounds_cells ((refused, p) :: rounds) ++ taken).
  { unfold rounds_cells. simpl. fold q.
    rewrite !elem_of_app, !elem_of_cons, !elem_of_app. tauto. }
  destruct (decide ((r, c) ∈ rounds_cells rounds ++ q :: taken)) as [Hin|Hnin].
  - rewrite !bool_decide_eq_true_2; [done|by apply Hiff|done].
  - rewrite !bool_decide_eq_false_2; [done| |done].
    intros Hin. by apply Hnin, Hiff.
Qed.

(** C8, as the code has it.  [generate_obstacles] draws a row and a column
    of the board in each round, edges included, draws again when the cell is
    not empty, and puts an obstacle on the cell when it is.  With draws that
    make [obstacles_number] rounds end on a cell that is then empty, it
    returns with an obstacle on each of these cells, no other cell changed
    and no other value drawn.  And whenever it returns, the board comes from
    the board it was called on by exactly [obstacles_number] successive
    assignments of the obstacle symbol, each to a cell of the board that
    held the empty symbol when it was assigned: [obstacles_number] different
    cells that were empty hold an obstacle, and no other cell has
    changed. *)
Theorem generate_obstacles_places_on_empty number (w : World) :
  well_formed (field_data w) → 0 <= number →
  (∀ rounds t,
     tape w = rounds_draws rounds ++ t →
     Z.of_nat (length rounds) = number →
     obstacle_rounds (field_data w) [] rounds →
     ∃ w',
       generate_obstacles number w = (w', Ret tt) ∧ tape w' = t ∧
       ∀ r c, in_bounds r → in_bounds c →
         data_at (field_data w') r c =
           if bool_decide ((r, c) ∈ rounds_cells rounds)
           then Some OBSTACLE_SYMBOL else data_at (field_data w) r c) ∧
  (∀ w',
     generate_obstacles number w = (w', Ret tt) →
     placed OBSTACLE_SYMBOL anywhere (Z.to_nat number)
       (field_data w) (field_data w') ∧
     ∃ cells : list (Z * Z),
       Z.of_nat (length cells) = number ∧ NoDup cells ∧
       (∀ x y, (x, y) ∈ cells →
          in_bounds x ∧ in_bounds y ∧
          data_at (field_data w) x y = Some EMPTY_SYMBOL ∧
          data_at (field_data w') x y = Some OBSTACLE_SYMBOL) ∧
       (∀ r c, in_bounds r → in_bounds c → (r, c) ∉ cells →
          data_at (field_data w') r c = data_at (field_data w) r c)).
Proof.
  intros Hw Hn. split.
  - intros rounds t Htape Hlen Hrounds. unfold generate_obstacles.
    destruct w as [g tp]. simpl in *. subst tp.
    destruct (generate_obstacles_loop_rounds rounds g g [] 0 number
                (length (rounds_draws rounds ++ t)) t Hw)
      as (g' & Hrun & Hg'); [done|done|lia|rewrite length_app; lia|].
    exists (mkWorld g' t). split; [done|]. split; [done|].
    intros r c Hr Hc. simpl. rewrite Hg' by done. by rewrite app_nil_r.
  - intros w' H. unfold generate_obstacles in H.
    apply generate_obstacles_loop_placed in H as (n & Hplaced & Hcount);
      [|done].
    specialize (Hcount eq_refl).
    replace (Z.to_nat number) with n by lia. split; [done|].
    assert (Hne : OBSTACLE_SYMBOL ≠ EMPTY_SYMBOL) by discriminate.
    destruct (placed_cells _ _ _ _ _ Hne Hplaced Hw)
      as (cells & Hlen & Hnd & Hcells & Hframe).
    exists cells. split_and!; try done; [lia|].
    intros x y Hin. destruct (Hcells x y Hin) as (? & ? & _ & ? & ?). done.
Qed.

Lemma generate_obstacles_places_on_empty_witness :
  well_formed (field_data (with_tape [0; 1; 0; 1; 2; 2; 0; 2] game_0)) ∧
  0 <= 2 ∧
  tape (with_tape [0; 1; 0; 1; 2; 2; 0; 2] game_0)
    = rounds_draws [([], (0, 1)); ([(0, 1); (2, 2)], (0, 2))] ++ [] ∧
  Z.of_nat (length [([] : list (Z * Z), (0, 1)); ([(0, 1); (2, 2)], (0, 2))])
    = 2 ∧
  obstacle_rounds (field_data (with_tape [0; 1; 0; 1; 2; 2; 0; 2] game_0)) []
    [([], (0, 1)); ([(0, 1); (2, 2)], (0, 2))] ∧
  ∃ w',
    generate_obstacles 2 (with_tape [0; 1; 0; 1; 2; 2; 0; 2] game_0)
      = (w', Ret tt) ∧
    tape w' = [] ∧
    ∀ r c, in_bounds r → in_bounds c →
      data_at (field_data w') r c =
        if bool_decide
             ((r, c) ∈ rounds_cells [([], (0, 1)); ([(0, 1); (2, 2)], (0, 2))])
        then Some OBSTACLE_SYMBOL
        else data_at
               (field_data (with_tape [0; 1; 0; 1; 2; 2; 0; 2] game_0)) r c.
Proof.
  assert (H1 : well_formed
                 (field_data (with_tape [0; 1; 0; 1; 2; 2; 0; 2] game_0)))
    by concrete_grid_ok.
  assert (H2 : 0 <= 2) by lia.
  assert (H3 : tape (with_tape [0; 1; 0; 1; 2; 2; 0; 2] game_0)
               = rounds_draws [([], (0, 1)); ([(0, 1); (2, 2)], (0, 2))] ++ [])
    by reflexivity.
  assert (H4 : Z.of_nat (length [([] : list (Z * Z), (0, 1));
                                 ([(0, 1); (2, 2)], (0, 2))]) = 2)
    by reflexivity.
  assert (H5 : obstacle_rounds
                 (field_data (with_tape [0; 1; 0; 1; 2; 2; 0; 2] game_0)) []
                 [([], (0, 1)); ([(0, 1); (2, 2)], (0, 2))]).
  { simpl. split_and!; try reflexivity; try exact I.
    - apply Forall_nil_2.
    - intros H. by apply elem_of_nil in H.
    - apply Forall_cons_2; [right; by left|].
      apply Forall_cons_2; [left; intros H; discriminate H|].
      apply Forall_nil_2.
    - intros H. apply list_elem_of_singleton in H. discriminate H. }
  split; [exact H1|]. split; [exact H2|]. split; [exact H3|].
  split; [exact H4|]. split; [exact H5|].
  exact (proj1 (generate_obstacles_places_on_empty 2 _ H1 H2) _ _ H3 H4 H5).
Defined.

(** C4, as the code has it.  In a turn of [proceed_message], with two values
    to draw for the shift, the move of the player and the cats' turn return,
    and [generate_cats] then runs whether or not a cat stands next to the
    player: its rounds draw cells until one is a cell that it accepts, an
    empty cell of an edge, and there it puts one cat, every other cell
    staying as the cats' turn left it; the turn returns, and the game over
    message is decided on the board with the new cat. *)
Theorem turn_spawns_one_cat direction (w : World) :
  direction ∈ ["left"; "right"; "up"; "down"] →
  well_formed (field_data w) →
  (2 ≤ length (tape w))%nat →
  ∃ w1 w2,
    move_player direction w = (w1, Ret tt) ∧
    proceed_cats_turn w1 = (w2, Ret tt) ∧
    ∀ refused p t,
      tape w2 = draws_of refused ++ p.1 :: p.2 :: t →
      Forall (λ p', ¬ accepts_cat (field_data w2) (drawn_cat_position p'))
        refused →
      accepts_cat (field_data w2) (drawn_cat_position p) →
      ∃ w' (over : bool) x y,
        drawn_cat_position p = (x, y) ∧
        generate_cats 1 w2 = (w', Ret tt) ∧ tape w' = t ∧
        in_bounds x ∧ in_bounds y ∧ on_edge x y ∧
        data_at (field_data w2) x y = Some EMPTY_SYMBOL ∧
        (∀ r c, in_bounds r → in_bounds c →
           data_at (field_data w') r c =
             if bool_decide (r = x ∧ c = y) then Some CAT_SYMBOL
             else data_at (field_data w2) r c) ∧
        is_game_over w' = (w', Ret over) ∧
        proceed_message ("/" +:+ direction) w =
          (w', Ret (if over then GAME_OVER_MESSAGE (render (field_data w'))
                    else GOOD_JOB_MESSAGE (render (field_data w')))).
Proof.
  intros Hdir Hw Ht.
  destruct (move_player_returns direction w Hdir Hw Ht) as (w1 & Hmove & Hw1).
  destruct (proceed_cats_turn_returns w1 Hw1) as (w2 & Hcats & Hw2 & _).
  exists w1, w2. split; [done|]. split; [done|].
  intros refused p t Htape Hrefused Hacc.
  destruct (generate_cats_first_accepted refused p t w2 Hw2 Htape Hrefused
              Hacc) as (g1 & Hg1 & Hspawn).
  destruct (drawn_cat_position_on_edge p) as (Hx & Hy & Hedge).
  destruct (drawn_cat_position p) as [x y] eqn:Hp. simpl in Hx, Hy, Hedge, Hg1.
  assert (Hwg1 : well_formed g1) by by eapply well_formed_upd.
  destruct (is_game_over_total (mkWorld g1 t) Hwg1) as [over Hover].
  exists (mkWorld g1 t), over, x, y. split_and!; try done.
  - by destruct Hacc.
  - intros r c Hr Hc. simpl.
    by apply (data_at_set_data _ _ _ _ _ _ _ Hw2 Hx Hy Hr Hc Hg1).
  - rewrite proceed_message_turn by done.
    rewrite bind_run, Hmove, bind_run, Hcats, bind_run, Hspawn, bind_run,
      Hover, bind_run.
    unfold get_field. by destruct over.
Qed.

Lemma turn_spawns_one_cat_witness :
  (("up" ∈ ["left"; "right"; "up"; "down"]) ∧
   well_formed (field_data (with_tape [4; 4; 1] game_0)) ∧
   (2 ≤ length (tape (with_tape [4%Z; 4%Z; 1%Z] game_0)))%nat ∧
   ∃ w1 w2,
     move_player "up" (with_tape [4; 4; 1] game_0) = (w1, Ret tt) ∧
     proceed_cats_turn w1 = (w2, Ret tt) ∧
     is_game_over w2 = (w2, Ret true) ∧
     tape w2 = draws_of [] ++ (4, 1).1 :: (4, 1).2 :: [] ∧
     accepts_cat (field_data w2) (drawn_cat_position (4, 1)) ∧
     ∃ w' (over : bool) x y,
       drawn_cat_position (4, 1) = (x, y) ∧
       generate_cats 1 w2 = (w', Ret tt) ∧ tape w' = [] ∧
       in_bounds x ∧ in_bounds y ∧ on_edge x y ∧
       data_at (field_data w2) x y = Some EMPTY_SYMBOL ∧
       (∀ r c, in_bounds r → in_bounds c →
          data_at (field_data w') r c =
            if bool_decide (r = x ∧ c = y) then Some CAT_SYMBOL
            else data_at (field_data w2) r c) ∧
       is_game_over w' = (w', Ret over) ∧
       proceed_message ("/" +:+ "up") (with_tape [4; 4; 1] game_0) =
         (w', Ret (if over then GAME_OVER_MESSAGE (render (field_data w'))
                   else GOOD_JOB_MESSAGE (render (field_data w'))))) ∧
  (("down" ∈ ["left"; "right"; "up"; "down"]) ∧
   well_formed (field_data (with_tape [0; 0; 0] game_0)) ∧
   (2 ≤ length (tape (with_tape [0%Z; 0%Z; 0%Z] game_0)))%nat ∧
   ∃ w1 w2,
     move_player "down" (with_tape [0; 0; 0] game_0) = (w1, Ret tt) ∧
     proceed_cats_turn w1 = (w2, Ret tt) ∧
     is_game_over w2 = (w2, Ret false) ∧
     tape w2 = draws_of [] ++ (0, 0).1 :: (0, 0).2 :: [] ∧
     accepts_cat (field_data w2) (drawn_cat_position (0, 0)) ∧
     ∃ w' (over : bool) x y,
       drawn_cat_position (0, 0) = (x, y) ∧
       generate_cats 1 w2 = (w', Ret tt) ∧ tape w' = [] ∧
       in_bounds x ∧ in_bounds y ∧ on_edge x y ∧
       data_at (field_data w2) x y = Some EMPTY_SYMBOL ∧
       (∀ r c, in_bounds r → in_bounds c →
          data_at (field_data w') r c =
            if bool_decide (r = x ∧ c = y) then Some CAT_SYMBOL
            else data_at (field_data w2) r c) ∧
       is_game_over w' = (w', Ret over) ∧
       proceed_message ("/" +:+ "down") (with_tape [0; 0; 0] game_0) =
         (w', Ret (if over then GAME_OVER_MESSAGE (render (field_data w'))
                   else GOOD_JOB_MESSAGE (render (field_data w'))))).
Proof.
  split.
  - assert (H1 : "up" ∈ ["left"; "right"; "up"; "down"]).
    { apply elem_of_cons. right. apply elem_of_cons. right.
      apply elem_of_cons. by left. }
    assert (H2 : well_formed (field_data (with_tape [4; 4; 1] game_0)))
      by concrete_grid_ok.
    assert (H3 : (2 ≤ length (tape (with_tape [4%Z; 4%Z; 1%Z] game_0)))%nat)
      by (simpl; lia).
    split; [exact H1|]. split; [exact H2|]. split; [exact H3|].
    destruct (turn_spawns_one_cat "up" (with_tape [4; 4; 1] game_0) H1 H2 H3)
      as (w1 & w2 & Hmove & Hcats & Hspawn).
    assert (Hw1 : w1 = (move_player "up" (with_tape [4; 4; 1] game_0)).1)
      by (by rewrite Hmove).
    assert (Hw2 : w2 = (proceed_cats_turn
                          (move_player "up" (with_tape [4; 4; 1] game_0)).1).1)
      by (by rewrite <- Hw1, Hcats).
    assert (Hover : is_game_over w2 = (w2, Ret true))
      by (rewrite Hw2; reflexivity).
    assert (Htape : tape w2 = draws_of [] ++ (4, 1).1 :: (4, 1).2 :: [])
      by (rewrite Hw2; reflexivity).
    assert (Hacc : accepts_cat (field_data w2) (drawn_cat_position (4, 1))).
    { rewrite Hw2. split; [reflexivity|].
      exists (Position.mk 2 2 PLAYER_SYMBOL). split; [reflexivity|].
      vm_compute. intros H. discriminate H. }
    exists w1, w2. split; [exact Hmove|]. split; [exact Hcats|].
    split; [exact Hover|]. split; [exact Htape|]. split; [exact Hacc|].
    exact (Hspawn [] (4, 1) [] Htape (Forall_nil_2 _) Hacc).
  - assert (H1 : "down" ∈ ["left"; "right"; "up"; "down"]).
    { apply elem_of_cons. right. apply elem_of_cons. right.
      apply elem_of_cons. right. apply elem_of_cons. by left. }
    assert (H2 : well_formed (field_data (with_tape [0; 0; 0] game_0)))
      by concrete_grid_ok.
    assert (H3 : (2 ≤ length (tape (with_tape [0%Z; 0%Z; 0%Z] game_0)))%nat)
      by (simpl; lia).
    split; [exact H1|]. split; [exact H2|]. split; [exact H3|].
    destruct (turn_spawns_one_cat "down" (with_tape [0; 0; 0] game_0)
                H1 H2 H3) as (w1 & w2 & Hmove & Hcats & Hspawn).
    assert (Hw1 : w1 = (move_player "down" (with_tape [0; 0; 0] game_0)).1)
      by (by rewrite Hmove).
    assert (Hw2 : w2 = (proceed_cats_turn
                          (move_player "down"
                             (with_tape [0; 0; 0] game_0)).1).1)
      by (by rewrite <- Hw1, Hcats).
    assert (Hover : is_game_over w2 = (w2, Ret false))
      by (rewrite Hw2; reflexivity).
    assert (Htape : tape w2 = draws_of [] ++ (0, 0).1 :: (0, 0).2 :: [])
      by (rewrite Hw2; reflexivity).
    assert (Hacc : accepts_cat (field_data w2) (drawn_cat_position (0, 0))).
    { rewrite Hw2. split; [reflexivity|].
      exists (Position.mk 2 2 PLAYER_SYMBOL). split; [reflexivity|].
      vm_compute. intros H. discriminate H. }
    exists w1, w2. split; [exact Hmove|]. split; [exact Hcats|].
    split; [exact Hover|]. split; [exact Htape|]. split; [exact Hacc|].
    exact (Hspawn [] (0, 0) [] Htape (Forall_nil_2 _) Hacc).
Defined.

(** ** What [move_cat] reads and where it writes *)

(** The loop of [move_cat] reads the centre cell and those of the candidate
    cells that are on the board, and no other cell: on two boards that agree
    there it makes the same choice. *)
Lemma move_cat_check_agree (w w2 : World) cur position :
  well_formed (field_data w) → well_formed (field_data w2) →
  coords_at (field_data w2) MIDDLE_POS MIDDLE_POS
    = coords_at (field_data w) MIDDLE_POS MIDDLE_POS →
  (in_bounds position.1 → in_bounds position.2 →
   data_at (field_data w2) position.1 position.2
     = data_at (field_data w) position.1 position.2) →
  ∃ cur', move_cat_check cur position w = (w, Ret cur') ∧
          move_cat_check cur position w2 = (w2, Ret cur').
Proof.
  intros Hw Hw2 Hcentre Hdata. destruct cur as [d pos], position as [x y].
  unfold move_cat_check. case_bool_decide as Hout; [by exists (d, pos)|].
  assert (in_bounds x ∧ in_bounds y) as [Hx Hy]
    by (unfold in_bounds; lia).
  specialize (Hdata Hx Hy). simpl in Hdata.
  rewrite !bind_run, !read_data_run, Hdata.
  destruct (grid_cell_Some _ _ _ Hw Hx Hy) as (row & p & _ & _ & Hp).
  unfold data_at at 1 2. rewrite Hp. simpl.
  case_bool_decide as Hs; [by exists (d, pos)|].
  destruct (grid_cell_Some _ _ _ Hw in_bounds_MIDDLE_POS in_bounds_MIDDLE_POS)
    as (? & centre & _ & _ & Hc1).
  destruct (grid_cell_Some _ _ _ Hw2 in_bounds_MIDDLE_POS in_bounds_MIDDLE_POS)
    as (? & centre2 & _ & _ & Hc2).
  rewrite !bind_run, !read_cell_run, Hc1, Hc2.
  unfold coords_at in Hcentre. rewrite Hc1, Hc2 in Hcentre.
  simpl in Hcentre. injection Hcentre as Hcx Hcy.
  unfold Position.manhattan. rewrite Hcx, Hcy.
  case_bool_decide; eexists; split; reflexivity.
Qed.

Lemma move_cat_scan_agree (w w2 : World) positions cur :
  well_formed (field_data w) → well_formed (field_data w2) →
  coords_at (field_data w2) MIDDLE_POS MIDDLE_POS
    = coords_at (field_data w) MIDDLE_POS MIDDLE_POS →
  (∀ x y, (x, y) ∈ positions → in_bounds x → in_bounds y →
     data_at (field_data w2) x y = data_at (field_data w) x y) →
  ∃ cur', move_cat_scan positions cur w = (w, Ret cur') ∧
          move_cat_scan positions cur w2 = (w2, Ret cur').
Proof.
  intros Hw Hw2 Hcentre. revert cur.
  induction positions as [|[x y] rest IH]; simpl; intros cur Hdata.
  - by exists cur.
  - destruct (move_cat_check_agree w w2 cur (x, y) Hw Hw2 Hcentre)
      as (cur1 & Hrun & Hrun2).
    { intros Hx Hy. apply Hdata; [by left|done..]. }
    rewrite !bind_run, Hrun, Hrun2. apply IH.
    intros x' y' Hin. apply Hdata. by right.
Qed.

(** C10. On a board of the right shape, for a cat on a cell of the board,
    [move_cat] returns without an error and writes the cat symbol on one
    cell: the cat's own cell or one of its four neighbours, and in that case
    one that is on the board and was empty.  The cat's own cell becomes
    empty when the cat leaves it, and every other cell keeps its symbol: the
    player, the obstacles and the other cats are not written over.  The
    candidate cells outside the board are neither read nor written: on every
    board that has the same coordinates in its centre cell and the same
    symbols on the neighbours of the cat that are on the board, [move_cat]
    takes the cat to the same cell. *)
Theorem move_cat_writes_origin_or_empty (w : World) r c :
  well_formed (field_data w) → in_bounds r → in_bounds c →
  data_at (field_data w) r c = Some CAT_SYMBOL →
  ∃ w' x y,
    move_cat r c w = (w', Ret tt) ∧
    in_bounds x ∧ in_bounds y ∧
    (x, y) ∈ [(r, c); (r, c - 1); (r, c + 1); (r - 1, c); (r + 1, c)] ∧
    ((x, y) = (r, c) ∨ data_at (field_data w) x y = Some EMPTY_SYMBOL) ∧
    (∀ r' c', in_bounds r' → in_bounds c' →
       data_at (field_data w') r' c' =
         if bool_decide (r' = x ∧ c' = y) then Some CAT_SYMBOL
         else if bool_decide (r' = r ∧ c' = c) then Some EMPTY_SYMBOL
         else data_at (field_data w) r' c') ∧
    (∀ r' c' s, in_bounds r' → in_bounds c' →
       data_at (field_data w) r' c' = Some s →
       s = PLAYER_SYMBOL ∨ s = OBSTACLE_SYMBOL
       ∨ (s = CAT_SYMBOL ∧ (r', c') ≠ (r, c)) →
       data_at (field_data w') r' c' = Some s) ∧
    (∀ w2 : World,
       well_formed (field_data w2) →
       coords_at (field_data w2) MIDDLE_POS MIDDLE_POS
         = coords_at (field_data w) MIDDLE_POS MIDDLE_POS →
       (∀ r' c', in_bounds r' → in_bounds c' →
          (r', c') ∈ [(r, c - 1); (r, c + 1); (r - 1, c); (r + 1, c)] →
          data_at (field_data w2) r' c' = data_at (field_data w) r' c') →
       ∃ w2',
         move_cat r c w2 = (w2', Ret tt) ∧
         ∀ r' c', in_bounds r' → in_bounds c' →
           data_at (field_data w2') r' c' =
             if bool_decide (r' = x ∧ c' = y) then Some CAT_SYMBOL
             else if bool_decide (r' = r ∧ c' = c) then Some EMPTY_SYMBOL
             else data_at (field_data w2) r' c').
Proof.
  intros Hw Hr Hc Hcat.
  destruct (move_cat_spec w r c Hw Hr Hc)
    as (centre & x & y & g1 & g2 & Hcentre & Hx & Hy & Hdest & Hscan & Hg1
        & Hg2 & Hrun).
  assert (Hw1 : well_formed g1) by by eapply well_formed_upd.
  assert (Hdata : ∀ r' c', in_bounds r' → in_bounds c' →
    data_at g2 r' c' =
      if bool_decide (r' = x ∧ c' = y) then Some CAT_SYMBOL
      else if bool_decide (r' = r ∧ c' = c) then Some EMPTY_SYMBOL
      else data_at (field_data w) r' c').
  { intros r' c' Hr' Hc'.
    rewrite (data_at_set_data _ _ _ _ _ _ _ Hw1 Hx Hy Hr' Hc' Hg2).
    case_bool_decide; [done|].
    by rewrite (data_at_set_data _ _ _ _ _ _ _ Hw Hr Hc Hr' Hc' Hg1). }
  exists (mkWorld g2 (tape w)), x, y. split_and!; try done.
  - (* the cell chosen is the cat's own or one of its four neighbours *)
    assert (Hstart : first_nearest (field_data w) centre r c []
                       (Position.manhattan centre (r, c), (r, c))).
    { split; [done|]. left. split; [done|].
      intros q Hq. by apply elem_of_nil in Hq. }
    destruct (move_cat_scan_first_nearest w centre r c
                [(r, c - 1); (r, c + 1); (r - 1, c); (r + 1, c)] [] _
                Hw Hcentre Hstart) as (cur & Hscan' & _ & Hcur).
    rewrite Hscan in Hscan'. injection Hscan' as <-. simpl in Hcur.
    destruct Hcur as [[-> _]|(before & after & Heq & _)]; [by left|].
    right. rewrite Heq. apply elem_of_app. right. by left.
  - destruct Hdest as [?|[? _]]; auto.
  - intros r' c' s Hr' Hc' Hs Hkind. simpl. rewrite Hdata by done.
    case_bool_decide as Hxy.
    + destruct Hxy as [-> ->].
      destruct Hdest as [?|[Hempty _]];
        destruct Hkind as [?|[?|[? ?]]]; congruence.
    + case_bool_decide as Hrc; [|done]. destruct Hrc as [-> ->].
      rewrite Hcat in Hs. destruct Hkind as [->|[->|[-> ?]]]; congruence.
  - intros w2 Hw2 Hcoords Hagree.
    destruct (move_cat_spec w2 r c Hw2 Hr Hc)
      as (centre2 & x2 & y2 & h1 & h2 & Hcentre2 & Hx2 & Hy2 & _ & Hscan2
          & Hh1 & Hh2 & Hrun2).
    assert (Hd : Position.manhattan centre2 (r, c)
                 = Position.manhattan centre (r, c)).
    { unfold coords_at in Hcoords. rewrite Hcentre, Hcentre2 in Hcoords.
      simpl in Hcoords. injection Hcoords as Hcx Hcy.
      unfold Position.manhattan. by rewrite Hcx, Hcy. }
    destruct (move_cat_scan_agree w w2
                [(r, c - 1); (r, c + 1); (r - 1, c); (r + 1, c)]
                (Position.manhattan centre (r, c), (r, c)) Hw Hw2 Hcoords)
      as (cur & Hs1 & Hs2).
    { intros x' y' Hin Hx' Hy'. by apply Hagree. }
    rewrite Hscan in Hs1. injection Hs1 as <-.
    rewrite Hd, Hs2 in Hscan2. injection Hscan2 as _ <- <-.
    assert (Hwh1 : well_formed h1) by by eapply well_formed_upd.
    exists (mkWorld h2 (tape w2)). split; [done|].
    intros r' c' Hr' Hc'. simpl.
    rewrite (data_at_set_data _ _ _ _ _ _ _ Hwh1 Hx Hy Hr' Hc' Hh2).
    case_bool_decide; [done|].
    by rewrite (data_at_set_data _ _ _ _ _ _ _ Hw2 Hr Hc Hr' Hc' Hh1).
Qed.

Lemma move_cat_writes_origin_or_empty_witness :
  well_formed (field_data game_3) ∧ in_bounds 2 ∧ in_bounds 4 ∧
  data_at (field_data game_3) 2 4 = Some CAT_SYMBOL ∧
  ∃ w' x y,
    move_cat 2 4 game_3 = (w', Ret tt) ∧
    in_bounds x ∧ in_bounds y ∧
    (x, y) ∈ [(2, 4); (2, 4 - 1); (2, 4 + 1); (2 - 1, 4); (2 + 1, 4)] ∧
    ((x, y) = (2, 4) ∨ data_at (field_data game_3) x y = Some EMPTY_SYMBOL) ∧
    (∀ r' c', in_bounds r' → in_bounds c' →
       data_at (field_data w') r' c' =
         if bool_decide (r' = x ∧ c' = y) then Some CAT_SYMBOL
         else if bool_decide (r' = 2 ∧ c' = 4) then Some EMPTY_SYMBOL
         else data_at (field_data game_3) r' c') ∧
    (∀ r' c' s, in_bounds r' → in_bounds c' →
       data_at (field_data game_3) r' c' = Some s →
       s = PLAYER_SYMBOL ∨ s = OBSTACLE_SYMBOL
       ∨ (s = CAT_SYMBOL ∧ (r', c') ≠ (2, 4)) →
       data_at (field_data w') r' c' = Some s) ∧
    (∀ w2 : World,
       well_formed (field_data w2) →
       coords_at (field_data w2) MIDDLE_POS MIDDLE_POS
         = coords_at (field_data game_3) MIDDLE_POS MIDDLE_POS →
       (∀ r' c', in_bounds r' → in_bounds c' →
          (r', c') ∈ [(2, 4 - 1); (2, 4 + 1); (2 - 1, 4); (2 + 1, 4)] →
          data_at (field_data w2) r' c' = data_at (field_data game_3) r' c') →
       ∃ w2',
         move_cat 2 4 w2 = (w2', Ret tt) ∧
         ∀ r' c', in_bounds r' → in_bounds c' →
           data_at (field_data w2') r' c' =
             if bool_decide (r' = x ∧ c' = y) then Some CAT_SYMBOL
             else if bool_decide (r' = 2 ∧ c' = 4) then Some EMPTY_SYMBOL
             else data_at (field_data w2) r' c').
Proof.
  assert (H1 : well_formed (field_data game_3)) by concrete_grid_ok.
  assert (H2 : in_bounds 2) by (unfold in_bounds, FIELD_SIZE; lia).
  assert (H3 : in_bounds 4) by (unfold in_bounds, FIELD_SIZE; lia).
  assert (H4 : data_at (field_data game_3) 2 4 = Some CAT_SYMBOL)
    by reflexivity.
  split; [exact H1|]. split; [exact H2|]. split; [exact H3|].
  split; [exact H4|].
  exact (move_cat_writes_origin_or_empty game_3 2 4 H1 H2 H3 H4).
Defined.

(** ** A cat moved more than once in a turn *)
Lemma reachable_game_0_mirror : reachable game_0_mirror.
Proof.
  apply (reachable_new (mkWorld [] [4; 1; 0; 0; 0; 1; 0; 4])). reflexivity.
Qed.

(** C2 fails on the code.  The new game [game_0] holds one cat, on (0,0).
    In one turn [proceed_cats_turn] gives (0,0), then (0,1), then (0,2) to
    [move_cat]: the cat has gone right twice into cells that the scan had
    not reached, is found there and moved again, and ends on (1,2), next to
    the player, so that the game is over after the first turn.  A fold over
    the cats of the start moves it once, to (0,1), and the game goes on.  On
    the new game [game_0_mirror], with its cat on (4,4), the same turn moves
    the cat once, to (4,3), a cell that the scan has passed: only the cats
    that go right or down are moved again. *)
Theorem cats_turn_moves_a_cat_three_times :
  reachable game_0 ∧
  cats_of (field_data game_0) = [(0, 0)] ∧
  proceed_cats_turn game_0
    = (move_cat 0 0;; move_cat 0 1;; move_cat 0 2) game_0 ∧
  (proceed_cats_turn_log game_0).2 = Ret [(0, 0); (0, 1); (0, 2)] ∧
  cats_of (field_data (proceed_cats_turn game_0).1) = [(1, 2)] ∧
  is_game_over (proceed_cats_turn game_0).1
    = ((proceed_cats_turn game_0).1, Ret true) ∧
  proceed_cats_turn_snapshot game_0 = move_cat 0 0 game_0 ∧
  cats_of (field_data (proceed_cats_turn_snapshot game_0).1) = [(0, 1)] ∧
  is_game_over (proceed_cats_turn_snapshot game_0).1
    = ((proceed_cats_turn_snapshot game_0).1, Ret false) ∧
  reachable game_0_mirror ∧
  cats_of (field_data game_0_mirror) = [(4, 4)] ∧
  proceed_cats_turn game_0_mirror = move_cat 4 4 game_0_mirror ∧
  (proceed_cats_turn_log game_0_mirror).2 = Ret [(4, 4)] ∧
  cats_of (field_data (proceed_cats_turn game_0_mirror).1) = [(4, 3)].
Proof.
  split; [apply reachable_game_0|].
  do 8 (split; [reflexivity|]).
  split; [apply reachable_game_0_mirror|].
  by split_and!.
Qed.
